(** * findexpr: exhaustive search for arithmetic expressions

    A shallow embedding of [findexpr.cpp] and the properties of its search
    engine: the operation registry, the enumeration of binary tree shapes,
    the assignment of operands and operators, evaluation and rendering.

    Conventions of the embedding.
    - [double] is the kernel's IEEE 754 binary64 type [float]; [int] is [Z]
      with the 32-bit wrap-around written out where the code can overflow.
    - An [Operation*] is [option Operation.t]: [None] is [nullptr], [Some o]
      points at the registry entry [o].
    - A call finishes with a value ([Ok]), with a C++ exception ([Throw],
      carrying the text of [std::runtime_error]) or has undefined behaviour
      ([UB]: a null pointer dereference, an index outside a vector, a
      division by zero on integers).  [OutOfFuel] belongs to the model only:
      recursion over pointers is bounded by a fuel argument.
    - The first part works on trees as values (each function returns the tree
      it leaves behind); the second part keeps the nodes in a heap, with the
      sharing that [std::shared_ptr] gives the program. *)

From Stdlib Require Import ZArith Floats Lia Factorial.
From stdpp Require Import base option list strings pretty.

Open Scope Z_scope.

#[local] Set Warnings "-register-all".

(** * The program on trees *)

(** ** Outcomes of a call *)

Inductive result (A : Type) : Type :=
| Ok (a : A)
| Throw (what : string)
| UB
| OutOfFuel.
Arguments Ok {A} a.
Arguments Throw {A} what.
Arguments UB {A}.
Arguments OutOfFuel {A}.

#[export] Instance result_ret : MRet result := fun A a => Ok a.
#[export] Instance result_bind : MBind result := fun A B f m =>
  match m with
  | Ok a => f a
  | Throw w => Throw w
  | UB => UB
  | OutOfFuel => OutOfFuel
  end.

(** ** Machine integers *)

Definition INT_MAX : Z := 2 ^ 31 - 1.

(** Conversion of a value to [int] (two's complement, 32 bits). *)
Definition to_int (z : Z) : Z := (z + 2 ^ 31) mod 2 ^ 32 - 2 ^ 31.

(** Conversion of an [int] to [size_t] (64 bits, unsigned). *)
Definition to_size_t (z : Z) : Z := z mod 2 ^ 64.

(** The base type of all calculations: [using T = double]. *)
Definition T : Type := float.

(** Conversion of an [int] to [double]; exact, since every [int] has fewer
    than 53 significant bits. *)
Definition double_of_int (z : Z) : T :=
  if z <? 0 then PrimFloat.opp (PrimFloat.of_uint63 (Uint63.of_Z (- z)))
  else PrimFloat.of_uint63 (Uint63.of_Z z).

(** ** The operation registry *)

Module Operation.
Record t : Type := make {
  name : string;
  infix : string;
  n : Z;
  precedence : Z;
  fn : list T -> result T
}.
End Operation.

(** [args[i]] on a [std::vector<T>]: outside the vector the behaviour is
    undefined. *)
Definition at_ (args : list T) (i : nat) : result T :=
  match args !! i with
  | Some x => Ok x
  | None => UB
  end.

(** The loop of [intpow].  The language leaves a product outside the range
    of [int] undefined; here such a product wraps around, as the usual
    targets compute it.  [intpow_checked] further down is the same loop with
    every product checked; the two agree wherever the checked one returns,
    and for up to twelve operands the only product of [main]'s call that
    leaves the range is a last square that nothing reads. *)
Fixpoint intpow_loop (fuel : nat) (a b r : Z) : Z :=
  match fuel with
  | O => r
  | S fuel' =>
      if 0 <? b then
        intpow_loop fuel' (to_int (a * a)) (Z.shiftr b 1)
                    (if Z.testbit b 0 then to_int (r * a) else r)
      else r
  end.

(** Integer exponentiation; [b] loses a bit per round, so 32 rounds are
    all an [int] can ask for. *)
Definition intpow (a b : Z) : Z := intpow_loop 32 a b 1.

(** The loop of [tenfactor], [rounds] being [20 - i]. *)
Fixpoint tenfactor_loop (rounds : nat) (x f : T) : T :=
  match rounds with
  | O => f
  | S rounds' =>
      if PrimFloat.leb f x then tenfactor_loop rounds' x (f * 10)%float
      else f
  end.

Definition tenfactor (x : T) : T := tenfactor_loop 20 x 1%float.

Definition op_add : Operation.t :=
  Operation.make "add" "+" 2 1
    (fun args => a ← at_ args 0; b ← at_ args 1; Ok (a + b)%float).
Definition op_sub : Operation.t :=
  Operation.make "sub" "-" 2 1
    (fun args => a ← at_ args 0; b ← at_ args 1; Ok (a - b)%float).
Definition op_mul : Operation.t :=
  Operation.make "mul" "*" 2 2
    (fun args => a ← at_ args 0; b ← at_ args 1; Ok (a * b)%float).
Definition op_div : Operation.t :=
  Operation.make "div" "/" 2 3
    (fun args => a ← at_ args 0; b ← at_ args 1; Ok (a / b)%float).
(** [pow] of the C library is taken as a parameter. *)
Definition op_pow (pow : T -> T -> T) : Operation.t :=
  Operation.make "pow" "^" 2 4
    (fun args => a ← at_ args 0; b ← at_ args 1; Ok (pow a b)).
Definition op_cat : Operation.t :=
  Operation.make "cat" "||" 2 5
    (fun args => a ← at_ args 0; b ← at_ args 1;
                 Ok (a * tenfactor b + b)%float).
Definition op_neg : Operation.t :=
  Operation.make "neg" "-" 1 2
    (fun args => a ← at_ args 0; Ok (- a)%float).

(** The list of supported operations. *)
Definition oplist (pow : T -> T -> T) : list Operation.t :=
  [op_add; op_sub; op_mul; op_div; op_pow pow; op_cat; op_neg].

(** The binary operations of a registry, as [main] collects them. *)
Definition binops (registry : list Operation.t) : list Operation.t :=
  filter (fun o => Operation.n o = 2) registry.

Definition precedence (op : option Operation.t) : Z :=
  match op with
  | None => 9
  | Some o => Operation.precedence o
  end.

(** ** Expression trees *)

#[local] Unset Elimination Schemes.
Inductive Node : Type :=
| Value (value : T)
| Expr (op : option Operation.t) (args : list Node).
#[local] Set Elimination Schemes.

(** Induction over trees, the hypothesis holding for every child. *)
Fixpoint Node_induction (P : Node -> Prop)
    (HValue : forall value, P (Value value))
    (HExpr : forall op args, Forall P args -> P (Expr op args))
    (t : Node) : P t :=
  match t with
  | Value value => HValue value
  | Expr op args =>
      HExpr op args
        ((fix all (l : list Node) : Forall P l :=
            match l with
            | [] => @List.Forall_nil _ P
            | a :: l' =>
                @List.Forall_cons _ P a l'
                  (Node_induction P HValue HExpr a) (all l')
            end) args)
  end.

Definition operation (t : Node) : option Operation.t :=
  match t with
  | Value _ => None
  | Expr op _ => op
  end.

(** [Value::make()]: a value-initialised leaf. *)
Definition Value_make : Node := Value 0%float.

(** [Expr::make(l, r)] and [Expr::make(l)]: no operation yet. *)
Definition Expr_make (l r : Node) : Node := Expr None [l; r].
Definition Expr_make1 (l : Node) : Node := Expr None [l].

Fixpoint eval (t : Node) : result T :=
  match t with
  | Value value => Ok value
  | Expr op args =>
      results ← (fix loop (l : list Node) : result (list T) :=
                   match l with
                   | [] => Ok []
                   | v :: l' => x ← eval v; xs ← loop l'; Ok (x :: xs)
                   end) args;
      match op with
      | None => UB
      | Some o => Operation.fn o results
      end
  end.

(** ** Rendering *)

(** An output stream is the text written to it so far. *)
Definition ostream : Type := string.

Definition put (os : ostream) (s : string) : ostream := os +:+ s.
Infix "<<" := put (at level 50, left associativity).

Section Output.
(** [operator<<] of the standard library for [double]. *)
Variable show : T -> string.

Fixpoint output (t : Node) (os : ostream) : ostream :=
  match t with
  | Value value => os << show value
  | Expr op args =>
      let call := fix loop (l : list Node) (first : bool) (os : ostream) :=
        match l with
        | [] => os
        | arg :: l' =>
            loop l' false (output arg (if first then os else os << ","))
        end in
      match op with
      | None =>
          match args with
          | [a0; a1] => output a1 (output a0 (os << "(") << "#") << ")"
          | [a0] => output a0 (os << "(" << "-") << ")"
          | _ => call args true (os << "op(") << ")"
          end
      | Some o =>
          match args, String.eqb (Operation.infix o) "" with
          | [a0; a1], false =>
              let needbrackets0 := precedence op >? precedence (operation a0) in
              let os := if needbrackets0 then os << "(" else os in
              let os := output a0 os in
              let os := if needbrackets0 then os << ")" else os in
              let os := os << Operation.infix o in
              let needbrackets1 := precedence op >? precedence (operation a1) in
              let os := if needbrackets1 then os << "(" else os in
              let os := output a1 os in
              if needbrackets1 then os << ")" else os
          | [a0], false =>
              let needbrackets0 := precedence op >? precedence (operation a0) in
              let os := os << Operation.infix o in
              let os := if needbrackets0 then os << "(" else os in
              let os := output a0 os in
              if needbrackets0 then os << ")" else os
          | _, _ => call args true (os << Operation.name o << "(") << ")"
          end
      end
  end.
End Output.

(** ** Enumeration of tree shapes *)

(** The trees [enumtrees] hands to its callback, in the order of the calls.
    The recursion descends on [nleaves]; [fuel] bounds its depth. *)
Fixpoint enumtrees_fuel (fuel : nat) (nleaves : Z) : list Node :=
  match fuel with
  | O => []
  | S fuel' =>
      if nleaves <? 1 then []
      else if nleaves =? 1 then [Value_make]
      else
        i ← seqZ 1 (nleaves - 1);
        t ← enumtrees_fuel fuel' (nleaves - i);
        s ← enumtrees_fuel fuel' i;
        [Expr_make t s]
  end.

Definition enumtrees (nleaves : Z) : list Node :=
  enumtrees_fuel (Z.to_nat nleaves) nleaves.

(** ** Generators *)

(** What the templates [setvalues] and [setops] ask of [GEN]: a [next()]. *)
Class Next (G A : Type) := next : G -> result (A * G).
#[global] Hint Mode Next ! - : typeclass_instances.

(** [generator<P>]: the elements between [cur] and [end]. *)
Record generator (A : Type) : Type := mk_generator { pending : list A }.
Arguments mk_generator {A} pending.
Arguments pending {A} g.

#[export] Instance generator_next {A} : Next (generator A) A := fun g =>
  match pending g with
  | [] => Throw "end of iteration"
  | x :: rest => Ok (x, mk_generator rest)
  end.

Definition iter {A} (v : list A) : generator A := mk_generator v.

(** [OpsGenerator]: the index [cur] read as a number in base [ops.size()],
    lowest digit first. *)
Record OpsGenerator : Type := mk_OpsGenerator {
  ops : list Operation.t;
  cur : Z
}.

#[export] Instance OpsGenerator_next : Next OpsGenerator Operation.t := fun g =>
  let size := Z.of_nat (length (ops g)) in
  if size =? 0 then UB
  else
    match ops g !! Z.to_nat (to_size_t (cur g) mod size) with
    | Some op =>
        Ok (op, mk_OpsGenerator (ops g) (to_int (to_size_t (cur g) / size)))
    | None => UB
    end.

(** ** Assignment of operands and operators *)

(** Sets the leaves of [t] with values from the generator [g]. *)
Fixpoint setvalues `{Next G Z} (t : Node) (g : G) : result (Node * G) :=
  match t with
  | Value _ => '(x, g) ← next g; Ok (Value (double_of_int x), g)
  | Expr op args =>
      '(args, g) ← (fix loop (l : list Node) (g : G) : result (list Node * G) :=
                      match l with
                      | [] => Ok ([], g)
                      | a :: l' =>
                          '(a, g) ← setvalues a g;
                          '(l', g) ← loop l' g;
                          Ok (a :: l', g)
                      end) args g;
      Ok (Expr op args, g)
  end.

(** Sets the expression nodes of [t] with operations from the generator [g]. *)
Fixpoint setops `{Next G Operation.t} (t : Node) (g : G) : result (Node * G) :=
  match t with
  | Value _ => Ok (t, g)
  | Expr op args =>
      '(op, g) ← (if (length args =? 2)%nat
                  then '(o, g) ← next g; Ok (Some o, g)
                  else Ok (op, g));
      '(args, g) ← (fix loop (l : list Node) (g : G) : result (list Node * G) :=
                      match l with
                      | [] => Ok ([], g)
                      | a :: l' =>
                          '(a, g) ← setops a g;
                          '(l', g) ← loop l' g;
                          Ok (a :: l', g)
                      end) args g;
      Ok (Expr op args, g)
  end.

(** * The program on the heap

    [Node::ptr] is a [std::shared_ptr]: the trees [enumtrees] hands out share
    subtrees, and [main] assigns operands and operators in place.  Here the
    nodes live in a heap, a pointer is an index into it, and every function
    reads and writes the node it is given.  The heap keeps every object ever
    allocated: the release of an object by its last [shared_ptr] is not
    modelled, a released object being out of reach. *)

(** A pointer is an index into the heap. *)
Abbreviation loc := nat (only parsing).

(** A [Value] object, or an [Expr] object with its pointers to children. *)
Inductive cell : Type :=
| VCell (value : T)
| ECell (op : option Operation.t) (args : list loc).

(** The heap: the objects allocated so far, oldest first. *)
Abbreviation heap := (list cell) (only parsing).

(** What the program has written to [std::cout]: the line that announces a
    shape (without the elapsed time, which is not modelled) and the line
    that reports a result with its expression. *)
Inductive event : Type :=
| Progress (expr : string)
| Report (result : T) (expr : string).

Record world : Type := mk_world { mem : heap; out : list event }.

(** [std::make_shared]: a new object behind all others. *)
Definition alloc (c : cell) (w : world) : loc * world :=
  (length (mem w), mk_world (mem w ++ [c]) (out w)).

Definition Value_make_h : world -> loc * world := alloc (VCell 0%float).

Definition Expr_make_h (l r : loc) : world -> loc * world :=
  alloc (ECell None [l; r]).

(** [t->operation()]. *)
Definition operation_h (h : heap) (t : loc) : option Operation.t :=
  match h !! t with
  | Some (ECell op _) => op
  | _ => None
  end.

(** A range-based [for] over a container, the state threaded through. *)
Fixpoint for_each {A S} (l : list A) (body : A -> S -> result S) (s : S) :
    result S :=
  match l with
  | [] => Ok s
  | x :: l' => s' ← body x s; for_each l' body s'
  end.

Fixpoint eval_h (fuel : nat) (h : heap) (t : loc) : result T :=
  match fuel with
  | O => OutOfFuel
  | S fuel' =>
      match h !! t with
      | None => UB
      | Some (VCell value) => Ok value
      | Some (ECell op args) =>
          results ← for_each args
                      (fun v results => x ← eval_h fuel' h v; Ok (results ++ [x]))
                      [];
          match op with
          | None => UB
          | Some o => Operation.fn o results
          end
      end
  end.

Section OutputHeap.
Variable show : T -> string.

Fixpoint output_h (fuel : nat) (h : heap) (t : loc) (os : ostream) :
    result ostream :=
  match fuel with
  | O => OutOfFuel
  | S fuel' =>
      match h !! t with
      | None => UB
      | Some (VCell value) => Ok (os << show value)
      | Some (ECell op args) =>
          let call := fix loop (l : list loc) (first : bool) (os : ostream) :=
            match l with
            | [] => Ok os
            | arg :: l' =>
                os ← output_h fuel' h arg (if first then os else os << ",");
                loop l' false os
            end in
          match op with
          | None =>
              match args with
              | [a0; a1] =>
                  os ← output_h fuel' h a0 (os << "(");
                  os ← output_h fuel' h a1 (os << "#");
                  Ok (os << ")")
              | [a0] =>
                  os ← output_h fuel' h a0 (os << "(" << "-");
                  Ok (os << ")")
              | _ => os ← call args true (os << "op("); Ok (os << ")")
              end
          | Some o =>
              match args, String.eqb (Operation.infix o) "" with
              | [a0; a1], false =>
                  let needbrackets0 :=
                    precedence op >? precedence (operation_h h a0) in
                  let os := if needbrackets0 then os << "(" else os in
                  os ← output_h fuel' h a0 os;
                  let os := if needbrackets0 then os << ")" else os in
                  let os := os << Operation.infix o in
                  let needbrackets1 :=
                    precedence op >? precedence (operation_h h a1) in
                  let os := if needbrackets1 then os << "(" else os in
                  os ← output_h fuel' h a1 os;
                  Ok (if needbrackets1 then os << ")" else os)
              | [a0], false =>
                  let needbrackets0 :=
                    precedence op >? precedence (operation_h h a0) in
                  let os := os << Operation.infix o in
                  let os := if needbrackets0 then os << "(" else os in
                  os ← output_h fuel' h a0 os;
                  Ok (if needbrackets0 then os << ")" else os)
              | _, _ =>
                  os ← call args true (os << Operation.name o << "(");
                  Ok (os << ")")
              end
          end
      end
  end.
End OutputHeap.

(** [setvalues] in place: the generator and the heap are the state. *)
Fixpoint setvalues_h `{Next G Z} (fuel : nat) (t : loc) (s : G * heap) :
    result (G * heap) :=
  match fuel with
  | O => OutOfFuel
  | S fuel' =>
      let '(g, h) := s in
      match h !! t with
      | None => UB
      | Some (VCell _) =>
          '(x, g) ← next g; Ok (g, <[t := VCell (double_of_int x)]> h)
      | Some (ECell _ args) => for_each args (setvalues_h fuel') (g, h)
      end
  end.

(** [setops] in place. *)
Fixpoint setops_h `{Next G Operation.t} (fuel : nat) (t : loc) (s : G * heap) :
    result (G * heap) :=
  match fuel with
  | O => OutOfFuel
  | S fuel' =>
      let '(g, h) := s in
      match h !! t with
      | None => UB
      | Some (VCell _) => Ok (g, h)
      | Some (ECell op args) =>
          s ← (if (length args =? 2)%nat
               then '(o, g) ← next g; Ok (g, <[t := ECell (Some o) args]> h)
               else Ok (g, h));
          for_each args (setops_h fuel') s
      end
  end.

(** [enumtrees], the callback receiving a pointer: the left subtree [t] is
    one object for all the right subtrees [s] it is combined with. *)
Fixpoint enumtrees_h (fuel : nat) (nleaves : Z)
    (cb : loc -> world -> result world) (w : world) : result world :=
  if nleaves <? 1 then Ok w
  else
    match fuel with
    | O => OutOfFuel
    | S fuel' =>
        if nleaves =? 1 then
          let '(v, w) := Value_make_h w in cb v w
        else
          for_each (seqZ 1 (nleaves - 1))
            (fun i =>
               enumtrees_h fuel' (nleaves - i) (fun t =>
                 enumtrees_h fuel' i (fun s w =>
                   let '(e, w) := Expr_make_h t s w in cb e w)))
            w
    end.

(** ** The search of [main] *)

(** The tolerance 0.11 as the compiler reads it: the nearest double. *)
Definition tolerance : T := 0x1.c28f5c28f5c29p-4%float.

(** [!target || fabs(result - *target) <= 0.11]. *)
Definition near_target (target : option Z) (result : T) : bool :=
  match target with
  | None => true
  | Some tg =>
      PrimFloat.leb (PrimFloat.abs (result - double_of_int tg)) tolerance
  end.

(** [intpow(binops.size(), nums.size()-1)], both arguments converted from
    [size_t] to [int]; the bound of the loop over the operator indices. *)
Definition index_bound (binops : list Operation.t) (nums : list Z) : Z :=
  intpow (to_int (Z.of_nat (length binops)))
         (to_int (to_size_t (Z.of_nat (length nums) - 1))).

Section Search.
Variable show : T -> string.
Variable binary : list Operation.t.
Variable nums : list Z.
Variable target : option Z.

(** The body of the loop over the operator indices. *)
Definition iteration (expr : loc) (i : Z) (w : world) : result world :=
  let iops := mk_OpsGenerator binary i in
  let inums := iter nums in
  let fuel := length (mem w) in
  '(_, h) ← setvalues_h fuel expr (inums, mem w);
  '(_, h) ← setops_h fuel expr (iops, h);
  result ← eval_h fuel h expr;
  if near_target target result then
    text ← output_h show fuel h expr "";
    Ok (mk_world h (out w ++ [Report result text]))
  else Ok (mk_world h (out w)).

(** The callback [main] gives to [enumtrees]. *)
Definition per_shape (expr : loc) (w : world) : result world :=
  text ← output_h show (length (mem w)) (mem w) expr "";
  for_each (seqZ 0 (index_bound binary nums)) (iteration expr)
    (mk_world (mem w) (out w ++ [Progress text])).

(** [main], once the options are read: [nums] and [target] are what the
    options left, [binary] the binary operations of the registry. *)
Definition search : result world :=
  let nleaves := to_int (to_size_t (Z.of_nat (length nums))) in
  enumtrees_h (Z.to_nat nleaves) nleaves per_shape (mk_world [] []).
End Search.

Definition main (show : T -> string) (pow : T -> T -> T)
    (nums : list Z) (target : option Z) : result world :=
  search show (binops (oplist pow)) nums target.

(** The report lines of a run. *)
Definition reports (o : list event) : list (T * string) :=
  o ≫= fun e => match e with Report r s => [(r, s)] | Progress _ => [] end.

(** The progress lines of a run. *)
Definition progress (o : list event) : list string :=
  o ≫= fun e => match e with Progress s => [s] | Report _ _ => [] end.

(** ** The same search with a fresh tree per iteration *)

(** What one (shape, operator index) pair reports when it works on a clone
    of the shape that no other iteration has touched. *)
Definition fresh_iteration (show : T -> string) (binary : list Operation.t)
    (nums : list Z) (target : option Z) (shape : Node) (i : Z) :
    list (T * string) :=
  match setvalues shape (iter nums) with
  | Ok (t1, _) =>
      match setops t1 (mk_OpsGenerator binary i) with
      | Ok (t2, _) =>
          match eval t2 with
          | Ok result =>
              if near_target target result
              then [(result, output show t2 "")] else []
          | _ => []
          end
      | _ => []
      end
  | _ => []
  end.

Definition fresh_search (show : T -> string) (binary : list Operation.t)
    (nums : list Z) (target : option Z) : list (T * string) :=
  shape ← enumtrees (to_int (to_size_t (Z.of_nat (length nums))));
  i ← seqZ 0 (index_bound binary nums);
  fresh_iteration show binary nums target shape i.

(** * The vocabulary of the properties *)

(** ** Powers of ten in [double] *)

(** The value of [f] after [k] rounds of [f *= 10], starting from 1. *)
Fixpoint pow10 (k : nat) : T :=
  match k with
  | O => 1%float
  | S k' => (pow10 k' * 10)%float
  end.

(** [float_is_Z f z]: the double [f] is finite and its value is exactly the
    integer [z] (mantissa times two to the exponent). *)
Definition float_is_Z (f : T) (z : Z) : Prop :=
  match Prim2SF f with
  | S754_zero _ => z = 0
  | S754_finite s m e =>
      (if s then - Z.pos m else Z.pos m) * 2 ^ Z.max e 0 = z * 2 ^ Z.max (- e) 0
  | _ => False
  end.

(** ** Observations on trees *)

(** The values on the leaves, in pre-order (children left to right). *)
Fixpoint leaves (t : Node) : list T :=
  match t with
  | Value value => [value]
  | Expr _ args => args ≫= leaves
  end.

Definition leafcount (t : Node) : nat := length (leaves t).

(** The operation pointers of the nodes with exactly two children, in
    pre-order: a node before its children, children left to right. *)
Fixpoint binary_ops (t : Node) : list (option Operation.t) :=
  match t with
  | Value _ => []
  | Expr op args =>
      (if (length args =? 2)%nat then [op] else []) ++ (args ≫= binary_ops)
  end.

(** The number of binary internal nodes. *)
Definition binary_count (t : Node) : nat := length (binary_ops t).

(** The tree with every leaf reset to a fresh [Value] and every operation
    pointer null: what is left of a tree when only its structure counts. *)
Fixpoint skeleton_of (t : Node) : Node :=
  match t with
  | Value _ => Value_make
  | Expr _ args => Expr None (skeleton_of <$> args)
  end.

(** A skeleton as [enumtrees] builds them: fresh leaves, and internal nodes
    with two children and no operation. *)
Inductive skeleton : Node -> Prop :=
| skeleton_Value : skeleton Value_make
| skeleton_Expr l r : skeleton l -> skeleton r -> skeleton (Expr_make l r).

(** Every internal node has an operation, and as many children as the
    lambda of the operation reads. *)
Inductive assigned : Node -> Prop :=
| assigned_Value value : assigned (Value value)
| assigned_Expr o args :
    Forall assigned args ->
    Operation.n o = Z.of_nat (length args) ->
    assigned (Expr (Some o) args).

(** [t'] is [t] up to the values of its leaves: same nodes, same children
    in the same order, same operation pointers. *)
Inductive same_but_values : Node -> Node -> Prop :=
| sbv_Value value value' : same_but_values (Value value) (Value value')
| sbv_Expr op args args' :
    Forall2 same_but_values args args' ->
    same_but_values (Expr op args) (Expr op args').

(** [t'] is [t] up to the operation pointers of the nodes with exactly two
    children: same nodes, same children in the same order, same leaf values,
    and the same pointer wherever the number of children is not two. *)
Inductive same_but_binops : Node -> Node -> Prop :=
| sbo_Value value : same_but_binops (Value value) (Value value)
| sbo_Expr op op' args args' :
    Forall2 same_but_binops args args' ->
    (length args <> 2%nat -> op' = op) ->
    same_but_binops (Expr op args) (Expr op' args').

(** The loops over [e->args] of the two assigners. *)
Definition setvalues_args `{Next G Z} : list Node -> G -> result (list Node * G) :=
  fix loop (l : list Node) (g : G) : result (list Node * G) :=
    match l with
    | [] => Ok ([], g)
    | a :: l' =>
        '(a, g) ← setvalues a g;
        '(l', g) ← loop l' g;
        Ok (a :: l', g)
    end.

Definition setops_args `{Next G Operation.t} : list Node -> G -> result (list Node * G) :=
  fix loop (l : list Node) (g : G) : result (list Node * G) :=
    match l with
    | [] => Ok ([], g)
    | a :: l' =>
        '(a, g) ← setops a g;
        '(l', g) ← loop l' g;
        Ok (a :: l', g)
    end.

(** The digits of [index] in base [radix], lowest first. *)
Fixpoint digits (radix : Z) (m : nat) (index : Z) : list Z :=
  match m with
  | O => []
  | S m' => index mod radix :: digits radix m' (index / radix)
  end.

(** The tree [setops] leaves behind for the operator index [i]. *)
Definition assign_ops (ops : list Operation.t) (t : Node) (i : Z) : option Node :=
  match setops t (mk_OpsGenerator ops i) with
  | Ok (t', _) => Some t'
  | _ => None
  end.

(** ** Rendering and evaluation: what the properties speak of *)

(** The loop that writes the arguments of a call, separated by commas. *)
Definition output_call (show : T -> string) :
    list Node -> bool -> ostream -> ostream :=
  fix loop (l : list Node) (first : bool) (os : ostream) : ostream :=
    match l with
    | [] => os
    | arg :: l' =>
        loop l' false (output show arg (if first then os else os << ","))
    end.

(** The operation pointers of all internal nodes, in pre-order. *)
Fixpoint all_ops (t : Node) : list (option Operation.t) :=
  match t with
  | Value _ => []
  | Expr op args => op :: (args ≫= all_ops)
  end.

(** [s], between parentheses when [b] holds. *)
Definition parenthesized (b : bool) (s : string) : string :=
  if b then "(" +:+ s +:+ ")" else s.

(** The precedence a child has for its parent, in the words of the
    specification: the precedence of the child's own operation, and the
    maximal, atomic precedence 9 for a leaf (and for a node that has no
    operation yet). *)
Definition child_precedence (child : Node) : Z :=
  match child with
  | Value _ => 9
  | Expr None _ => 9
  | Expr (Some oc) _ => Operation.precedence oc
  end.

(** The precedence of [child] is strictly lower than the precedence of the
    operation [parent]. *)
Definition binds_looser (child : Node) (parent : Operation.t) : bool :=
  child_precedence child <? Operation.precedence parent.

Fixpoint commas (first : bool) (l : list string) : string :=
  match l with
  | [] => ""
  | s :: l' => (if first then "" else ",") +:+ s +:+ commas false l'
  end.

(** The rendering rules in the words of the specification: a leaf is its
    number; an infix operation with two children is [left infix right], with
    one child [infix child], a child between parentheses when it binds
    looser than its parent; anything else with an operation is a call
    [name(child1,child2,...)]; a node without operation shows a
    placeholder. *)
Fixpoint render (show : T -> string) (t : Node) : string :=
  match t with
  | Value value => show value
  | Expr None args =>
      match args with
      | [l; r] => "(" +:+ render show l +:+ "#" +:+ render show r +:+ ")"
      | [c] => "(-" +:+ render show c +:+ ")"
      | _ => "op(" +:+ commas true (render show <$> args) +:+ ")"
      end
  | Expr (Some o) args =>
      match args, String.eqb (Operation.infix o) "" with
      | [l; r], false =>
          parenthesized (binds_looser l o) (render show l)
          +:+ Operation.infix o
          +:+ parenthesized (binds_looser r o) (render show r)
      | [c], false =>
          Operation.infix o +:+ parenthesized (binds_looser c o) (render show c)
      | _, _ =>
          Operation.name o +:+ "(" +:+ commas true (render show <$> args) +:+ ")"
      end
  end.

(** The integer a double holds, if it holds one. *)
Definition integral_value (x : T) : option Z :=
  match Prim2SF x with
  | S754_zero _ => Some 0
  | S754_finite s m e =>
      let a := if s then - Z.pos m else Z.pos m in
      if 0 <=? e then Some (a * 2 ^ e)
      else if a mod 2 ^ (- e) =? 0 then Some (a / 2 ^ (- e))
      else None
  | _ => None
  end.

(** What [operator<<] prints for a double that holds an integer of at most
    six digits (the default precision), the negative zero with its sign;
    other numbers are not needed by the examples and print as a question
    mark here. *)
Definition show_integral (x : T) : string :=
  match Prim2SF x with
  | S754_zero true => "-0"
  | _ =>
      match integral_value x with
      | Some z => if Z.abs z <? 10 ^ 6 then pretty z else "?"
      | None => "?"
      end
  end.

(** The shape of the scenario: a leaf combined with (leaf, leaf). *)
Definition scenario_shape : Node :=
  Expr_make Value_make (Expr_make Value_make Value_make).

(** The loop of [Expr::eval] that collects the values of the children. *)
Definition eval_args : list Node -> result (list T) :=
  fix loop (l : list Node) : result (list T) :=
    match l with
    | [] => Ok []
    | v :: l' => x ← eval v; xs ← loop l'; Ok (x :: xs)
    end.

(** Every operation the tree points at is an entry of [registry]. *)
Definition from_registry (registry : list Operation.t) (t : Node) : Prop :=
  Forall (fun op => forall o, op = Some o -> o ∈ registry) (all_ops t).

(** ** Counting shapes *)

(** The Catalan numbers 1, 1, 2, 5, 14, ..., counted from 0:
    [catalan n = (2n)! / ((n+1)! n!)]. *)
Definition catalan (n : nat) : nat := (fact (2 * n) / (fact (n + 1) * fact n))%nat.

(** [sumZ f n] is [f 0 + ... + f (n-1)]. *)
Fixpoint sumZ (f : nat -> Z) (n : nat) : Z :=
  match n with
  | O => 0
  | S n' => sumZ f n' + f n'
  end.

(** The number of shapes with [k + 1] leaves. *)
Definition shapes_count (k : nat) : Z :=
  Z.of_nat (length (enumtrees (Z.of_nat k + 1))).

(** ** Trees in the heap *)

(** The addresses of a tree: where its root lives, and the same for each
    child. *)
#[local] Unset Elimination Schemes.
Inductive Addr : Type :=
| ANode (at_root : loc) (children : list Addr).
#[local] Set Elimination Schemes.

Definition root (a : Addr) : loc :=
  match a with ANode l _ => l end.

(** All addresses of a tree, in pre-order. *)
Fixpoint footprint (a : Addr) : list loc :=
  match a with
  | ANode l cs => l :: (cs ≫= footprint)
  end.

(** [stored h a t]: the heap holds the tree [t] at the addresses [a]. *)
Inductive stored (h : heap) : Addr -> Node -> Prop :=
| stored_Value l value :
    h !! l = Some (VCell value) -> stored h (ANode l []) (Value value)
| stored_Expr l op cs args :
    h !! l = Some (ECell op (root <$> cs)) ->
    Forall2 (stored h) cs args ->
    stored h (ANode l cs) (Expr op args).

(** What assignment may do to an object: change the value of a [Value], or
    the operation of an [Expr], and nothing else. *)
Definition cell_le (c c' : cell) : Prop :=
  match c, c' with
  | VCell _, VCell _ => True
  | ECell _ args, ECell _ args' => args = args'
  | _, _ => False
  end.

(** [heap_le h h']: every object of [h] is still there in [h'], of the same
    class and with the same children. *)
Definition heap_le (h h' : heap) : Prop :=
  forall l c, h !! l = Some c -> exists c', h' !! l = Some c' /\ cell_le c c'.

(** The reports the shapes [done] owe, each with a fresh tree per index. *)
Definition reports_of (show : T -> string) (binary : list Operation.t)
    (nums : list Z) (target : option Z) (done : list Node) :
    list (T * string) :=
  shape ← done;
  i ← seqZ 0 (index_bound binary nums);
  fresh_iteration show binary nums target shape i.

(** What [enumtrees_h] asks of its callback, for an invariant [I] on the
    shapes handed out so far and the output: whenever it receives a tree
    that lies in the heap without sharing, at addresses allocated after
    [h0], and whose structure is a shape with [n] leaves, the callback
    returns, keeps the invariant, and leaves every object in its class. *)
Definition callback_ok (I : list Node -> list event -> Prop) (n : Z)
    (h0 : heap) (cb : loc -> world -> result world) : Prop :=
  forall done a t w,
    I done (out w) ->
    heap_le h0 (mem w) ->
    stored (mem w) a t ->
    NoDup (footprint a) ->
    Forall (fun l => (length h0 <= l)%nat) (footprint a) ->
    skeleton_of t ∈ enumtrees n ->
    exists w', cb (root a) w = Ok w' /\
               I (done ++ [skeleton_of t]) (out w') /\
               heap_le (mem w) (mem w').

(** [hands_out n shapes]: whatever the callback and the invariant it keeps,
    [enumtrees_h] on [n] leaves returns with the invariant extended by
    [shapes]: it has called the callback on these shapes, in this order. *)
Definition hands_out (n : Z) (shapes : list Node) : Prop :=
  forall (I : list Node -> list event -> Prop) cb w done,
    callback_ok I n (mem w) cb ->
    I done (out w) ->
    exists w', enumtrees_h (Z.to_nat n) n cb w = Ok w' /\
               I (done ++ shapes) (out w') /\
               heap_le (mem w) (mem w').

(** [updates h fp h']: from [h] to [h'] nothing changed outside the
    addresses [fp], and every object stayed in its class. *)
Definition updates (h : heap) (fp : list loc) (h' : heap) : Prop :=
  (forall l, l ∉ fp -> h' !! l = h !! l) /\ heap_le h h'.

(** [step_h] on the heap does at the addresses [a] what [step] does to the
    tree [t] stored there. *)
Definition refines_at {G} (fuel : nat)
    (step_h : loc -> G * heap -> result (G * heap))
    (step : Node -> G -> result (Node * G)) (t : Node) : Prop :=
  forall a (g : G) h t' g',
    stored h a t -> NoDup (footprint a) -> (length (footprint a) <= fuel)%nat ->
    step t g = Ok (t', g') ->
    exists h', step_h (root a) (g, h) = Ok (g', h') /\
               stored h' a t' /\ updates h (footprint a) h'.

(** The trees built for one split [i]: every left shape with the right
    shapes it is combined with. *)
Definition split_shapes (i : Z) (lefts : list Node) : list Node :=
  t ← lefts; s ← enumtrees i; [Expr_make t s].

(** The loop of [output_h] that writes the arguments of a call. *)
Definition output_call_h (show : T -> string) (fuel : nat) (h : heap) :
    list loc -> bool -> ostream -> result ostream :=
  fix loop (l : list loc) (first : bool) (os : ostream) : result ostream :=
    match l with
    | [] => Ok os
    | arg :: l' =>
        os ← output_h show fuel h arg (if first then os else os << ",");
        loop l' false os
    end.

(** A stand-in for the library's [pow] where an example has to run [main];
    no example depends on what it returns. *)
Definition pow_stub (x y : T) : T := x.

(** The tree an iteration leaves behind when it starts from a fresh clone of
    [shape]: operands, then operators of the index [i]. *)
Definition fresh_assignment (binary : list Operation.t) (nums : list Z)
    (shape : Node) (i : Z) : result Node :=
  '(t1, _) ← setvalues shape (iter nums);
  '(t2, _) ← setops t1 (mk_OpsGenerator binary i);
  Ok t2.

(** * The rest of the program *)

(** ** The timer *)

(** [struct timeval]: seconds and microseconds, both of type [long], 64
    bits wide as on the usual 64-bit targets. *)
Record timeval : Type := mk_timeval { tv_sec : Z; tv_usec : Z }.

Definition LONG_MAX : Z := 2 ^ 63 - 1.
Definition LONG_MIN : Z := - 2 ^ 63.

(** Conversion of a value to [uint64_t]. *)
Definition to_uint64_t (z : Z) : Z := z mod 2 ^ 64.

(** [a - b] on [long]; outside the range of [long] the behaviour is
    undefined. *)
Definition sub_long (a b : Z) : result Z :=
  if (LONG_MIN <=? a - b) && (a - b <=? LONG_MAX) then Ok (a - b) else UB.

Module timer.
(** The time of the last measurement; the constructor [timer()] is [make]
    applied to what [gettimeofday] answers. *)
Record t : Type := make { t0 : timeval }.

Definition tdiff (lhs rhs : timeval) : result Z :=
  dsec ← sub_long (tv_sec lhs) (tv_sec rhs);
  dusec ← sub_long (tv_usec lhs) (tv_usec rhs);
  Ok (to_uint64_t (to_uint64_t (to_uint64_t dsec * 1000000)
                   + to_uint64_t dusec)).

(** [lap()], [now] being what [gettimeofday] answers. *)
Definition lap (now : timeval) (tm : t) : result (Z * t) :=
  d ← tdiff now (t0 tm);
  Ok (d, make now).
End timer.

(** The laps measured at the clock readings [clock], one call of [lap()]
    per reading. *)
Fixpoint laps (clock : list timeval) (tm : timer.t) : result (list Z * timer.t) :=
  match clock with
  | [] => Ok ([], tm)
  | now :: rest =>
      '(d, tm) ← timer.lap now tm;
      '(ds, tm) ← laps rest tm;
      Ok (d :: ds, tm)
  end.

(** The microseconds a [timeval] stands for. *)
Definition usec_of (tv : timeval) : Z := tv_sec tv * 1000000 + tv_usec tv.

(** A reading of the clock: a time since the epoch whose microseconds a
    [long] can count, the field [tv_usec] below a second. *)
Definition normal (tv : timeval) : Prop :=
  0 <= tv_sec tv /\ 0 <= tv_usec tv < 1000000 /\ usec_of tv <= LONG_MAX.

(** The readings [clock], taken after [prev], never go back. *)
Fixpoint chronological (prev : timeval) (clock : list timeval) : Prop :=
  match clock with
  | [] => True
  | now :: rest => usec_of prev <= usec_of now /\ chronological now rest
  end.

(** The microseconds from each reading to the next, [prev] first. *)
Fixpoint elapsed (prev : timeval) (clock : list timeval) : list Z :=
  match clock with
  | [] => []
  | now :: rest => (usec_of now - usec_of prev) :: elapsed now rest
  end.

(** ** The options of [main] *)

(** An argument as the loop of [main] sees it: the letter [option()]
    returns, and the number [getint()] returns for it.  The parser that
    yields the arguments belongs to a header of its own. *)
Module Arg.
Record t : Type := make { option : Ascii.ascii; getint : Z }.
End Arg.

(** The variables the options set. *)
Module Options.
Record t : Type := make {
  nums : list Z;
  digit : Z;
  count : Z;
  target : option Z
}.
End Options.

(** The variables as [main] initialises them. *)
Definition defaults : Options.t :=
  Options.make [1; 2; 3; 4; 5; 6; 7; 8; 9] (-1) (-1) None.

Section ReadArg.
Import Stdlib.Strings.Ascii.

(** The [switch] of [main]; [None] stands for its [default:], which prints
    the usage and returns 1. *)
Definition read_arg (arg : Arg.t) (o : Options.t) : option Options.t :=
  if Ascii.eqb (Arg.option arg) "r"%char then
    Some (Options.make (reverse (Options.nums o)) (Options.digit o)
            (Options.count o) (Options.target o))
  else if Ascii.eqb (Arg.option arg) "d"%char then
    Some (Options.make (Options.nums o) (Arg.getint arg)
            (Options.count o) (Options.target o))
  else if Ascii.eqb (Arg.option arg) "n"%char then
    Some (Options.make (Options.nums o) (Options.digit o)
            (Arg.getint arg) (Options.target o))
  else if Ascii.eqb (Arg.option arg) "t"%char then
    Some (Options.make (Options.nums o) (Options.digit o)
            (Options.count o) (Some (Arg.getint arg)))
  else None.

(** The letters [main] knows. *)
Definition known (arg : Arg.t) : Prop :=
  Arg.option arg ∈ ["r"; "d"; "n"; "t"]%char.
End ReadArg.

Fixpoint read_args (args : list Arg.t) (o : Options.t) : option Options.t :=
  match args with
  | [] => Some o
  | arg :: rest =>
      match read_arg arg o with
      | Some o' => read_args rest o'
      | None => None
      end
  end.

(** The operands once the options are read: [count] times [digit] when both
    are positive. *)
Definition operands (o : Options.t) : list Z :=
  if (0 <? Options.count o) && (0 <? Options.digit o)
  then replicate (Z.to_nat (Options.count o)) (Options.digit o)
  else Options.nums o.

(** How [main] ends: with the usage and the value 1, or after the search. *)
Inductive outcome : Type :=
| Usage
| Searched (w : world).

(** [main] from its arguments on. *)
Definition main_args (show : T -> string) (pow : T -> T -> T)
    (args : list Arg.t) : result outcome :=
  match read_args args defaults with
  | None => Ok Usage
  | Some o => w ← main show pow (operands o) (Options.target o); Ok (Searched w)
  end.

(** ** More vocabulary *)

(** [k] calls of [next()], the values in the order of the calls. *)
Fixpoint draw {G A} `{!Next G A} (k : nat) (g : G) : result (list A * G) :=
  match k with
  | O => Ok ([], g)
  | S k' => '(x, g) ← next g; '(xs, g) ← draw k' g; Ok (x :: xs, g)
  end.


(** [getint()] of the last argument with the letter [c], and the number of
    arguments with the letter [c]. *)
Definition last_getint (c : Ascii.ascii) (args : list Arg.t) : option Z :=
  last (Arg.getint <$> filter (fun arg => Arg.option arg = c) args).

Definition occurrences (c : Ascii.ascii) (args : list Arg.t) : nat :=
  length (filter (fun arg => Arg.option arg = c) args).

(** The shapes that lean to one side, with [k + 1] leaves: every right
    child a leaf, and every left child a leaf. *)
Fixpoint left_comb (k : nat) : Node :=
  match k with
  | O => Value_make
  | S k' => Expr_make (left_comb k') Value_make
  end.

Fixpoint right_comb (k : nat) : Node :=
  match k with
  | O => Value_make
  | S k' => Expr_make Value_make (right_comb k')
  end.

(** Some node of the tree has no operation and not exactly two children:
    a node that [setops] passes by. *)
Inductive has_open_node : Node -> Prop :=
| open_here args : length args <> 2%nat -> has_open_node (Expr None args)
| open_below op args a :
    a ∈ args -> has_open_node a -> has_open_node (Expr op args).

(** ** [intpow] with signed overflow undefined *)

(** [x * y] on [int] as the language defines it: a product outside the
    range of [int] is undefined. *)
Definition mul_int (x y : Z) : result Z :=
  if (- 2 ^ 31 <=? x * y) && (x * y <=? INT_MAX) then Ok (x * y) else UB.

(** The loop of [intpow], every product checked. *)
Fixpoint intpow_checked_loop (fuel : nat) (a b r : Z) : result Z :=
  match fuel with
  | O => if 0 <? b then OutOfFuel else Ok r
  | S fuel' =>
      if 0 <? b then
        r ← (if Z.testbit b 0 then mul_int r a else Ok r);
        a ← mul_int a a;
        intpow_checked_loop fuel' a (Z.shiftr b 1) r
      else Ok r
  end.

Definition intpow_checked (a b : Z) : result Z := intpow_checked_loop 32 a b 1.

(** The loop of [intpow], a product outside the range of [int] replaced by
    whatever [overflow] makes of it. *)
Fixpoint intpow_with_loop (overflow : Z -> Z) (fuel : nat) (a b r : Z) : Z :=
  let mul x y :=
    if (- 2 ^ 31 <=? x * y) && (x * y <=? INT_MAX) then x * y
    else overflow (x * y) in
  match fuel with
  | O => r
  | S fuel' =>
      if 0 <? b then
        intpow_with_loop overflow fuel' (mul a a) (Z.shiftr b 1)
                         (if Z.testbit b 0 then mul r a else r)
      else r
  end.

Definition intpow_with (overflow : Z -> Z) (a b : Z) : Z :=
  intpow_with_loop overflow 32 a b 1.

(** The bound of the loop of [main] over the operator indices, computed
    with checked products. *)
Definition index_bound_checked (binops : list Operation.t) (nums : list Z) :
    result Z :=
  intpow_checked (to_int (Z.of_nat (length binops)))
                 (to_int (to_size_t (Z.of_nat (length nums) - 1))).

(** ** The output, shape by shape *)

Definition report_line (p : T * string) : event := Report p.1 p.2.


(** * Properties *)

(** ** The order of [double] against positive finite numbers *)

Section FloatOrder.
Local Open Scope float_scope.

Lemma SFleb_trans_pos m1 e1 m2 e2 X :
  SFleb (S754_finite false m1 e1) (S754_finite false m2 e2) = true ->
  SFleb (S754_finite false m2 e2) X = true ->
  SFleb (S754_finite false m1 e1) X = true.
Proof.
  unfold SFleb, SFcompare.
  destruct X as [s|s| |s m e]; try destruct s; try done.
  rewrite !Pos.compare_cont_spec; simpl.
  destruct (Z.compare_spec e1 e2), (Z.compare_spec e2 e), (Z.compare_spec e1 e);
    try done; try lia; subst.
  destruct (Pos.compare_spec m1 m2), (Pos.compare_spec m2 m),
    (Pos.compare_spec m1 m); try done; lia.
Qed.

Lemma SFleb_false_ltb m e X :
  X <> S754_nan ->
  SFleb (S754_finite false m e) X = false ->
  SFltb X (S754_finite false m e) = true.
Proof.
  unfold SFleb, SFltb, SFcompare.
  destruct X as [s|s| |s m' e']; try destruct s; try done.
  rewrite !Pos.compare_cont_spec; simpl.
  destruct (Z.compare_spec e e'), (Z.compare_spec e' e); try done; try lia.
  rewrite (Pos.compare_antisym m m').
  destruct (Pos.compare m m'); done.
Qed.

Lemma SFltb_leb_false m e X :
  SFltb X (S754_finite false m e) = true ->
  SFleb (S754_finite false m e) X = false.
Proof.
  unfold SFleb, SFltb, SFcompare.
  destruct X as [s|s| |s m' e']; try destruct s; try done.
  rewrite !Pos.compare_cont_spec; simpl.
  destruct (Z.compare_spec e e'), (Z.compare_spec e' e); try done; try lia.
  rewrite (Pos.compare_antisym m m').
  destruct (Pos.compare m m'); done.
Qed.

Lemma is_nan_false x : PrimFloat.is_nan x = false -> Prim2SF x <> S754_nan.
Proof.
  unfold PrimFloat.is_nan. rewrite FloatAxioms.eqb_spec. intros H Hn.
  rewrite Hn in H. done.
Qed.

(** Every power of ten the loop can reach is a positive finite double. *)
Lemma pow10_finite k :
  (k <= 20)%nat -> exists m e, Prim2SF (pow10 k) = S754_finite false m e.
Proof.
  intros Hk.
  do 21 (destruct k as [|k]; [vm_compute; eauto|]). lia.
Qed.

(** ... and holds the integer [10 ^ k] exactly. *)
Lemma pow10_exact k : (k <= 20)%nat -> float_is_Z (pow10 k) (10 ^ Z.of_nat k).
Proof.
  intros Hk.
  do 21 (destruct k as [|k]; [vm_compute; reflexivity|]). lia.
Qed.

Lemma pow10_step k : (k < 20)%nat -> (pow10 k <=? pow10 (S k)) = true.
Proof.
  intros Hk.
  do 20 (destruct k as [|k]; [vm_compute; reflexivity|]). lia.
Qed.

Lemma pow10_mono j k : (j <= k <= 20)%nat -> (pow10 j <=? pow10 k) = true.
Proof.
  intros [Hjk Hk]. induction Hjk as [|k Hjk IH].
  - destruct (pow10_finite j Hk) as (m & e & E).
    rewrite FloatAxioms.leb_spec, E. unfold SFleb, SFcompare.
    rewrite Z.compare_refl, Pos.compare_cont_spec, Pos.compare_refl. done.
  - assert (Hk' : (k <= 20)%nat) by lia. specialize (IH Hk').
    pose proof (pow10_step k ltac:(lia)) as Hs.
    destruct (pow10_finite j ltac:(lia)) as (m1 & e1 & E1).
    destruct (pow10_finite k Hk') as (m2 & e2 & E2).
    rewrite FloatAxioms.leb_spec in *. rewrite E1, E2 in *.
    eapply SFleb_trans_pos; eauto.
Qed.

Lemma pow10_leb_trans j k x :
  (j <= k <= 20)%nat -> (pow10 k <=? x) = true -> (pow10 j <=? x) = true.
Proof.
  intros Hjk Hx. pose proof (pow10_mono j k Hjk) as Hm.
  destruct (pow10_finite j ltac:(lia)) as (m1 & e1 & E1).
  destruct (pow10_finite k ltac:(lia)) as (m2 & e2 & E2).
  rewrite FloatAxioms.leb_spec in *. rewrite E1, E2 in *.
  eapply SFleb_trans_pos; eauto.
Qed.

(** The loop stops at the first power of ten that [x >= f] rejects, or
    after the rounds it was given. *)
Lemma tenfactor_loop_spec rounds x i :
  exists k, (i <= k <= i + rounds)%nat /\
    tenfactor_loop rounds x (pow10 i) = pow10 k /\
    (forall j, (i <= j < k)%nat -> (pow10 j <=? x) = true) /\
    ((k < i + rounds)%nat -> (pow10 k <=? x) = false).
Proof.
  revert i. induction rounds as [|rounds IH]; intros i; simpl.
  - exists i. repeat split; intros; lia.
  - destruct (pow10 i <=? x) eqn:E.
    + destruct (IH (S i)) as (k & Hk & Hf & Hbelow & Hstop).
      exists k. repeat split; try lia; try done.
      * intros j Hj. destruct (decide (j = i)) as [->|]; [done|].
        apply Hbelow. lia.
      * intros; apply Hstop; lia.
    + exists i. repeat split; try lia; try done.
Qed.

End FloatOrder.

(** ** Concatenation *)

(** C9: [cat] applied to [a, b] returns [a * tenfactor(b) + b]; [tenfactor b]
    is the first of the doubles 1, 10, ..., 10^20 (each holding its power of
    ten exactly, computed by repeated multiplication by ten from 1) that
    [b >= f] rejects, hence strictly greater than [b] while every smaller
    power is at most [b]; after twenty multiplications the loop stops
    anyway, so that [b >= 10^20] gives 10^20, and [b < 1], negative numbers
    included, gives 1. *)
Theorem cat_tenfactor_spec :
  (forall a b, Operation.fn op_cat [a; b] = Ok (a * tenfactor b + b)%float) /\
  (forall b, exists k, (k <= 20)%nat /\ tenfactor b = pow10 k /\
     float_is_Z (pow10 k) (10 ^ Z.of_nat k) /\
     (forall j, (j < k)%nat -> PrimFloat.leb (pow10 j) b = true) /\
     ((k < 20)%nat ->
        PrimFloat.leb (pow10 k) b = false /\
        (PrimFloat.is_nan b = false -> PrimFloat.ltb b (pow10 k) = true))) /\
  (forall b, PrimFloat.leb (pow10 20) b = true -> tenfactor b = pow10 20) /\
  (forall b, PrimFloat.ltb b 1 = true -> tenfactor b = 1%float) /\
  float_is_Z (pow10 20) (10 ^ 20) /\ float_is_Z 1%float 1.
Proof.
  split; [done|].
  assert (Hends : float_is_Z (pow10 20) (10 ^ 20) /\ float_is_Z 1%float 1).
  { split; vm_compute; reflexivity. }
  cut ((forall b, exists k, (k <= 20)%nat /\ tenfactor b = pow10 k /\
          float_is_Z (pow10 k) (10 ^ Z.of_nat k) /\
          (forall j, (j < k)%nat -> PrimFloat.leb (pow10 j) b = true) /\
          ((k < 20)%nat ->
             PrimFloat.leb (pow10 k) b = false /\
             (PrimFloat.is_nan b = false -> PrimFloat.ltb b (pow10 k) = true))) /\
       (forall b, PrimFloat.leb (pow10 20) b = true -> tenfactor b = pow10 20) /\
       (forall b, PrimFloat.ltb b 1 = true -> tenfactor b = 1%float)).
  { intros (H1 & H2 & H3). by repeat split. }
  assert (Hspec : forall b, exists k, (k <= 20)%nat /\ tenfactor b = pow10 k /\
            (forall j, (j < k)%nat -> PrimFloat.leb (pow10 j) b = true) /\
            ((k < 20)%nat -> PrimFloat.leb (pow10 k) b = false)).
  { intros b. destruct (tenfactor_loop_spec 20 b 0) as (k & Hk & Hf & Hlo & Hhi).
    exists k. repeat split; [lia|done| |].
    - intros j Hj. apply Hlo. lia.
    - intros Hlt. apply Hhi. lia. }
  split; [|split].
  - intros b. destruct (Hspec b) as (k & Hk & Hf & Hlo & Hhi).
    exists k. repeat split; try done.
    + by apply pow10_exact.
    + by apply Hhi.
    + intros Hnan. specialize (Hhi H).
      destruct (pow10_finite k Hk) as (m & e & E).
      rewrite FloatAxioms.ltb_spec, E.
      rewrite FloatAxioms.leb_spec, E in Hhi.
      apply SFleb_false_ltb; [by apply is_nan_false|done].
  - intros b Hb. destruct (Hspec b) as (k & Hk & Hf & Hlo & Hhi).
    destruct (decide (k = 20%nat)) as [->|Hne]; [done|].
    rewrite (pow10_leb_trans k 20 b) in Hhi; [|lia|done].
    discriminate Hhi. lia.
  - intros b Hb. destruct (Hspec b) as (k & Hk & Hf & Hlo & Hhi).
    destruct k as [|k]; [done|].
    specialize (Hlo 0%nat ltac:(lia)).
    rewrite FloatAxioms.leb_spec in Hlo. rewrite FloatAxioms.ltb_spec in Hb.
    change (Prim2SF (pow10 0)) with (S754_finite false 4503599627370496 (-52)) in Hlo.
    change (Prim2SF 1) with (S754_finite false 4503599627370496 (-52)) in Hb.
    apply SFltb_leb_false in Hb. congruence.
Qed.

Lemma cat_tenfactor_spec_witness :
  Operation.fn op_cat [12%float; 345%float] = Ok 12345%float /\
  tenfactor 1e22%float = pow10 20 /\
  tenfactor (-3)%float = 1%float /\
  tenfactor 0.5%float = 1%float.
Proof.
  destruct cat_tenfactor_spec as (Hcat & _ & Hbig & Hsmall & _).
  split; [rewrite Hcat; reflexivity|].
  split; [apply Hbig; reflexivity|].
  split; apply Hsmall; reflexivity.
Defined.

(** ** The assigners *)

Lemma bind_Ok {A B} (m : result A) (f : A -> result B) b :
  m ≫= f = Ok b -> exists a, m = Ok a /\ f a = Ok b.
Proof. destruct m; simpl; intros; try discriminate; eauto. Qed.

Lemma setvalues_Expr `{Next G Z} op args (g : G) :
  setvalues (Expr op args) g =
  '(args', g') ← setvalues_args args g; Ok (Expr op args', g').
Proof. reflexivity. Qed.

Lemma setops_Expr `{Next G Operation.t} op args (g : G) :
  setops (Expr op args) g =
  '(op', g1) ← (if (length args =? 2)%nat
                then '(o, g) ← next g; Ok (Some o, g)
                else Ok (op, g));
  '(args', g') ← setops_args args g1; Ok (Expr op' args', g').
Proof. reflexivity. Qed.

Lemma setvalues_args_cons `{Next G Z} a l (g : G) :
  setvalues_args (a :: l) g =
  '(a', g1) ← setvalues a g; '(l', g2) ← setvalues_args l g1; Ok (a' :: l', g2).
Proof. reflexivity. Qed.

Lemma setops_args_cons `{Next G Operation.t} a l (g : G) :
  setops_args (a :: l) g =
  '(a', g1) ← setops a g; '(l', g2) ← setops_args l g1; Ok (a' :: l', g2).
Proof. reflexivity. Qed.

(** Whatever the generator, [setvalues] touches nothing but leaf values. *)
Lemma setvalues_frame `{Next G Z} t :
  forall (g : G) t' g', setvalues t g = Ok (t', g') -> same_but_values t t'.
Proof.
  induction t as [value|op args IH] using Node_induction; intros g t' g' Hs.
  - simpl in Hs. apply bind_Ok in Hs as ([x g1] & _ & Hs).
    injection Hs as <- <-. constructor.
  - rewrite setvalues_Expr in Hs. apply bind_Ok in Hs as ([args' g1] & E & Hs).
    injection Hs as <- <-. constructor.
    revert g args' g1 E. induction IH as [|a args Ha _ IHargs]; intros g args' g1 E.
    + injection E as <- <-. constructor.
    + rewrite setvalues_args_cons in E.
      apply bind_Ok in E as ([a' g2] & Ea & E).
      apply bind_Ok in E as ([l' g3] & El & E).
      injection E as <- <-. constructor; eauto.
Qed.

(** Whatever the generator, [setops] touches nothing but the operation
    pointers of binary nodes. *)
Lemma setops_frame `{Next G Operation.t} t :
  forall (g : G) t' g', setops t g = Ok (t', g') -> same_but_binops t t'.
Proof.
  induction t as [value|op args IH] using Node_induction; intros g t' g' Hs.
  - injection Hs as <- <-. constructor.
  - rewrite setops_Expr in Hs. apply bind_Ok in Hs as ([op' g1] & Eop & Hs).
    apply bind_Ok in Hs as ([args' g2] & E & Hs).
    injection Hs as <- <-. constructor.
    + clear Eop. revert g1 args' g2 E.
      induction IH as [|a args Ha _ IHargs]; intros g1 args' g2 E.
      * injection E as <- <-. constructor.
      * rewrite setops_args_cons in E.
        apply bind_Ok in E as ([a' g3] & Ea & E).
        apply bind_Ok in E as ([l' g4] & El & E).
        injection E as <- <-. constructor; eauto.
    + intros Hlen. apply Nat.eqb_neq in Hlen. rewrite Hlen in Eop.
      by injection Eop as <- <-.
Qed.

(** The relations keep what they do not mention. *)
Lemma same_but_values_binary_ops t :
  forall t', same_but_values t t' -> binary_ops t' = binary_ops t.
Proof.
  induction t as [value|op args IH] using Node_induction; intros t' Hr;
    inversion Hr as [|? ? args' Hargs]; subst; [done|].
  simpl. rewrite <- (Forall2_length _ _ _ Hargs). f_equal.
  clear Hr. induction Hargs as [|a a' l l' Ha Hl IHl]; [done|].
  apply Forall_cons in IH as [IHa IHl']. rewrite !bind_cons.
  f_equal; eauto.
Qed.

Lemma same_but_values_leafcount t :
  forall t', same_but_values t t' -> leafcount t' = leafcount t.
Proof.
  unfold leafcount.
  induction t as [value|op args IH] using Node_induction; intros t' Hr;
    inversion Hr as [|? ? args' Hargs]; subst; [done|].
  simpl. clear Hr. induction Hargs as [|a a' l l' Ha Hl IHl]; [done|].
  apply Forall_cons in IH as [IHa IHl']. rewrite !bind_cons, !length_app.
  f_equal; eauto.
Qed.

Lemma same_but_binops_leaves t :
  forall t', same_but_binops t t' -> leaves t' = leaves t.
Proof.
  induction t as [value|op args IH] using Node_induction; intros t' Hr;
    inversion Hr as [|? ? ? args' Hargs Hop]; subst; [done|].
  simpl. clear Hr Hop. induction Hargs as [|a a' l l' Ha Hl IHl]; [done|].
  apply Forall_cons in IH as [IHa IHl']. rewrite !bind_cons.
  f_equal; eauto.
Qed.

Lemma same_but_binops_count t :
  forall t', same_but_binops t t' -> binary_count t' = binary_count t.
Proof.
  unfold binary_count.
  induction t as [value|op args IH] using Node_induction; intros t' Hr;
    inversion Hr as [|? ? ? args' Hargs Hop]; subst; [done|].
  simpl. rewrite <- (Forall2_length _ _ _ Hargs), !length_app. f_equal.
  { by destruct (length args =? 2)%nat. }
  clear Hr Hop. induction Hargs as [|a a' l l' Ha Hl IHl]; [done|].
  apply Forall_cons in IH as [IHa IHl']. rewrite !bind_cons, !length_app.
  f_equal; eauto.
Qed.

Lemma same_but_values_skeleton t :
  forall t', same_but_values t t' -> skeleton_of t' = skeleton_of t.
Proof.
  induction t as [value|op args IH] using Node_induction; intros t' Hr;
    inversion Hr as [|? ? args' Hargs]; subst; [done|].
  simpl. f_equal. clear Hr. induction Hargs as [|a a' l l' Ha Hl IHl]; [done|].
  apply Forall_cons in IH as [IHa IHl']. rewrite !fmap_cons.
  f_equal; eauto.
Qed.

Lemma same_but_binops_skeleton t :
  forall t', same_but_binops t t' -> skeleton_of t' = skeleton_of t.
Proof.
  induction t as [value|op args IH] using Node_induction; intros t' Hr;
    inversion Hr as [|? ? ? args' Hargs Hop]; subst; [done|].
  simpl. f_equal. clear Hr Hop. induction Hargs as [|a a' l l' Ha Hl IHl]; [done|].
  apply Forall_cons in IH as [IHa IHl']. rewrite !fmap_cons.
  f_equal; eauto.
Qed.

(** [setvalues] on the operands [vs]: with enough of them, leaf [i] receives
    operand [i] and the generator is left at the first unused operand; with
    too few, [next] throws. *)
Lemma setvalues_iter t :
  forall vs : list Z,
    ((leafcount t <= length vs)%nat /\
     exists t', setvalues t (iter vs) = Ok (t', iter (drop (leafcount t) vs)) /\
                leaves t' = double_of_int <$> take (leafcount t) vs) \/
    ((length vs < leafcount t)%nat /\
     setvalues t (iter vs) = Throw "end of iteration").
Proof.
  unfold leafcount.
  induction t as [value|op args IH] using Node_induction; intros vs.
  - destruct vs as [|v vs]; [right|left]; simpl.
    + split; [lia|done].
    + split; [lia|]. eexists. split; reflexivity.
  - rewrite setvalues_Expr. simpl leaves.
    assert (Hargs :
      ((length (args ≫= leaves) <= length vs)%nat /\
       exists args', setvalues_args args (iter vs)
                     = Ok (args', iter (drop (length (args ≫= leaves)) vs)) /\
                     args' ≫= leaves
                     = double_of_int <$> take (length (args ≫= leaves)) vs) \/
      ((length vs < length (args ≫= leaves))%nat /\
       setvalues_args args (iter vs) = Throw "end of iteration")).
    { clear op. revert vs. induction IH as [|a args Ha _ IHargs]; intros vs.
      - left. split; [simpl; lia|]. exists []. by rewrite drop_0.
      - rewrite setvalues_args_cons, bind_cons, length_app.
        destruct (Ha vs) as [(Hle & a' & -> & Hl)|(Hlt & ->)]; [|right; split; [lia|done]].
        simpl. destruct (IHargs (drop (length (leaves a)) vs))
          as [(Hle' & args' & -> & Hl')|(Hlt' & ->)]; simpl.
        + rewrite length_drop in Hle'. left. split; [lia|].
          exists (a' :: args'). rewrite drop_drop. split; [done|].
          rewrite bind_cons, Hl, Hl', <- fmap_app. f_equal.
          by rewrite take_take_drop.
        + rewrite length_drop in Hlt'. right. split; [lia|done]. }
    destruct Hargs as [(Hle & args' & -> & Hl)|(Hlt & ->)]; [left|right; done].
    split; [done|]. exists (Expr op args'). done.
Qed.

(** *** The operator index as a number in base [ops.size()] *)

Lemma radix_pos (ops : list Operation.t) : ops <> [] -> 0 < Z.of_nat (length ops).
Proof. destruct ops; [done|simpl; lia]. Qed.

Lemma div_pow_bounds i r (a : nat) :
  0 <= i <= INT_MAX -> 0 < r -> 0 <= i / r ^ Z.of_nat a <= INT_MAX.
Proof.
  intros Hi Hr. assert (0 < r ^ Z.of_nat a) by (apply Z.pow_pos_nonneg; lia).
  split; [apply Z.div_pos; lia|].
  transitivity i; [|lia]. apply Z.div_le_upper_bound; [lia|]. nia.
Qed.

Lemma div_pow_add i r (a b : nat) :
  0 <= i -> 0 < r ->
  i / r ^ Z.of_nat a / r ^ Z.of_nat b = i / r ^ Z.of_nat (a + b).
Proof.
  intros Hi Hr. rewrite Nat2Z.inj_add, Z.pow_add_r by lia.
  apply Z.div_div; try apply Z.pow_pos_nonneg; lia.
Qed.

Lemma div_pow_S i r (a : nat) :
  0 <= i -> 0 < r -> i / r / r ^ Z.of_nat a = i / r ^ Z.of_nat (S a).
Proof.
  intros Hi Hr. rewrite Nat2Z.inj_succ, Z.pow_succ_r by lia.
  apply Z.div_div; try apply Z.pow_pos_nonneg; lia.
Qed.

Lemma digits_app r (a b : nat) i :
  0 <= i -> 0 < r ->
  digits r (a + b) i = digits r a i ++ digits r b (i / r ^ Z.of_nat a).
Proof.
  intros Hi Hr. revert i Hi. induction a as [|a IH]; intros i Hi.
  - simpl. by rewrite Z.div_1_r.
  - simpl digits. rewrite IH by (apply Z.div_pos; lia).
    rewrite div_pow_S by lia. done.
Qed.

Lemma length_digits r m i : length (digits r m i) = m.
Proof. revert i. induction m; intros; simpl; auto. Qed.

(** One call of [next] on an index that is a non-negative [int]: the lowest
    digit selects the operation, the quotient stays behind. *)
Lemma OpsGenerator_next_digit ops i :
  ops <> [] -> 0 <= i <= INT_MAX ->
  exists o, ops !! Z.to_nat (i mod Z.of_nat (length ops)) = Some o /\
    next (mk_OpsGenerator ops i)
    = Ok (o, mk_OpsGenerator ops (i / Z.of_nat (length ops))).
Proof.
  intros Hops Hi. pose proof (radix_pos ops Hops) as Hr.
  unfold INT_MAX in Hi.
  assert (Hm : 0 <= i mod Z.of_nat (length ops) < Z.of_nat (length ops))
    by (apply Z.mod_pos_bound; lia).
  destruct (lookup_lt_is_Some_2 ops (Z.to_nat (i mod Z.of_nat (length ops))))
    as [o Ho]; [lia|].
  exists o. split; [done|].
  unfold next, OpsGenerator_next. simpl.
  destruct (Z.eqb_spec (Z.of_nat (length ops)) 0) as [E|_]; [lia|].
  unfold to_size_t. rewrite (Z.mod_small i (2 ^ 64)) by lia.
  rewrite Ho. do 3 f_equal. unfold to_int.
  pose proof (div_pow_bounds i (Z.of_nat (length ops)) 1) as Hb.
  unfold INT_MAX in Hb. rewrite Z.pow_1_r in Hb. specialize (Hb ltac:(lia) Hr).
  rewrite Z.mod_small; lia.
Qed.

(** [setops] with an [OpsGenerator]: binary node [k] in pre-order receives
    the operation selected by digit [k] of the index. *)
Lemma setops_digits ops t :
  ops <> [] ->
  forall i, 0 <= i <= INT_MAX ->
    exists t',
      setops t (mk_OpsGenerator ops i)
      = Ok (t', mk_OpsGenerator ops
                  (i / Z.of_nat (length ops) ^ Z.of_nat (binary_count t))) /\
      binary_ops t'
      = (fun d => ops !! Z.to_nat d)
          <$> digits (Z.of_nat (length ops)) (binary_count t) i.
Proof.
  intros Hops. pose proof (radix_pos ops Hops) as Hr.
  unfold binary_count.
  induction t as [value|op args IH] using Node_induction; intros i Hi.
  - exists (Value value). simpl. by rewrite Z.div_1_r.
  - rewrite setops_Expr. simpl binary_ops.
    assert (Hargs : forall i, 0 <= i <= INT_MAX ->
      exists args', length args' = length args /\
        setops_args args (mk_OpsGenerator ops i)
        = Ok (args', mk_OpsGenerator ops
               (i / Z.of_nat (length ops) ^ Z.of_nat (length (args ≫= binary_ops)))) /\
        args' ≫= binary_ops
        = (fun d => ops !! Z.to_nat d)
            <$> digits (Z.of_nat (length ops)) (length (args ≫= binary_ops)) i).
    { clear i Hi op. induction IH as [|a args Ha _ IHargs]; intros i Hi.
      - exists []. simpl. by rewrite Z.div_1_r.
      - rewrite setops_args_cons, bind_cons, length_app.
        destruct (Ha i Hi) as (a' & -> & Hb). simpl.
        destruct (IHargs (i / Z.of_nat (length ops) ^ Z.of_nat (length (binary_ops a))))
          as (args' & Hlen & -> & Hbs); [by apply div_pow_bounds|]. simpl.
        exists (a' :: args'). split; [simpl; lia|].
        rewrite div_pow_add by lia. split; [done|].
        rewrite bind_cons, Hb, Hbs, digits_app, fmap_app by lia. done. }
    destruct (length args =? 2)%nat eqn:E2.
    + destruct (OpsGenerator_next_digit ops i Hops Hi) as (o & Ho & ->). simpl.
      destruct (Hargs (i / Z.of_nat (length ops))) as (args' & Hlen & -> & Hbs).
      { pose proof (div_pow_bounds i _ 1 Hi Hr) as Hb.
        by rewrite Z.pow_1_r in Hb. }
      simpl. exists (Expr (Some o) args'). simpl binary_ops.
      rewrite Hlen, E2. split.
      * do 3 f_equal. rewrite div_pow_S by lia. done.
      * simpl. rewrite Hbs. by rewrite Ho.
    + simpl. destruct (Hargs i Hi) as (args' & Hlen & -> & Hbs). simpl.
      exists (Expr op args'). simpl binary_ops. rewrite Hlen, E2. done.
Qed.

(** *** Mixed-radix decoding is a bijection *)

Lemma digits_range r m i :
  0 < r -> Forall (fun d => 0 <= d < r) (digits r m i).
Proof.
  intros Hr. revert i. induction m as [|m IH]; intros i; simpl; constructor.
  - apply Z.mod_pos_bound; lia.
  - apply IH.
Qed.

Lemma digits_inj r m :
  0 < r ->
  forall i j, 0 <= i < r ^ Z.of_nat m -> 0 <= j < r ^ Z.of_nat m ->
    digits r m i = digits r m j -> i = j.
Proof.
  intros Hr. induction m as [|m IH]; intros i j Hi Hj E.
  - simpl in Hi, Hj. lia.
  - rewrite Nat2Z.inj_succ, Z.pow_succ_r in Hi, Hj by lia.
    simpl in E. injection E as E0 E1.
    assert (i / r = j / r).
    { apply IH; [| |done]; split;
        try (apply Z.div_pos; lia); apply Z.div_lt_upper_bound; lia. }
    rewrite (Z.div_mod i r), (Z.div_mod j r) by lia. congruence.
Qed.

Lemma digits_surj r m :
  0 < r ->
  forall ds, length ds = m -> Forall (fun d => 0 <= d < r) ds ->
    exists i, 0 <= i < r ^ Z.of_nat m /\ digits r m i = ds.
Proof.
  intros Hr. induction m as [|m IH]; intros ds Hlen Hds.
  - destruct ds; [|done]. exists 0. simpl. split; [lia|done].
  - destruct ds as [|d ds]; [done|]. apply Forall_cons in Hds as [Hd Hds].
    destruct (IH ds) as (i & Hi & Ei); [by injection Hlen|done|].
    exists (d + r * i). rewrite Nat2Z.inj_succ, Z.pow_succ_r by lia.
    split; [nia|]. simpl.
    assert ((d + r * i) mod r = d) as ->.
    { rewrite (Z.mul_comm r i), Z.mod_add by lia. apply Z.mod_small; lia. }
    assert ((d + r * i) / r = i) as ->.
    { rewrite (Z.mul_comm r i), Z.div_add by lia.
      rewrite Z.div_small; lia. }
    by rewrite Ei.
Qed.

(** Distinct positions of a list without repetition hold distinct
    operations, so the selected operations determine the digits. *)
Lemma select_inj (ops : list Operation.t) ds1 ds2 :
  NoDup ops ->
  Forall (fun d => 0 <= d < Z.of_nat (length ops)) ds1 ->
  Forall (fun d => 0 <= d < Z.of_nat (length ops)) ds2 ->
  (fun d => ops !! Z.to_nat d) <$> ds1 = (fun d => ops !! Z.to_nat d) <$> ds2 ->
  ds1 = ds2.
Proof.
  intros Hnd H1. revert ds2. induction H1 as [|d1 ds1 Hd1 _ IH]; intros ds2 H2 E.
  - by destruct ds2.
  - destruct H2 as [|d2 ds2 Hd2 H2]; [done|]. injection E as E0 E.
    f_equal; [|by apply IH].
    destruct (lookup_lt_is_Some_2 ops (Z.to_nat d1)) as [o Ho]; [lia|].
    assert (Z.to_nat d1 = Z.to_nat d2).
    { eapply NoDup_lookup; [done|done|]. by rewrite <- E0. }
    lia.
Qed.

Lemma select_surj (ops : list Operation.t) (a : list Operation.t) :
  Forall (fun o => o ∈ ops) a ->
  exists ds, length ds = length a /\
    Forall (fun d => 0 <= d < Z.of_nat (length ops)) ds /\
    (fun d => ops !! Z.to_nat d) <$> ds = Some <$> a.
Proof.
  induction 1 as [|o a Ho _ (ds & Hlen & Hds & E)].
  - by exists [].
  - apply list_elem_of_lookup in Ho as [k Hk].
    exists (Z.of_nat k :: ds). split; [simpl; lia|]. split.
    + constructor; [|done]. apply lookup_lt_Some in Hk. lia.
    + rewrite !fmap_cons, Nat2Z.id, Hk, E. done.
Qed.

Lemma assign_ops_digits ops t i :
  ops <> [] -> 0 <= i <= INT_MAX ->
  exists t', assign_ops ops t i = Some t' /\
    binary_ops t'
    = (fun d => ops !! Z.to_nat d)
        <$> digits (Z.of_nat (length ops)) (binary_count t) i.
Proof.
  intros Hops Hi. destruct (setops_digits ops t Hops i Hi) as (t' & E & Hb).
  exists t'. unfold assign_ops. by rewrite E.
Qed.

(** ** Operand and operator assignment: the claims *)

(** C2, as the claim states it, fails: the index is an [int], and for a
    shape and a list with [r ^ m] above [2 ^ 31] not every index of
    [0, r^m) is one.  With the six binary operations of the registry and a
    shape with twelve binary nodes (thirteen operands), the index [2 ^ 31]
    lies in [0, 6 ^ 12) and is no [int]; converted to the [int] the
    constructor of [OpsGenerator] takes, it selects the operations of the
    digits of 876572672, not of its own, and so repeats the assignment of
    that index.  There are fewer non-negative [int]s than the [6 ^ 12]
    assignments the claim promises. *)
Lemma operator_index_beyond_int_counterexample :
  let ops := binops (oplist pow_stub) in
  let t := right_comb 12 in
  Z.of_nat (length ops) = 6 /\ binary_count t = 12%nat /\
  0 <= 2 ^ 31 < 6 ^ 12 /\ INT_MAX < 2 ^ 31 /\ INT_MAX + 1 < 6 ^ 12 /\
  0 <= 876572672 < 6 ^ 12 /\ 876572672 <= INT_MAX /\
  to_int (2 ^ 31) = - 2 ^ 31 /\
  digits 6 12 (2 ^ 31) = [2; 3; 5; 5; 0; 0; 2; 3; 0; 3; 5; 5] /\
  digits 6 12 876572672 = [2; 5; 4; 4; 5; 5; 1; 5; 5; 2; 2; 2] /\
  assign_ops ops t (to_int (2 ^ 31)) = assign_ops ops t 876572672 /\
  exists t',
    assign_ops ops t (to_int (2 ^ 31)) = Some t' /\
    binary_ops t'
    = (fun d => ops !! Z.to_nat d) <$> [2; 5; 4; 4; 5; 5; 1; 5; 5; 2; 2; 2].
Proof.
  repeat (split; [by vm_compute|]). eexists. split; by vm_compute.
Qed.

(** C2, amended: for a tree with [m] binary internal nodes and a list of
    [r >= 1] operations with [r ^ m <= 2 ^ 31], so that every index of
    [0, r^m) is an [int], the operator assignment ([OpsGenerator] followed
    by [setops]) gives binary node [k] of the pre-order the operation
    [ops[(index / r^k) mod r]].  Decoding is a bijection between [0, r^m)
    and the sequences of [m] digits below [r]: different indices select
    different positions of [ops] for some node, and every selection is
    reached.  When the list holds [r] different operations (as the
    pointers to registry entries do), the [r^m] trees are pairwise
    different and every assignment of listed operations to the binary
    nodes is among them. *)
Theorem operator_assignment_bijective ops t :
  ops <> [] ->
  Z.of_nat (length ops) ^ Z.of_nat (binary_count t) <= INT_MAX + 1 ->
  let r := Z.of_nat (length ops) in
  let m := binary_count t in
  (forall i, 0 <= i < r ^ Z.of_nat m ->
     exists t', assign_ops ops t i = Some t' /\
       binary_ops t' = (fun d => ops !! Z.to_nat d) <$> digits r m i /\
       Forall (fun d => 0 <= d < r) (digits r m i)) /\
  (forall i j, 0 <= i < r ^ Z.of_nat m -> 0 <= j < r ^ Z.of_nat m ->
     digits r m i = digits r m j -> i = j) /\
  (forall ds, length ds = m -> Forall (fun d => 0 <= d < r) ds ->
     exists i, 0 <= i < r ^ Z.of_nat m /\ digits r m i = ds) /\
  (NoDup ops ->
     (forall i j, 0 <= i < r ^ Z.of_nat m -> 0 <= j < r ^ Z.of_nat m ->
        assign_ops ops t i = assign_ops ops t j -> i = j) /\
     (forall a, length a = m -> Forall (fun o => o ∈ ops) a ->
        exists i t', 0 <= i < r ^ Z.of_nat m /\
          assign_ops ops t i = Some t' /\ binary_ops t' = Some <$> a) /\
     NoDup (assign_ops ops t <$> seqZ 0 (r ^ Z.of_nat m)) /\
     Z.of_nat (length (assign_ops ops t <$> seqZ 0 (r ^ Z.of_nat m)))
     = r ^ Z.of_nat m).
Proof.
  intros Hops Hmax r m. pose proof (radix_pos ops Hops) as Hr. fold r in Hr.
  assert (Hdec : forall i, 0 <= i < r ^ Z.of_nat m ->
     exists t', assign_ops ops t i = Some t' /\
       binary_ops t' = (fun d => ops !! Z.to_nat d) <$> digits r m i).
  { intros i Hi. apply assign_ops_digits; [done|]. fold r m in Hmax. lia. }
  split; [|split; [|split]].
  - intros i Hi. destruct (Hdec i Hi) as (t' & E & Hb).
    exists t'. split; [done|]. split; [done|]. by apply digits_range.
  - by apply digits_inj.
  - by apply digits_surj.
  - intros Hnd.
    assert (Hinj : forall i j,
       0 <= i < r ^ Z.of_nat m -> 0 <= j < r ^ Z.of_nat m ->
       assign_ops ops t i = assign_ops ops t j -> i = j).
    { intros i j Hi Hj E.
      destruct (Hdec i Hi) as (ti & Ei & Hbi), (Hdec j Hj) as (tj & Ej & Hbj).
      assert (ti = tj) as -> by congruence.
      apply (digits_inj r m Hr i j Hi Hj).
      apply (select_inj ops); try done; try by apply digits_range.
      congruence. }
    split; [done|]. split; [|split].
    + intros a Hlen Ha.
      destruct (select_surj ops a Ha) as (ds & Hl & Hds & E).
      destruct (digits_surj r m Hr ds) as (i & Hi & Ei); [congruence|done|].
      destruct (Hdec i Hi) as (t' & Et & Hb).
      exists i, t'. repeat split; try done; try lia. by rewrite Hb, Ei.
    + apply NoDup_fmap_2_strong; [|apply NoDup_seqZ].
      intros i j Hi Hj. apply elem_of_seqZ in Hi, Hj. apply Hinj; lia.
    + rewrite length_fmap, length_seqZ.
      assert (0 < r ^ Z.of_nat m) by (apply Z.pow_pos_nonneg; lia). lia.
Qed.

Lemma registry_binary_NoDup : NoDup [op_add; op_sub; op_mul; op_div].
Proof.
  repeat constructor; rewrite ?elem_of_cons, ?elem_of_nil;
    intros H; repeat destruct H as [H|H]; try discriminate H; done.
Qed.

Lemma operator_assignment_bijective_witness :
  let ops := [op_add; op_sub; op_mul; op_div] in
  let t := Expr_make Value_make (Expr_make Value_make Value_make) in
  (forall i j, 0 <= i < 4 ^ 2 -> 0 <= j < 4 ^ 2 ->
     digits 4 2 i = digits 4 2 j -> i = j) /\
  (forall i j, 0 <= i < 4 ^ 2 -> 0 <= j < 4 ^ 2 ->
     assign_ops ops t i = assign_ops ops t j -> i = j) /\
  Z.of_nat (length (assign_ops ops t <$> seqZ 0 (4 ^ 2))) = 4 ^ 2.
Proof.
  intros ops t.
  destruct (operator_assignment_bijective ops t) as (_ & Hd & _ & H).
  - discriminate.
  - vm_compute. discriminate.
  - destruct (H registry_binary_NoDup) as (Hi & _ & _ & Hl).
    split; [exact Hd|]. split; [exact Hi|exact Hl].
Defined.

(** C6, as the claim states it, fails: with more operands than leaves
    [setvalues] raises nothing and leaves the surplus in the generator; with
    fewer, the error is the generator's "end of iteration". *)
Lemma setvalues_count_mismatch_counterexample :
  leafcount Value_make = 1%nat /\
  setvalues Value_make (iter [1; 2]) = Ok (Value 1%float, iter [2]) /\
  leafcount (Expr_make Value_make Value_make) = 2%nat /\
  setvalues (Expr_make Value_make Value_make) (iter [1])
  = Throw "end of iteration".
Proof. repeat split. Qed.

(** C6, amended: [setvalues] over the operands [vs] fails exactly when there
    are fewer operands than leaves, with the [std::runtime_error] "end of
    iteration" of [generator::next]; with as many operands as leaves, or
    more, it raises no error, having consumed one operand per leaf. *)
Theorem setvalues_operand_count t (vs : list Z) :
  ((length vs < leafcount t)%nat ->
     setvalues t (iter vs) = Throw "end of iteration") /\
  ((leafcount t <= length vs)%nat ->
     exists t', setvalues t (iter vs) = Ok (t', iter (drop (leafcount t) vs))).
Proof.
  destruct (setvalues_iter t vs) as [(Hle & t' & E & _)|(Hlt & E)].
  - split; [lia|]. intros _. by exists t'.
  - split; [done|lia].
Qed.

Lemma setvalues_operand_count_witness :
  setvalues (Expr_make Value_make Value_make) (iter [7])
  = Throw "end of iteration" /\
  exists t', setvalues (Expr_make Value_make Value_make) (iter [7; 8; 9])
             = Ok (t', iter [9]).
Proof.
  split.
  - apply (setvalues_operand_count (Expr_make Value_make Value_make) [7]).
    vm_compute. lia.
  - apply (setvalues_operand_count (Expr_make Value_make Value_make) [7; 8; 9]).
    vm_compute. lia.
Defined.

(** C8: with as many operands as leaves, [setvalues] writes operand [i] on
    leaf [i] of the pre-order, left-to-right traversal and leaves the
    generator exhausted; [setops] then gives binary node [k] of the same
    pre-order the operation of digit [k], and moves no operand.  Neither
    changes the structure, so the positions are those of [t] on every later
    call. *)
Theorem assigners_preorder t (vs : list Z) ops i :
  length vs = leafcount t -> ops <> [] -> 0 <= i <= INT_MAX ->
  exists t1 t2 i',
    setvalues t (iter vs) = Ok (t1, iter []) /\
    leaves t1 = double_of_int <$> vs /\
    binary_ops t1 = binary_ops t /\
    setops t1 (mk_OpsGenerator ops i) = Ok (t2, mk_OpsGenerator ops i') /\
    binary_ops t2
    = (fun d => ops !! Z.to_nat d)
        <$> digits (Z.of_nat (length ops)) (binary_count t) i /\
    leaves t2 = double_of_int <$> vs /\
    skeleton_of t2 = skeleton_of t.
Proof.
  intros Hlen Hops Hi.
  destruct (setvalues_iter t vs) as [(_ & t1 & E1 & Hl1)|(Hlt & _)]; [|lia].
  rewrite <- Hlen, drop_ge, take_ge in * by lia.
  pose proof (setvalues_frame t _ _ _ E1) as Hf1.
  destruct (setops_digits ops t1 Hops i Hi) as (t2 & E2 & Hb2).
  pose proof (setops_frame t1 _ _ _ E2) as Hf2.
  exists t1, t2, (i / Z.of_nat (length ops) ^ Z.of_nat (binary_count t1)).
  assert (Hb1 : binary_ops t1 = binary_ops t)
    by by apply same_but_values_binary_ops.
  repeat split; try done.
  - rewrite Hb2. unfold binary_count. by rewrite Hb1.
  - by rewrite (same_but_binops_leaves t1 t2 Hf2).
  - rewrite (same_but_binops_skeleton t1 t2 Hf2).
    by apply same_but_values_skeleton.
Qed.

Lemma assigners_preorder_witness :
  exists t1 t2 i',
    setvalues (Expr_make Value_make (Expr_make Value_make Value_make))
              (iter [1; 2; 3]) = Ok (t1, iter []) /\
    leaves t1 = double_of_int <$> [1; 2; 3] /\
    binary_ops t1 = [None; None] /\
    setops t1 (mk_OpsGenerator [op_add; op_sub; op_mul; op_div] 9)
    = Ok (t2, mk_OpsGenerator [op_add; op_sub; op_mul; op_div] i') /\
    binary_ops t2 = [Some op_sub; Some op_mul] /\
    leaves t2 = double_of_int <$> [1; 2; 3] /\
    skeleton_of t2 = Expr_make Value_make (Expr_make Value_make Value_make).
Proof.
  apply (assigners_preorder
           (Expr_make Value_make (Expr_make Value_make Value_make))
           [1; 2; 3] [op_add; op_sub; op_mul; op_div] 9).
  - reflexivity.
  - discriminate.
  - unfold INT_MAX. lia.
Defined.

(** C10: [setvalues] and [setops] keep the structure of the tree: the result
    has the same nodes with the same children in the same order;
    [setvalues] changes leaf values only, [setops] changes only the
    operation pointer of nodes with exactly two children and leaves the
    pointer of every other internal node as it was.  This holds whatever
    the generator, and a generator with an operand per leaf (for
    [setops], an [OpsGenerator] over a non-empty list) does return. *)
Theorem assigners_keep_structure t (vs : list Z) ops i :
  (leafcount t <= length vs)%nat -> ops <> [] -> 0 <= i <= INT_MAX ->
  (exists t' g', setvalues t (iter vs) = Ok (t', g') /\
     same_but_values t t' /\ skeleton_of t' = skeleton_of t) /\
  (exists t' g', setops t (mk_OpsGenerator ops i) = Ok (t', g') /\
     same_but_binops t t' /\ skeleton_of t' = skeleton_of t) /\
  (forall G (H : Next G Z) (g : G) t' g',
     setvalues t g = Ok (t', g') -> same_but_values t t') /\
  (forall G (H : Next G Operation.t) (g : G) t' g',
     setops t g = Ok (t', g') -> same_but_binops t t').
Proof.
  intros Hlen Hops Hi. repeat split.
  - destruct (setvalues_iter t vs) as [(_ & t1 & E1 & _)|(Hlt & _)]; [|lia].
    pose proof (setvalues_frame t _ _ _ E1) as Hf.
    exists t1, (iter (drop (leafcount t) vs)). repeat split; try done.
    by apply same_but_values_skeleton.
  - destruct (setops_digits ops t Hops i Hi) as (t2 & E2 & _).
    pose proof (setops_frame t _ _ _ E2) as Hf.
    eexists t2, _. repeat split; try done.
    by apply same_but_binops_skeleton.
  - intros G H g t' g'. apply setvalues_frame.
  - intros G H g t' g'. apply setops_frame.
Qed.

Lemma assigners_keep_structure_witness :
  let t := Expr (Some op_add) [Value 7%float; Expr (Some op_neg) [Value 8%float]] in
  (exists t' g', setvalues t (iter [1; 2; 3]) = Ok (t', g') /\
     same_but_values t t' /\ skeleton_of t' = skeleton_of t) /\
  (exists t' g', setops t (mk_OpsGenerator [op_mul] 0) = Ok (t', g') /\
     same_but_binops t t' /\ skeleton_of t' = skeleton_of t).
Proof.
  intros t.
  destruct (assigners_keep_structure t [1; 2; 3] [op_mul] 0) as (H1 & H2 & _).
  - vm_compute. lia.
  - discriminate.
  - unfold INT_MAX. lia.
  - split; [exact H1|exact H2].
Defined.

(** ** Rendering *)

Lemma string_app_assoc (s1 s2 s3 : string) :
  (s1 +:+ s2) +:+ s3 = s1 +:+ s2 +:+ s3.
Proof.
  induction s1 as [|c s1 IH]; [done|].
  change (String c ((s1 +:+ s2) +:+ s3) = String c (s1 +:+ s2 +:+ s3)).
  by rewrite IH.
Qed.

Lemma string_app_nil_r (s : string) : s +:+ "" = s.
Proof.
  induction s as [|c s IH]; [done|].
  change (String c (s +:+ "") = String c s). by rewrite IH.
Qed.

Lemma put_app os s : os << s = os +:+ s.
Proof. reflexivity. Qed.

Lemma output_Expr_None show args os :
  output show (Expr None args) os =
  match args with
  | [a0; a1] => output show a1 (output show a0 (os << "(") << "#") << ")"
  | [a0] => output show a0 (os << "(" << "-") << ")"
  | _ => output_call show args true (os << "op(") << ")"
  end.
Proof. reflexivity. Qed.

Lemma output_Expr_Some show o args os :
  output show (Expr (Some o) args) os =
  match args, String.eqb (Operation.infix o) "" with
  | [a0; a1], false =>
      let needbrackets0 :=
        precedence (Some o) >? precedence (operation a0) in
      let os := if needbrackets0 then os << "(" else os in
      let os := output show a0 os in
      let os := if needbrackets0 then os << ")" else os in
      let os := os << Operation.infix o in
      let needbrackets1 :=
        precedence (Some o) >? precedence (operation a1) in
      let os := if needbrackets1 then os << "(" else os in
      let os := output show a1 os in
      if needbrackets1 then os << ")" else os
  | [a0], false =>
      let needbrackets0 :=
        precedence (Some o) >? precedence (operation a0) in
      let os := os << Operation.infix o in
      let os := if needbrackets0 then os << "(" else os in
      let os := output show a0 os in
      if needbrackets0 then os << ")" else os
  | _, _ => output_call show args true (os << Operation.name o << "(") << ")"
  end.
Proof. reflexivity. Qed.

Lemma needbrackets_binds_looser o child :
  (precedence (Some o) >? precedence (operation child)) = binds_looser child o.
Proof.
  unfold binds_looser. rewrite Z.gtb_ltb. by destruct child as [?|[?|] ?].
Qed.

Ltac string_normalize :=
  rewrite ?put_app, ?string_app_assoc, ?string_app_nil_r.

Lemma output_call_render show args :
  Forall (fun a => forall os, output show a os = os +:+ render show a) args ->
  forall first os,
    output_call show args first os
    = os +:+ commas first (render show <$> args).
Proof.
  induction 1 as [|a args Ha _ IH]; intros first os; simpl.
  - by rewrite string_app_nil_r.
  - rewrite IH, Ha. destruct first; string_normalize; done.
Qed.

(** The stream after [output] is the stream before it followed by the
    rendering of the specification. *)
Lemma output_render show t :
  forall os, output show t os = os +:+ render show t.
Proof.
  induction t as [value|op args IH] using Node_induction; intros os; [done|].
  pose proof (output_call_render show args IH) as Hcall.
  destruct op as [o|].
  - rewrite output_Expr_Some. simpl render.
    destruct args as [|a0 [|a1 [|a2 args]]];
      destruct (String.eqb (Operation.infix o) ""); rewrite ?Hcall;
      try (string_normalize; done).
    + apply Forall_cons in IH as [H0 _]. cbv zeta.
      rewrite needbrackets_binds_looser.
      destruct (binds_looser a0 o); simpl parenthesized; rewrite H0;
        string_normalize; done.
    + apply Forall_cons in IH as [H0 IH]. apply Forall_cons in IH as [H1 _].
      cbv zeta. rewrite !needbrackets_binds_looser.
      destruct (binds_looser a0 o), (binds_looser a1 o); simpl parenthesized;
        rewrite H1, H0; string_normalize; done.
  - rewrite output_Expr_None. simpl render.
    destruct args as [|a0 [|a1 [|a2 args]]]; rewrite ?Hcall;
      try (string_normalize; done).
    + apply Forall_cons in IH as [H0 _]. rewrite H0. string_normalize. done.
    + apply Forall_cons in IH as [H0 IH]. apply Forall_cons in IH as [H1 _].
      rewrite H1, H0. string_normalize. done.
Qed.

Lemma registry_infix pow o : o ∈ oplist pow -> Operation.infix o <> "".
Proof.
  unfold oplist. rewrite !elem_of_cons, elem_of_nil.
  intros H; repeat destruct H as [H|H]; subst; done.
Qed.

Lemma registry_precedence pow o :
  o ∈ oplist pow -> 1 <= Operation.precedence o <= 5.
Proof.
  unfold oplist. rewrite !elem_of_cons, elem_of_nil.
  intros H; repeat destruct H as [H|H]; subst; simpl; try lia; done.
Qed.

(** ** Evaluation *)

Lemma eval_Expr op args :
  eval (Expr op args) =
  results ← eval_args args;
  match op with
  | None => UB
  | Some o => Operation.fn o results
  end.
Proof. reflexivity. Qed.

Lemma eval_args_cons a l :
  eval_args (a :: l) = x ← eval a; xs ← eval_args l; Ok (x :: xs).
Proof. reflexivity. Qed.

Lemma eval_args_length args :
  forall vs, eval_args args = Ok vs -> length vs = length args.
Proof.
  induction args as [|a args IH]; intros vs E.
  - by injection E as <-.
  - rewrite eval_args_cons in E. apply bind_Ok in E as (x & _ & E).
    apply bind_Ok in E as (xs & Exs & E). injection E as <-.
    simpl. f_equal. by apply IH.
Qed.

(** The lambdas of the registry return a number when they find their
    arguments, and read outside the vector otherwise. *)
Lemma registry_fn pow o results :
  o ∈ oplist pow ->
  (Operation.fn o results = UB \/ exists v, Operation.fn o results = Ok v) /\
  (Operation.n o = Z.of_nat (length results) ->
   exists v, Operation.fn o results = Ok v).
Proof.
  unfold oplist. rewrite !elem_of_cons, elem_of_nil.
  intros H; repeat destruct H as [H|H]; subst; try done;
    destruct results as [|a [|b [|c results]]]; simpl;
    (split; [eauto|intros; try lia; eauto]).
Qed.

Lemma from_registry_Expr registry op args :
  from_registry registry (Expr op args) ->
  (forall o, op = Some o -> o ∈ registry) /\
  Forall (from_registry registry) args.
Proof.
  unfold from_registry. simpl. intros H.
  apply Forall_cons in H as [Hop H]. split; [done|].
  by apply Forall_bind in H.
Qed.

Lemma eval_registry_outcome pow t :
  from_registry (oplist pow) t -> eval t = UB \/ exists v, eval t = Ok v.
Proof.
  induction t as [value|op args IH] using Node_induction; intros Hreg.
  - right. by exists value.
  - apply from_registry_Expr in Hreg as [Hop Hargs]. rewrite eval_Expr.
    assert (Hl : eval_args args = UB \/ exists vs, eval_args args = Ok vs).
    { clear Hop. induction IH as [|a args Ha _ IHargs]; [right; by exists []|].
      apply Forall_cons in Hargs as [Hra Hargs]. rewrite eval_args_cons.
      destruct (Ha Hra) as [->|[x ->]]; [by left|]. simpl.
      destruct (IHargs Hargs) as [->|[xs ->]]; [by left|]. right. by eexists. }
    destruct Hl as [->|[vs ->]]; [by left|]. simpl.
    destruct op as [o|]; [|by left].
    by apply (registry_fn pow o vs), Hop.
Qed.

(** A value comes out only if no operation pointer on the way was null. *)
Lemma eval_Ok_all_assigned t :
  forall v, eval t = Ok v -> None ∉ all_ops t.
Proof.
  induction t as [value|op args IH] using Node_induction; intros v E.
  - simpl. apply not_elem_of_nil.
  - rewrite eval_Expr in E. apply bind_Ok in E as (vs & Eargs & E).
    destruct op as [o|]; [|done]. simpl. rewrite not_elem_of_cons. split; [done|].
    clear E. revert vs Eargs. induction IH as [|a args Ha _ IHargs]; intros vs E.
    + apply not_elem_of_nil.
    + rewrite eval_args_cons in E. apply bind_Ok in E as (x & Ex & E).
      apply bind_Ok in E as (xs & Exs & E).
      rewrite bind_cons, not_elem_of_app. split; eauto.
Qed.

Lemma eval_assigned pow t :
  from_registry (oplist pow) t -> assigned t -> exists v, eval t = Ok v.
Proof.
  induction t as [value|op args IH] using Node_induction; intros Hreg Has.
  - by exists value.
  - apply from_registry_Expr in Hreg as [Hop Hargs]. rewrite eval_Expr.
    inversion Has as [|o args' Hall Hn]; subst.
    assert (Hl : exists vs, eval_args args = Ok vs).
    { clear Hop Hn Has. induction IH as [|a args Ha _ IHargs]; [by exists []|].
      apply Forall_cons in Hargs as [Hra Hargs].
      apply Forall_cons in Hall as [Haa Hall]. rewrite eval_args_cons.
      destruct (Ha Hra Haa) as [x ->]. simpl.
      destruct (IHargs Hargs Hall) as [xs ->]. by eexists. }
    destruct Hl as [vs Evs]. rewrite Evs. simpl.
    apply (registry_fn pow o vs); [by apply Hop|].
    by rewrite (eval_args_length args vs Evs).
Qed.

(** ** Rendering and evaluation: the claims *)

(** C3: for a node whose operation is an entry of the registry, [output]
    puts parentheses around the rendering of a child exactly when the
    precedence of the child is strictly lower than the precedence of the
    node's operation.  The precedence of a child is the precedence of its
    own operation; a leaf counts as precedence 9, above every entry, and is
    never parenthesized, and neither is a child whose operation has the
    precedence of its parent's.  The text written is the rendering of the
    specification. *)
Theorem output_parenthesization show pow o l r os :
  o ∈ oplist pow ->
  output show (Expr (Some o) [l; r]) os
  = os +:+ parenthesized (binds_looser l o) (output show l "")
       +:+ Operation.infix o
       +:+ parenthesized (binds_looser r o) (output show r "") /\
  output show (Expr (Some o) [l]) os
  = os +:+ Operation.infix o
       +:+ parenthesized (binds_looser l o) (output show l "") /\
  (forall c, binds_looser c o = true <->
             child_precedence c < Operation.precedence o) /\
  (forall value, child_precedence (Value value) = 9 /\
                 binds_looser (Value value) o = false) /\
  (forall oc args,
     child_precedence (Expr (Some oc) args) = Operation.precedence oc /\
     (binds_looser (Expr (Some oc) args) o = true <->
      Operation.precedence oc < Operation.precedence o) /\
     (Operation.precedence oc = Operation.precedence o ->
      binds_looser (Expr (Some oc) args) o = false)) /\
  (forall c, precedence (operation c) = child_precedence c) /\
  (forall t os', output show t os' = os' +:+ render show t).
Proof.
  intros Ho. pose proof (registry_infix pow o Ho) as Hinfix.
  pose proof (registry_precedence pow o Ho) as Hprec.
  apply String.eqb_neq in Hinfix.
  split; [|split; [|split; [|split; [|split; [|split]]]]].
  - rewrite !output_render. simpl render. by rewrite Hinfix.
  - rewrite !output_render. simpl render. by rewrite Hinfix.
  - intros c. unfold binds_looser. apply Z.ltb_lt.
  - intros value. split; [done|].
    unfold binds_looser. simpl. apply Z.ltb_ge. lia.
  - intros oc args. split; [done|]. unfold binds_looser. simpl. split.
    + apply Z.ltb_lt.
    + intros E. apply Z.ltb_ge. lia.
  - by intros [?|[?|] ?].
  - intros t os'. apply output_render.
Qed.

Lemma output_parenthesization_witness :
  output show_integral
    (Expr (Some op_mul)
       [Expr (Some op_add) [Value 1%float; Value 2%float]; Value 3%float]) ""
  = "(1+2)*3" /\
  output show_integral
    (Expr (Some op_add)
       [Value 1%float; Expr (Some op_add) [Value 2%float; Value 3%float]]) ""
  = "1+2+3" /\
  output show_integral
    (Expr (Some op_mul)
       [Expr (Some op_mul) [Value 1%float; Value 2%float]; Value 3%float]) ""
  = "1*2*3" /\
  output show_integral
    (Expr (Some op_div)
       [Expr (Some op_mul) [Value 1%float; Value 2%float];
        Expr (Some op_cat) [Value 3%float; Value 4%float]]) ""
  = "(1*2)/3||4".
Proof.
  assert (Hin : forall o, o ∈ [op_add; op_mul; op_div] -> o ∈ oplist pow_stub).
  { intros o. unfold oplist. rewrite !elem_of_cons, elem_of_nil. tauto. }
  split; [|split; [|split]].
  - destruct (output_parenthesization show_integral pow_stub op_mul
                (Expr (Some op_add) [Value 1%float; Value 2%float])
                (Value 3%float) "") as (H & _).
    + apply Hin. rewrite !elem_of_cons. tauto.
    + rewrite H. reflexivity.
  - destruct (output_parenthesization show_integral pow_stub op_add
                (Value 1%float)
                (Expr (Some op_add) [Value 2%float; Value 3%float]) "")
      as (H & _).
    + apply Hin. rewrite !elem_of_cons. tauto.
    + rewrite H. reflexivity.
  - destruct (output_parenthesization show_integral pow_stub op_mul
                (Expr (Some op_mul) [Value 1%float; Value 2%float])
                (Value 3%float) "") as (H & _).
    + apply Hin. rewrite !elem_of_cons. tauto.
    + rewrite H. reflexivity.
  - destruct (output_parenthesization show_integral pow_stub op_div
                (Expr (Some op_mul) [Value 1%float; Value 2%float])
                (Expr (Some op_cat) [Value 3%float; Value 4%float]) "")
      as (H & _).
    + apply Hin. rewrite !elem_of_cons. tauto.
    + rewrite H. reflexivity.
Defined.

(** C4, as the claim states it, fails: the right subtree has the precedence
    of the root, so no parentheses are written. *)
Lemma scenario_rendering_counterexample :
  exists t1 g1 t g,
    setvalues scenario_shape (iter [1; 2; 3]) = Ok (t1, g1) /\
    setops t1 (mk_OpsGenerator [op_add; op_sub; op_mul; op_div] 0) = Ok (t, g) /\
    show_integral 1%float = "1" /\ show_integral 2%float = "2" /\
    show_integral 3%float = "3" /\
    output show_integral t "" = "1+2+3" /\
    output show_integral t "" <> "1+(2+3)".
Proof. do 4 eexists. repeat split. vm_compute. discriminate. Qed.

(** C4, amended: for the operands [1,2,3] and the operators [+,-,*,/] of
    precedence 1,1,2,3, the shape leaf combined with (leaf, leaf), assigned
    from operator index 0 (both nodes get [+]), renders as [1+2+3] and
    evaluates to 6. *)
Theorem scenario_rendering show :
  show 1%float = "1" -> show 2%float = "2" -> show 3%float = "3" ->
  Operation.precedence <$> [op_add; op_sub; op_mul; op_div] = [1; 1; 2; 3] /\
  exists t1 g1 t g,
    setvalues scenario_shape (iter [1; 2; 3]) = Ok (t1, g1) /\
    setops t1 (mk_OpsGenerator [op_add; op_sub; op_mul; op_div] 0) = Ok (t, g) /\
    binary_ops t = [Some op_add; Some op_add] /\
    output show t "" = "1+2+3" /\
    eval t = Ok 6%float.
Proof.
  intros H1 H2 H3. split; [done|]. do 4 eexists.
  split; [reflexivity|]. split; [reflexivity|]. split; [reflexivity|].
  split; [|reflexivity].
  rewrite output_render. simpl render.
  change (double_of_int 1) with 1%float. change (double_of_int 2) with 2%float.
  change (double_of_int 3) with 3%float. rewrite H1, H2, H3. reflexivity.
Qed.

Lemma scenario_rendering_witness :
  Operation.precedence <$> [op_add; op_sub; op_mul; op_div] = [1; 1; 2; 3] /\
  exists t1 g1 t g,
    setvalues scenario_shape (iter [1; 2; 3]) = Ok (t1, g1) /\
    setops t1 (mk_OpsGenerator [op_add; op_sub; op_mul; op_div] 0) = Ok (t, g) /\
    binary_ops t = [Some op_add; Some op_add] /\
    output show_integral t "" = "1+2+3" /\
    eval t = Ok 6%float.
Proof. apply (scenario_rendering show_integral); reflexivity. Defined.

(** C7, as the claim states it, fails: no error is raised for a null
    operation pointer, the pointer is dereferenced; and an operation alone
    is not enough when its lambda reads a child that is not there. *)
Lemma eval_unassigned_counterexample :
  eval (Expr_make (Value 1%float) (Value 2%float)) = UB /\
  eval (Expr_make (Value 1%float) (Value 2%float))
  <> Throw "unassigned operator" /\
  eval (Expr (Some op_add) [Value 1%float]) = UB.
Proof. repeat split. discriminate. Qed.

(** C7, amended: on a tree whose operations are entries of the registry,
    evaluation has undefined behaviour (a null pointer is dereferenced, no
    error is raised) when some reachable internal node has no operation;
    it returns a number, and raises no error, when every reachable internal
    node has an operation whose arity is its number of children. *)
Theorem eval_unassigned_or_value pow t :
  from_registry (oplist pow) t ->
  (None ∈ all_ops t -> eval t = UB) /\
  (assigned t -> exists v, eval t = Ok v).
Proof.
  intros Hreg. split; [|by apply (eval_assigned pow)].
  intros Hnone. destruct (eval_registry_outcome pow t Hreg) as [E|[v E]]; [done|].
  by destruct (eval_Ok_all_assigned t v E).
Qed.

Lemma eval_unassigned_or_value_witness :
  eval (Expr (Some op_mul) [Value 4%float; Expr_make1 (Value 5%float)]) = UB /\
  exists v,
    eval (Expr (Some op_mul) [Value 4%float; Expr (Some op_neg) [Value 5%float]])
    = Ok v.
Proof.
  split.
  - apply (eval_unassigned_or_value pow_stub).
    + unfold from_registry, oplist. simpl.
      apply Forall_cons_2; [|apply Forall_cons_2; [done|apply Forall_nil_2]].
      intros ? [= <-]. rewrite !elem_of_cons. tauto.
    + simpl. rewrite !elem_of_cons. tauto.
  - apply (eval_unassigned_or_value pow_stub).
    + unfold from_registry, oplist. simpl.
      apply Forall_cons_2; [|apply Forall_cons_2; [|apply Forall_nil_2]];
        intros ? [= <-]; rewrite !elem_of_cons; tauto.
    + apply assigned_Expr; [|done].
      apply Forall_cons_2; [constructor|].
      apply Forall_cons_2; [|apply Forall_nil_2].
      apply assigned_Expr; [|done].
      apply Forall_cons_2; [constructor|apply Forall_nil_2].
Defined.

(** ** Enumeration of shapes *)

(** More fuel than leaves changes nothing. *)
Lemma enumtrees_fuel_irrelevant f1 :
  forall f2 n, n <= Z.of_nat f1 -> n <= Z.of_nat f2 ->
    enumtrees_fuel f1 n = enumtrees_fuel f2 n.
Proof.
  induction f1 as [|f1 IH]; intros f2 n H1 H2.
  - destruct f2 as [|f2]; [done|]. simpl.
    destruct (Z.ltb_spec n 1); [done|lia].
  - destruct f2 as [|f2]; simpl.
    { destruct (Z.ltb_spec n 1); [done|lia]. }
    destruct (Z.ltb_spec n 1); [done|].
    destruct (Z.eqb_spec n 1); [done|].
    apply Forall_bind_ext, Forall_forall. intros i Hi.
    apply elem_of_seqZ in Hi.
    rewrite (IH f2 (n - i)) by lia. rewrite (IH f2 i) by lia. done.
Qed.

Lemma enumtrees_lt_1 n : n < 1 -> enumtrees n = [].
Proof.
  intros Hn. unfold enumtrees. destruct (Z.to_nat n); [done|]. simpl.
  destruct (Z.ltb_spec n 1); [done|lia].
Qed.

Lemma enumtrees_1 : enumtrees 1 = [Value_make].
Proof. reflexivity. Qed.

(** For two leaves or more: every split [i], every left shape with
    [nleaves - i] leaves, every right shape with [i] leaves. *)
Lemma enumtrees_split n :
  2 <= n ->
  enumtrees n =
    i ← seqZ 1 (n - 1);
    t ← enumtrees (n - i);
    s ← enumtrees i;
    [Expr_make t s].
Proof.
  intros Hn. unfold enumtrees at 1.
  destruct (Z.to_nat n) as [|f] eqn:Ef; [lia|]. simpl.
  destruct (Z.ltb_spec n 1); [lia|]. destruct (Z.eqb_spec n 1); [lia|].
  apply Forall_bind_ext, Forall_forall. intros i Hi. apply elem_of_seqZ in Hi.
  unfold enumtrees.
  rewrite (enumtrees_fuel_irrelevant f (Z.to_nat (n - i)) (n - i)) by lia.
  rewrite (enumtrees_fuel_irrelevant f (Z.to_nat i) i) by lia. done.
Qed.

Lemma skeleton_leafcount t : skeleton t -> (1 <= leafcount t)%nat.
Proof.
  unfold leafcount. induction 1 as [|l r _ IHl _ IHr]; simpl; [lia|].
  rewrite length_app. lia.
Qed.

Lemma leafcount_Expr_make l r :
  leafcount (Expr_make l r) = (leafcount l + leafcount r)%nat.
Proof. unfold leafcount. simpl. by rewrite app_nil_r, length_app. Qed.

(** What a member of [enumtrees n] for [n >= 2] looks like. *)
Lemma elem_of_enumtrees_split n t :
  2 <= n ->
  t ∈ enumtrees n <->
  exists i l r, 1 <= i <= n - 1 /\ l ∈ enumtrees (n - i) /\ r ∈ enumtrees i /\
                t = Expr_make l r.
Proof.
  intros Hn. rewrite enumtrees_split by done. rewrite list_elem_of_bind. split.
  - intros (i & Ht & Hi). apply elem_of_seqZ in Hi.
    apply list_elem_of_bind in Ht as (l & Ht & Hl).
    apply list_elem_of_bind in Ht as (r & Ht & Hr).
    apply list_elem_of_singleton in Ht. exists i, l, r. repeat split; try done; lia.
  - intros (i & l & r & Hi & Hl & Hr & ->). exists i. split.
    + apply list_elem_of_bind. exists l. split; [|done].
      apply list_elem_of_bind. exists r. split; [|done].
      by apply list_elem_of_singleton.
    + apply elem_of_seqZ. lia.
Qed.

(** No omission, nothing else: the members of [enumtrees n] are the
    skeletons with [n] leaves. *)
Lemma elem_of_enumtrees n t :
  t ∈ enumtrees n <-> skeleton t /\ Z.of_nat (leafcount t) = n.
Proof.
  split.
  - assert (H : forall (m : nat) n t, n <= Z.of_nat m -> t ∈ enumtrees n ->
                  skeleton t /\ Z.of_nat (leafcount t) = n).
    { clear. induction m as [|m IH]; intros n t Hm Ht.
      - rewrite enumtrees_lt_1 in Ht by lia. by apply elem_of_nil in Ht.
      - destruct (Z.lt_ge_cases n 1) as [H1|H1].
        { rewrite enumtrees_lt_1 in Ht by lia. by apply elem_of_nil in Ht. }
        destruct (decide (n = 1)) as [->|Hne].
        { rewrite enumtrees_1 in Ht. apply list_elem_of_singleton in Ht as ->.
          split; [constructor|done]. }
        apply elem_of_enumtrees_split in Ht as (i & l & r & Hi & Hl & Hr & ->);
          [|lia].
        apply IH in Hl as [Hsl Hcl]; [|lia]. apply IH in Hr as [Hsr Hcr]; [|lia].
        split; [by constructor|]. rewrite leafcount_Expr_make. lia. }
    apply (H (Z.to_nat n)). lia.
  - intros [Hs Hc]. revert n Hc.
    induction Hs as [|l r Hl IHl Hr IHr]; intros n Hc.
    + subst n. change (Value_make ∈ enumtrees 1).
      rewrite enumtrees_1. by apply list_elem_of_singleton.
    + rewrite leafcount_Expr_make in Hc.
      pose proof (skeleton_leafcount l Hl). pose proof (skeleton_leafcount r Hr).
      apply elem_of_enumtrees_split; [lia|].
      exists (Z.of_nat (leafcount r)), l, r. repeat split; try lia.
      * apply IHl. lia.
      * by apply IHr.
Qed.

(** No shape is handed out twice. *)
Lemma NoDup_enumtrees n : NoDup (enumtrees n).
Proof.
  assert (H : forall (m : nat) n, n <= Z.of_nat m -> NoDup (enumtrees n)).
  { clear. induction m as [|m IH]; intros n Hm.
    - rewrite enumtrees_lt_1 by lia. constructor.
    - destruct (Z.lt_ge_cases n 1) as [H1|H1].
      { rewrite enumtrees_lt_1 by lia. constructor. }
      destruct (decide (n = 1)) as [->|Hne].
      { rewrite enumtrees_1. apply NoDup_singleton. }
      rewrite enumtrees_split by lia.
      apply NoDup_bind; [| |apply NoDup_seqZ].
      + intros i1 i2 t _ _ H1' H2'.
        apply list_elem_of_bind in H1' as (l1 & H1' & _).
        apply list_elem_of_bind in H1' as (r1 & H1' & Hr1).
        apply list_elem_of_bind in H2' as (l2 & H2' & _).
        apply list_elem_of_bind in H2' as (r2 & H2' & Hr2).
        apply list_elem_of_singleton in H1', H2'. subst t.
        injection H2' as _ <-.
        apply elem_of_enumtrees in Hr1 as [_ <-].
        by apply elem_of_enumtrees in Hr2 as [_ <-].
      + intros i Hi. apply elem_of_seqZ in Hi.
        apply NoDup_bind; [| |apply IH; lia].
        * intros l1 l2 t _ _ H1' H2'.
          apply list_elem_of_bind in H1' as (r1 & H1' & _).
          apply list_elem_of_bind in H2' as (r2 & H2' & _).
          apply list_elem_of_singleton in H1', H2'. subst t.
          by injection H2' as <- _.
        * intros l _. apply NoDup_bind; [| |apply IH; lia].
          -- intros r1 r2 t _ _ H1' H2'.
             apply list_elem_of_singleton in H1', H2'. subst t.
             by injection H2' as <-.
          -- intros r _. apply NoDup_singleton. }
  destruct (Z.lt_ge_cases n 1) as [H1|H1].
  - rewrite enumtrees_lt_1 by lia. constructor.
  - apply (H (Z.to_nat n)). lia.
Qed.

(** ** Counting the shapes *)

Lemma sumZ_ext f g n :
  (forall j, (j < n)%nat -> f j = g j) -> sumZ f n = sumZ g n.
Proof.
  induction n as [|n IH]; intros H; simpl; [done|].
  rewrite IH, H by (intros; try apply H; lia). done.
Qed.

Lemma sumZ_add f g n : sumZ (fun j => f j + g j) n = sumZ f n + sumZ g n.
Proof. induction n as [|n IH]; simpl; lia. Qed.

Lemma sumZ_scale c f n : sumZ (fun j => c * f j) n = c * sumZ f n.
Proof. induction n as [|n IH]; simpl; lia. Qed.

Lemma sumZ_shift f n : sumZ f (S n) = f 0%nat + sumZ (fun j => f (S j)) n.
Proof. induction n as [|n IH]; simpl in *; lia. Qed.

Lemma sumZ_rev f n : sumZ f n = sumZ (fun j => f (n - 1 - j)%nat) n.
Proof.
  revert f. induction n as [|n IH]; intros f; [done|].
  rewrite sumZ_shift, (IH (fun j => f (S j))). simpl.
  replace (n - 0 - n)%nat with 0%nat by lia.
  rewrite (sumZ_ext (fun j => f (S (n - 1 - j))) (fun j => f (n - 0 - j)%nat)).
  - lia.
  - intros j Hj. f_equal. lia.
Qed.

Section Segner.
(** A sequence that starts at 1 and whose next term is the convolution of
    the terms so far with themselves. *)
Variable a : nat -> Z.
Hypothesis a_0 : a 0%nat = 1.
Hypothesis a_S :
  forall n, a (S n) = sumZ (fun j => a (n - j)%nat * a j) (S n).

(** Twice the sum weighted by the index is [n] times the plain sum. *)
Lemma convolution_weighted n :
  2 * sumZ (fun j => Z.of_nat j * (a (n - j)%nat * a j)) (S n)
  = Z.of_nat n * a (S n).
Proof.
  pose (C := fun j => a (n - j)%nat * a j).
  pose (W := fun j => Z.of_nat j * C j).
  pose (W' := fun j => (Z.of_nat n - Z.of_nat j) * C j).
  change (2 * sumZ W (S n) = Z.of_nat n * a (S n)).
  assert (E0 : a (S n) = sumZ C (S n)) by apply a_S.
  assert (E1 : sumZ W (S n) = sumZ W' (S n)).
  { rewrite (sumZ_rev W). apply sumZ_ext. intros j Hj. unfold W, W', C.
    replace (S n - 1 - j)%nat with (n - j)%nat by lia.
    replace (n - (n - j))%nat with j by lia.
    rewrite Nat2Z.inj_sub by lia. ring. }
  assert (E2 : sumZ W (S n) + sumZ W' (S n) = Z.of_nat n * sumZ C (S n)).
  { rewrite <- sumZ_add, <- sumZ_scale. apply sumZ_ext. intros j _.
    unfold W, W'. ring. }
  lia.
Qed.

(** The first-order recurrence of the Catalan numbers. *)
Lemma segner_step n :
  (Z.of_nat n + 2) * a (S n) = (4 * Z.of_nat n + 2) * a n.
Proof.
  induction n as [n IH] using lt_wf_ind.
  destruct n as [|n].
  - rewrite a_S. simpl. rewrite a_0. lia.
  - pose (C := fun j => a (n - j)%nat * a j).
    pose (W := fun j => Z.of_nat j * C j).
    pose (C' := fun j => a (S n - j)%nat * a j).
    pose (W1 := fun j => Z.of_nat j * C' j).
    pose (B := fun i => (Z.of_nat i + 2) * a (S i) * a (n - i)%nat).
    assert (E0 : a (S n) = sumZ C (S n)) by apply a_S.
    assert (E0' : a (S (S n)) = sumZ C' (S (S n))) by apply a_S.
    assert (Hw : 2 * sumZ W (S n) = Z.of_nat n * a (S n))
      by apply convolution_weighted.
    assert (Hw1 : 2 * sumZ W1 (S (S n)) = Z.of_nat (S n) * a (S (S n)))
      by apply convolution_weighted.
    assert (HA1 : sumZ B (S n) = 4 * sumZ W (S n) + 2 * sumZ C (S n)).
    { rewrite <- !sumZ_scale, <- sumZ_add. apply sumZ_ext. intros i Hi.
      unfold B, W, C. rewrite IH by lia. ring. }
    assert (HA2 : sumZ W1 (S (S n)) + sumZ C' (S (S n))
                  = a (S n) + sumZ B (S n)).
    { rewrite <- sumZ_add, sumZ_shift. f_equal.
      - unfold W1, C'. rewrite a_0, Nat.sub_0_r. simpl. lia.
      - apply sumZ_ext. intros j Hj. unfold W1, C', B.
        replace (S n - S j)%nat with (n - j)%nat by lia.
        rewrite Nat2Z.inj_succ. ring. }
    rewrite Nat2Z.inj_succ in *. lia.
Qed.

(** The closed form. *)
Lemma segner_closed_form n :
  a n * (Z.of_nat (fact (n + 1)) * Z.of_nat (fact n)) = Z.of_nat (fact (2 * n)).
Proof.
  induction n as [|n IH].
  - rewrite a_0. done.
  - pose proof (segner_step n) as Hs.
    replace (2 * S n)%nat with (S (S (2 * n))) by lia.
    replace (S n + 1)%nat with (S (S n)) by lia.
    replace (n + 1)%nat with (S n) in IH by lia.
    rewrite (Nat.mul_comm 2 n) in *.
    change (fact (S (S (n * 2)))) with (S (S (n * 2)) * fact (S (n * 2)))%nat.
    change (fact (S (n * 2))) with (S (n * 2) * fact (n * 2))%nat.
    change (fact (S (S n))) with (S (S n) * fact (S n))%nat.
    change (fact (S n)) with (S n * fact n)%nat in *.
    rewrite !Nat2Z.inj_mul in *. rewrite <- IH.
    set (F := Z.of_nat (fact n)) in *.
    replace (Z.of_nat (S (S (n * 2)))) with (2 * Z.of_nat n + 2) by lia.
    replace (Z.of_nat (S (n * 2))) with (2 * Z.of_nat n + 1) by lia.
    replace (Z.of_nat (S (S n))) with (Z.of_nat n + 2) by lia.
    replace (Z.of_nat (S n)) with (Z.of_nat n + 1) by lia.
    transitivity ((Z.of_nat n + 2) * a (S n) * ((Z.of_nat n + 1) * F)
                  * ((Z.of_nat n + 1) * F)); [ring|].
    rewrite Hs. ring.
Qed.

End Segner.

Lemma length_bind_singleton {B C} (g : B -> C) (l : list B) :
  length (s ← l; [g s]) = length l.
Proof.
  induction l as [|y l IH]; [done|].
  rewrite bind_cons, length_app, IH. done.
Qed.

Lemma length_bind_pairs {A B C} (g : A -> B -> C) (l1 : list A) (l2 : list B) :
  length (t ← l1; s ← l2; [g t s]) = (length l1 * length l2)%nat.
Proof.
  induction l1 as [|x l1 IH]; [done|].
  rewrite bind_cons, length_app, IH, length_bind_singleton. simpl. lia.
Qed.

Lemma length_bind_seqZ {A} (f : Z -> list A) a n :
  Z.of_nat (length (i ← seqZ a (Z.of_nat n); f i))
  = sumZ (fun j => Z.of_nat (length (f (a + Z.of_nat j)))) n.
Proof.
  induction n as [|n IH]; [done|].
  rewrite seqZ_S, bind_app, length_app, Nat2Z.inj_add, IH. simpl.
  by rewrite app_nil_r.
Qed.

Lemma shapes_count_0 : shapes_count 0 = 1.
Proof. reflexivity. Qed.

Lemma shapes_count_S n :
  shapes_count (S n)
  = sumZ (fun j => shapes_count (n - j) * shapes_count j) (S n).
Proof.
  unfold shapes_count at 1. rewrite enumtrees_split by lia.
  replace (Z.of_nat (S n) + 1 - 1) with (Z.of_nat (S n)) by lia.
  rewrite length_bind_seqZ. apply sumZ_ext. intros j Hj.
  rewrite length_bind_pairs, Nat2Z.inj_mul. unfold shapes_count.
  do 4 f_equal; lia.
Qed.

(** The number of shapes with [n] leaves, times [n! (n-1)!], is
    [(2(n-1))!]. *)
Lemma length_enumtrees_fact n :
  1 <= n ->
  let k := Z.to_nat (n - 1) in
  (length (enumtrees n) * (fact (k + 1) * fact k) = fact (2 * k))%nat.
Proof.
  intros Hn k.
  pose proof (segner_closed_form shapes_count shapes_count_0 shapes_count_S k)
    as Hc.
  unfold shapes_count in Hc.
  replace (Z.of_nat k + 1) with n in Hc by lia.
  rewrite <- !Nat2Z.inj_mul in Hc. by apply Nat2Z.inj in Hc.
Qed.

(** The number of shapes with [n] leaves is the Catalan number of index
    [n - 1]. *)
Lemma length_enumtrees n :
  1 <= n -> length (enumtrees n) = catalan (Z.to_nat (n - 1)).
Proof.
  intros Hn. pose proof (length_enumtrees_fact n Hn) as Hc. cbv zeta in Hc.
  unfold catalan. rewrite <- Hc. symmetry. apply Nat.div_mul.
  pose proof (fact_neq_0 (Z.to_nat (n - 1) + 1)).
  pose proof (fact_neq_0 (Z.to_nat (n - 1))). lia.
Qed.

(** * The program on the heap: properties *)

(** ** Heaps *)

Lemma cell_le_refl c : cell_le c c.
Proof. by destruct c. Qed.

Lemma cell_le_trans c1 c2 c3 : cell_le c1 c2 -> cell_le c2 c3 -> cell_le c1 c3.
Proof. destruct c1, c2, c3; simpl; try done. congruence. Qed.

Lemma heap_le_refl h : heap_le h h.
Proof. intros l c Hl. exists c. split; [done|apply cell_le_refl]. Qed.

Lemma heap_le_trans h1 h2 h3 : heap_le h1 h2 -> heap_le h2 h3 -> heap_le h1 h3.
Proof.
  intros H12 H23 l c Hl. destruct (H12 l c Hl) as (c2 & Hl2 & Hc2).
  destruct (H23 l c2 Hl2) as (c3 & Hl3 & Hc3).
  exists c3. split; [done|]. by eapply cell_le_trans.
Qed.

Lemma heap_le_length h h' : heap_le h h' -> (length h <= length h')%nat.
Proof.
  intros Hle. destruct (decide (length h = 0%nat)) as [|Hne]; [lia|].
  destruct (lookup_lt_is_Some_2 h (length h - 1)) as [c Hc]; [lia|].
  destruct (Hle _ _ Hc) as (c' & Hc' & _). apply lookup_lt_Some in Hc'. lia.
Qed.

Lemma heap_le_alloc h c : heap_le h (h ++ [c]).
Proof.
  intros l c0 Hl. exists c0. split; [|apply cell_le_refl].
  by apply lookup_app_l_Some.
Qed.

Lemma heap_le_insert h l c c' :
  h !! l = Some c -> cell_le c c' -> heap_le h (<[l := c']> h).
Proof.
  intros Hl Hc l0 c0 Hl0. destruct (decide (l = l0)) as [<-|Hne].
  - exists c'. rewrite list_lookup_insert_eq by by eapply lookup_lt_Some.
    split; [done|]. congruence.
  - exists c0. rewrite list_lookup_insert_ne by done.
    split; [done|apply cell_le_refl].
Qed.

(** ** Trees in the heap *)

(** Only the footprint matters. *)
Lemma stored_frame h h' t :
  forall a, stored h a t ->
    (forall l, l ∈ footprint a -> h' !! l = h !! l) -> stored h' a t.
Proof.
  induction t as [value|op args IH] using Node_induction; intros a Hs Hf;
    inversion Hs as [l v Hl|l op' cs args' Hl Hcs]; subst.
  - constructor. rewrite Hf; [done|]. simpl. apply list_elem_of_here.
  - constructor.
    + rewrite Hf; [done|]. simpl. apply list_elem_of_here.
    + assert (Hf' : forall l0, l0 ∈ cs ≫= footprint -> h' !! l0 = h !! l0).
      { intros l0 Hl0. apply Hf. simpl. by apply list_elem_of_further. }
      clear Hs Hl Hf. revert IH Hf'.
      induction Hcs as [|c a cs args Hc _ IHcs]; intros IH Hf'; [constructor|].
      apply Forall_cons in IH as [IHa IH]. constructor.
      * apply IHa; [done|]. intros l0 Hl0. apply Hf'.
        rewrite bind_cons. apply elem_of_app. by left.
      * apply IHcs; [done|]. intros l0 Hl0. apply Hf'.
        rewrite bind_cons. apply elem_of_app. by right.
Qed.

(** The footprint lies inside the heap. *)
Lemma stored_in_heap h t :
  forall a, stored h a t -> Forall (fun l => (l < length h)%nat) (footprint a).
Proof.
  induction t as [value|op args IH] using Node_induction; intros a Hs;
    inversion Hs as [l v Hl|l op' cs args' Hl Hcs]; subst; simpl.
  - constructor; [by eapply lookup_lt_Some|constructor].
  - constructor; [by eapply lookup_lt_Some|].
    clear Hs Hl. revert IH.
    induction Hcs as [|c a cs args Hc _ IHcs]; intros IH; [constructor|].
    apply Forall_cons in IH as [IHa IH]. rewrite bind_cons.
    apply Forall_app. split; eauto.
Qed.

(** Assignment elsewhere keeps a tree where it is, with its structure. *)
Lemma stored_heap_le h h' t :
  forall a, stored h a t -> heap_le h h' ->
    exists t', stored h' a t' /\ skeleton_of t' = skeleton_of t.
Proof.
  induction t as [value|op args IH] using Node_induction; intros a Hs Hle;
    inversion Hs as [l v Hl|l op' cs args' Hl Hcs]; subst.
  - destruct (Hle _ _ Hl) as ([v'|] & Hl' & Hc); [|done].
    exists (Value v'). split; [by constructor|done].
  - destruct (Hle _ _ Hl) as ([|op' ls] & Hl' & Hc); [done|]. simpl in Hc. subst ls.
    assert (Hargs : exists args', Forall2 (stored h') cs args' /\
                      skeleton_of <$> args' = skeleton_of <$> args).
    { clear Hs Hl Hl'. revert IH.
      induction Hcs as [|c a cs args Hc _ IHcs]; intros IH; [by exists []|].
      apply Forall_cons in IH as [IHa IH].
      destruct (IHa c Hc Hle) as (a' & Ha' & Hsk).
      destruct (IHcs IH) as (args' & Hargs' & Hsks).
      exists (a' :: args'). split; [by constructor|].
      rewrite !fmap_cons. congruence. }
    destruct Hargs as (args' & Hargs' & Hsk).
    exists (Expr op' args'). split; [by constructor|]. simpl. by rewrite Hsk.
Qed.

(** ** The functions on the heap compute what the functions on trees do *)

Lemma Forall2_stored_frame h h' cs args :
  Forall2 (stored h) cs args ->
  (forall l, l ∈ cs ≫= footprint -> h' !! l = h !! l) ->
  Forall2 (stored h') cs args.
Proof.
  induction 1 as [|c a cs args Hc _ IH]; intros Hf; [constructor|].
  constructor.
  - eapply stored_frame; [done|]. intros l Hl. apply Hf.
    rewrite bind_cons. apply elem_of_app. by left.
  - apply IH. intros l Hl. apply Hf.
    rewrite bind_cons. apply elem_of_app. by right.
Qed.

Lemma operation_h_stored h a t :
  stored h a t -> operation_h h (root a) = operation t.
Proof. unfold operation_h. destruct 1 as [l v Hl|l op cs args Hl _]; simpl; by rewrite Hl. Qed.

Lemma eval_h_S fuel h t :
  eval_h (S fuel) h t =
  match h !! t with
  | None => UB
  | Some (VCell value) => Ok value
  | Some (ECell op args) =>
      results ← for_each args
                  (fun v results => x ← eval_h fuel h v; Ok (results ++ [x])) [];
      match op with
      | None => UB
      | Some o => Operation.fn o results
      end
  end.
Proof. reflexivity. Qed.

(** [eval_h] is [eval] of the tree in the heap. *)
Lemma eval_h_refines h t :
  forall a fuel, stored h a t -> (length (footprint a) <= fuel)%nat ->
    eval_h fuel h (root a) = eval t.
Proof.
  induction t as [value|op args IH] using Node_induction; intros a fuel Hs Hfuel;
    inversion Hs as [l v Hl|l op' cs args' Hl Hcs]; subst; simpl in Hfuel;
    (destruct fuel as [|fuel]; [lia|]); rewrite eval_h_S; simpl root; rewrite Hl;
    [done|].
  rewrite eval_Expr.
  assert (Hloop : forall acc,
    for_each (root <$> cs)
      (fun v results => x ← eval_h fuel h v; Ok (results ++ [x])) acc
    = xs ← eval_args args; Ok (acc ++ xs)).
  { assert (Hsize : (length (cs ≫= footprint) <= fuel)%nat) by lia.
    clear Hs Hl Hfuel. revert IH Hsize.
    induction Hcs as [|c a cs args Hc _ IHcs]; intros IH Hsize acc.
    - simpl. by rewrite app_nil_r.
    - apply Forall_cons in IH as [IHa IH].
      rewrite bind_cons, length_app in Hsize.
      rewrite fmap_cons, eval_args_cons. simpl for_each.
      rewrite (IHa c fuel Hc) by lia.
      destruct (eval a) as [x| | |]; simpl; try done.
      rewrite IHcs by (done || lia).
      destruct (eval_args args) as [xs| | |]; simpl; try done.
      by rewrite <- app_assoc. }
  rewrite Hloop. by destruct (eval_args args).
Qed.

Lemma output_h_S show fuel h t os :
  output_h show (S fuel) h t os =
  match h !! t with
  | None => UB
  | Some (VCell value) => Ok (os << show value)
  | Some (ECell op args) =>
      match op with
      | None =>
          match args with
          | [a0; a1] =>
              os ← output_h show fuel h a0 (os << "(");
              os ← output_h show fuel h a1 (os << "#");
              Ok (os << ")")
          | [a0] =>
              os ← output_h show fuel h a0 (os << "(" << "-");
              Ok (os << ")")
          | _ => os ← output_call_h show fuel h args true (os << "op(");
                 Ok (os << ")")
          end
      | Some o =>
          match args, String.eqb (Operation.infix o) "" with
          | [a0; a1], false =>
              let needbrackets0 :=
                precedence op >? precedence (operation_h h a0) in
              let os := if needbrackets0 then os << "(" else os in
              os ← output_h show fuel h a0 os;
              let os := if needbrackets0 then os << ")" else os in
              let os := os << Operation.infix o in
              let needbrackets1 :=
                precedence op >? precedence (operation_h h a1) in
              let os := if needbrackets1 then os << "(" else os in
              os ← output_h show fuel h a1 os;
              Ok (if needbrackets1 then os << ")" else os)
          | [a0], false =>
              let needbrackets0 :=
                precedence op >? precedence (operation_h h a0) in
              let os := os << Operation.infix o in
              let os := if needbrackets0 then os << "(" else os in
              os ← output_h show fuel h a0 os;
              Ok (if needbrackets0 then os << ")" else os)
          | _, _ =>
              os ← output_call_h show fuel h args true
                     (os << Operation.name o << "(");
              Ok (os << ")")
          end
      end
  end.
Proof. reflexivity. Qed.

Lemma output_Expr show op args os :
  output show (Expr op args) os =
  match op with
  | None =>
      match args with
      | [a0; a1] => output show a1 (output show a0 (os << "(") << "#") << ")"
      | [a0] => output show a0 (os << "(" << "-") << ")"
      | _ => output_call show args true (os << "op(") << ")"
      end
  | Some o =>
      match args, String.eqb (Operation.infix o) "" with
      | [a0; a1], false =>
          let needbrackets0 := precedence op >? precedence (operation a0) in
          let os := if needbrackets0 then os << "(" else os in
          let os := output show a0 os in
          let os := if needbrackets0 then os << ")" else os in
          let os := os << Operation.infix o in
          let needbrackets1 := precedence op >? precedence (operation a1) in
          let os := if needbrackets1 then os << "(" else os in
          let os := output show a1 os in
          if needbrackets1 then os << ")" else os
      | [a0], false =>
          let needbrackets0 := precedence op >? precedence (operation a0) in
          let os := os << Operation.infix o in
          let os := if needbrackets0 then os << "(" else os in
          let os := output show a0 os in
          if needbrackets0 then os << ")" else os
      | _, _ => output_call show args true (os << Operation.name o << "(") << ")"
      end
  end.
Proof. by destruct op. Qed.

#[local] Arguments output_call_h : simpl never.
#[local] Arguments output_call : simpl never.

(** [output_h] writes what [output] writes for the tree in the heap. *)
Lemma output_h_refines show h t :
  forall a fuel os, stored h a t -> (length (footprint a) <= fuel)%nat ->
    output_h show fuel h (root a) os = Ok (output show t os).
Proof.
  induction t as [value|op args IH] using Node_induction;
    intros a fuel os Hs Hfuel;
    inversion Hs as [l v Hl|l op' cs args' Hl Hcs]; subst; simpl in Hfuel;
    (destruct fuel as [|fuel]; [lia|]); rewrite output_h_S; simpl root;
    rewrite Hl; [done|].
  assert (Hsize : (length (cs ≫= footprint) <= fuel)%nat) by lia.
  assert (Hcall : forall first os,
    output_call_h show fuel h (root <$> cs) first os
    = Ok (output_call show args first os)).
  { clear Hs Hl Hfuel os. revert IH Hsize.
    induction Hcs as [|c a cs args Hc _ IHcs]; intros IH Hsize first os; [done|].
    apply Forall_cons in IH as [IHa IH].
    rewrite bind_cons, length_app in Hsize.
    rewrite fmap_cons. unfold output_call_h, output_call.
    fold (output_call_h show fuel h). fold (output_call show).
    rewrite (IHa c fuel _ Hc) by lia. simpl. apply IHcs; [done|lia]. }
  rewrite output_Expr.
  destruct Hcs as [|c0 a0 cs args Hc0 Hcs].
  { destruct op as [o|]; [destruct (String.eqb (Operation.infix o) "")|];
      reflexivity. }
  apply Forall_cons in IH as [IH0 IH].
  rewrite bind_cons, length_app in Hsize.
  destruct Hcs as [|c1 a1 cs args Hc1 Hcs].
  { simpl in Hcall |- *. rewrite (operation_h_stored h c0 a0 Hc0).
    destruct op as [o|].
    - destruct (String.eqb (Operation.infix o) "") eqn:Ei.
      + by rewrite (Hcall true).
      + cbv zeta. rewrite (IH0 c0 fuel _ Hc0) by lia. done.
    - rewrite (IH0 c0 fuel _ Hc0) by lia. done. }
  apply Forall_cons in IH as [IH1 IH].
  rewrite bind_cons, length_app in Hsize.
  destruct Hcs as [|c2 a2 cs args Hc2 Hcs].
  { simpl in Hcall |- *.
    rewrite (operation_h_stored h c0 a0 Hc0), (operation_h_stored h c1 a1 Hc1).
    destruct op as [o|].
    - destruct (String.eqb (Operation.infix o) "") eqn:Ei.
      + by rewrite (Hcall true).
      + cbv zeta. rewrite (IH0 c0 fuel _ Hc0) by lia. simpl.
        rewrite (IH1 c1 fuel _ Hc1) by lia. done.
    - rewrite (IH0 c0 fuel _ Hc0) by lia. simpl.
      rewrite (IH1 c1 fuel _ Hc1) by lia. done. }
  simpl in Hcall |- *.
  destruct op as [o|]; [destruct (String.eqb (Operation.infix o) "")|];
    by rewrite (Hcall true).
Qed.

Lemma setvalues_h_S `{Next G Z} fuel t (g : G) h :
  setvalues_h (S fuel) t (g, h) =
  match h !! t with
  | None => UB
  | Some (VCell _) =>
      '(x, g) ← next g; Ok (g, <[t := VCell (double_of_int x)]> h)
  | Some (ECell _ args) => for_each args (setvalues_h fuel) (g, h)
  end.
Proof. reflexivity. Qed.

Lemma setops_h_S `{Next G Operation.t} fuel t (g : G) h :
  setops_h (S fuel) t (g, h) =
  match h !! t with
  | None => UB
  | Some (VCell _) => Ok (g, h)
  | Some (ECell op args) =>
      s ← (if (length args =? 2)%nat
           then '(o, g) ← next g; Ok (g, <[t := ECell (Some o) args]> h)
           else Ok (g, h));
      for_each args (setops_h fuel) s
  end.
Proof. reflexivity. Qed.

Lemma updates_refl h fp : updates h fp h.
Proof. split; [done|apply heap_le_refl]. Qed.

Lemma updates_trans h1 h2 h3 fp1 fp2 :
  updates h1 fp1 h2 -> updates h2 fp2 h3 -> updates h1 (fp1 ++ fp2) h3.
Proof.
  intros [Hf1 Hle1] [Hf2 Hle2]. split; [|by eapply heap_le_trans].
  intros l Hl. apply not_elem_of_app in Hl as [Hl1 Hl2].
  by rewrite Hf2, Hf1.
Qed.

(** The loop over the children, for a function that refines on each child. *)
Lemma for_each_children {G} fuel
    (step_h : loc -> G * heap -> result (G * heap))
    (step : Node -> G -> result (Node * G))
    (loop : list Node -> G -> result (list Node * G)) args :
  (forall g, loop [] g = Ok ([], g)) ->
  (forall a l g, loop (a :: l) g =
     '(a', g1) ← step a g; '(l', g2) ← loop l g1; Ok (a' :: l', g2)) ->
  Forall (refines_at fuel step_h step) args ->
  forall cs g h args' g',
    Forall2 (stored h) cs args -> NoDup (cs ≫= footprint) ->
    (length (cs ≫= footprint) <= fuel)%nat ->
    loop args g = Ok (args', g') ->
    exists h', for_each (root <$> cs) step_h (g, h) = Ok (g', h') /\
               Forall2 (stored h') cs args' /\
               updates h (cs ≫= footprint) h'.
Proof.
  intros Hnil Hcons. induction 1 as [|a args Ha _ IH];
    intros cs g h args' g' Hcs Hnd Hsize Hloop.
  - apply Forall2_nil_inv_r in Hcs as ->.
    rewrite Hnil in Hloop. injection Hloop as <- <-.
    exists h. split; [done|]. split; [constructor|apply updates_refl].
  - apply Forall2_cons_inv_r in Hcs as (c & cs' & Hc & Hcs & ->).
    rewrite Hcons in Hloop.
    apply bind_Ok in Hloop as ([a' g1] & Ea & Hloop).
    apply bind_Ok in Hloop as ([l' g2] & El & Hloop). injection Hloop as <- <-.
    rewrite bind_cons in Hnd, Hsize. rewrite length_app in Hsize.
    apply NoDup_app in Hnd as (Hnd1 & Hdisj & Hnd2).
    destruct (Ha c g h a' g1 Hc Hnd1 ltac:(lia) Ea) as (h1 & E1 & Hs1 & Hu1).
    assert (Hcs1 : Forall2 (stored h1) cs' args).
    { eapply Forall2_stored_frame; [done|]. intros l Hl. apply Hu1.
      intros Hl'. by apply (Hdisj l). }
    destruct (IH cs' g1 h1 l' g2 Hcs1 Hnd2 ltac:(lia) El) as (h2 & E2 & Hs2 & Hu2).
    exists h2. split; [|split].
    + rewrite fmap_cons. simpl. rewrite E1. simpl. done.
    + constructor; [|done]. eapply stored_frame; [done|].
      intros l Hl. apply Hu2. intros Hl'. by apply (Hdisj l).
    + rewrite bind_cons. by eapply updates_trans.
Qed.

(** [setvalues_h] assigns in place what [setvalues] assigns. *)
Lemma setvalues_h_refines `{Next G Z} t fuel :
  refines_at (G:=G) fuel (setvalues_h fuel) setvalues t.
Proof.
  revert fuel.
  induction t as [value|op args IH] using Node_induction;
    intros fuel a g h t' g' Hs Hnd Hfuel Hset;
    inversion Hs as [l v Hl|l op' cs args' Hl Hcs]; subst; simpl in Hfuel;
    (destruct fuel as [|fuel]; [lia|]); rewrite setvalues_h_S; simpl root;
    rewrite Hl.
  - simpl in Hset. apply bind_Ok in Hset as ([x g1] & Ex & Hset).
    injection Hset as <- <-. rewrite Ex. simpl.
    eexists. split; [done|]. split; [|split].
    + constructor. apply list_lookup_insert_eq. by eapply lookup_lt_Some.
    + intros l0 Hl0. apply list_lookup_insert_ne. intros ->. apply Hl0.
      simpl. apply list_elem_of_here.
    + by eapply heap_le_insert.
  - rewrite setvalues_Expr in Hset.
    apply bind_Ok in Hset as ([args' g1] & Eargs & Hset). injection Hset as <- <-.
    simpl in Hnd. apply NoDup_cons in Hnd as [Hl0 Hnd].
    destruct (for_each_children (G:=G) fuel (setvalues_h fuel) setvalues setvalues_args
                args (fun _ => eq_refl) setvalues_args_cons) with
      (cs := cs) (g := g) (h := h) (args' := args') (g' := g1)
      as (h' & E & Hs' & Hf & Hle); try done; try lia.
    { eapply Forall_impl; [exact IH|]. intros t Ht. apply Ht. }
    exists h'. split; [done|]. split; [|split].
    + constructor; [|done]. by rewrite Hf.
    + intros l0 Hl1. apply Hf. intros Hl2. apply Hl1. simpl.
      by apply list_elem_of_further.
    + done.
Qed.

(** [setops_h] assigns in place what [setops] assigns. *)
Lemma setops_h_refines `{Next G Operation.t} t fuel :
  refines_at (G:=G) fuel (setops_h fuel) setops t.
Proof.
  revert fuel.
  induction t as [value|op args IH] using Node_induction;
    intros fuel a g h t' g' Hs Hnd Hfuel Hset;
    inversion Hs as [l v Hl|l op' cs args' Hl Hcs]; subst; simpl in Hfuel;
    (destruct fuel as [|fuel]; [lia|]); rewrite setops_h_S; simpl root;
    rewrite Hl.
  - injection Hset as <- <-. exists h. split; [done|].
    split; [done|apply updates_refl].
  - rewrite setops_Expr in Hset.
    apply bind_Ok in Hset as ([op1 g1] & Eop & Hset).
    apply bind_Ok in Hset as ([args' g2] & Eargs & Hset). injection Hset as <- <-.
    simpl in Hnd. apply NoDup_cons in Hnd as [Hl0 Hnd].
    rewrite length_fmap, (Forall2_length _ _ _ Hcs).
    assert (Hfirst : exists h1,
      (if (length args =? 2)%nat
       then '(o, g0) ← next g;
            Ok (g0, <[l := ECell (Some o) (root <$> cs)]> h)
       else Ok (g, h)) = Ok (g1, h1) /\
      h1 !! l = Some (ECell op1 (root <$> cs)) /\
      updates h [l] h1).
    { destruct (length args =? 2)%nat.
      - apply bind_Ok in Eop as ([o g0] & Eo & Eop). injection Eop as <- <-.
        rewrite Eo. simpl. eexists. split; [done|]. split; [|split].
        + apply list_lookup_insert_eq. by eapply lookup_lt_Some.
        + intros l0 Hl1. apply list_lookup_insert_ne. intros ->. apply Hl1.
          apply list_elem_of_here.
        + by eapply heap_le_insert.
      - injection Eop as <- <-. exists h. split; [done|].
        split; [done|apply updates_refl]. }
    destruct Hfirst as (h1 & -> & Hl1 & Hf1 & Hle1). simpl.
    assert (Hcs1 : Forall2 (stored h1) cs args).
    { eapply Forall2_stored_frame; [done|]. intros l0 Hl2. apply Hf1.
      intros Hl3. apply list_elem_of_singleton in Hl3 as ->. done. }
    destruct (for_each_children (G:=G) fuel (setops_h fuel) setops setops_args
                args (fun _ => eq_refl) setops_args_cons) with
      (cs := cs) (g := g1) (h := h1) (args' := args') (g' := g2)
      as (h' & E & Hs' & Hf & Hle); try done; try lia.
    { eapply Forall_impl; [exact IH|]. intros t Ht. apply Ht. }
    exists h'. split; [done|]. split; [|split].
    + constructor; [|done]. by rewrite Hf.
    + intros l0 Hl2. rewrite Hf, Hf1; [done| |].
      * intros Hl3. apply list_elem_of_singleton in Hl3 as ->. apply Hl2.
        simpl. apply list_elem_of_here.
      * intros Hl3. apply Hl2. simpl. by apply list_elem_of_further.
    + by eapply heap_le_trans.
Qed.

(** ** An assignment overwrites all there is in a binary tree *)

Lemma skeleton_of_inv_Value t : skeleton_of t = Value_make -> exists v, t = Value v.
Proof. destruct t; [eauto|done]. Qed.

Lemma skeleton_of_inv_Expr t l r :
  skeleton_of t = Expr_make l r ->
  exists op tl tr, t = Expr op [tl; tr] /\ skeleton_of tl = l /\ skeleton_of tr = r.
Proof.
  destruct t as [v|op [|tl [|tr [|? ?]]]]; intros E; try discriminate E.
  injection E as <- <-. by exists op, tl, tr.
Qed.

Lemma skeleton_skeleton_of s : skeleton s -> skeleton_of s = s.
Proof.
  induction 1 as [|l r _ IHl _ IHr]; [done|]. simpl. by rewrite IHl, IHr.
Qed.

Lemma leaves_Expr2 op l r : leaves (Expr op [l; r]) = leaves l ++ leaves r.
Proof. simpl. by rewrite app_nil_r. Qed.

Lemma binary_ops_Expr2 op l r :
  binary_ops (Expr op [l; r]) = op :: binary_ops l ++ binary_ops r.
Proof. simpl. by rewrite app_nil_r. Qed.

Lemma all_ops_Expr2 op l r :
  all_ops (Expr op [l; r]) = op :: all_ops l ++ all_ops r.
Proof. simpl. by rewrite app_nil_r. Qed.

(** The numbers of leaves and of binary nodes are those of the shape. *)
Lemma counts_of_shape s :
  skeleton s ->
  forall t, skeleton_of t = s ->
    leafcount t = leafcount s /\ binary_count t = binary_count s.
Proof.
  unfold leafcount, binary_count.
  induction 1 as [|l r _ IHl _ IHr]; intros t Ht.
  - apply skeleton_of_inv_Value in Ht as [v ->]. done.
  - apply skeleton_of_inv_Expr in Ht as (op & tl & tr & -> & Hl & Hr).
    destruct (IHl tl Hl) as [Hl1 Hl2], (IHr tr Hr) as [Hr1 Hr2].
    unfold Expr_make.
    rewrite !leaves_Expr2, !binary_ops_Expr2. simpl. rewrite !length_app. lia.
Qed.

(** A binary tree is its shape, its leaf values and its operations. *)
Lemma tree_determined s :
  skeleton s ->
  forall t t', skeleton_of t = s -> skeleton_of t' = s ->
    leaves t = leaves t' -> binary_ops t = binary_ops t' -> t = t'.
Proof.
  induction 1 as [|l r Hsl IHl Hsr IHr]; intros t t' Ht Ht' Hlv Hops.
  - apply skeleton_of_inv_Value in Ht as [v ->].
    apply skeleton_of_inv_Value in Ht' as [v' ->].
    by injection Hlv as ->.
  - apply skeleton_of_inv_Expr in Ht as (op & tl & tr & -> & Hl & Hr).
    apply skeleton_of_inv_Expr in Ht' as (op' & tl' & tr' & -> & Hl' & Hr').
    rewrite !leaves_Expr2 in Hlv. rewrite !binary_ops_Expr2 in Hops.
    injection Hops as -> Hops.
    destruct (counts_of_shape l Hsl tl Hl) as [Hc1 Hc2].
    destruct (counts_of_shape l Hsl tl' Hl') as [Hc1' Hc2'].
    apply app_inj_1 in Hlv as [Hlv1 Hlv2];
      [|unfold leafcount in *; congruence].
    apply app_inj_1 in Hops as [Hops1 Hops2];
      [|unfold binary_count in *; congruence].
    do 2 f_equal; [by apply IHl|]. f_equal. by apply IHr.
Qed.

(** With operations of arity two from the registry on all its nodes, a
    binary tree evaluates to a number. *)
Lemma eval_binary_tree pow s :
  skeleton s ->
  forall t, skeleton_of t = s ->
    Forall (fun op => exists o, op = Some o /\ o ∈ oplist pow /\ Operation.n o = 2)
           (binary_ops t) ->
    exists v, eval t = Ok v.
Proof.
  intros Hs t Ht Hops. apply (eval_assigned pow).
  - revert t Ht Hops. induction Hs as [|l r _ IHl _ IHr]; intros t Ht Hops.
    + apply skeleton_of_inv_Value in Ht as [v ->]. constructor.
    + apply skeleton_of_inv_Expr in Ht as (op & tl & tr & -> & Hl & Hr).
      rewrite binary_ops_Expr2 in Hops.
      apply Forall_cons in Hops as [(o & -> & Ho & Hn) Hops].
      apply Forall_app in Hops as [Hopl Hopr].
      unfold from_registry. rewrite all_ops_Expr2.
      apply Forall_cons. split; [by intros ? [= <-]|].
      apply Forall_app. split; [by apply IHl|by apply IHr].
  - revert t Ht Hops. induction Hs as [|l r _ IHl _ IHr]; intros t Ht Hops.
    + apply skeleton_of_inv_Value in Ht as [v ->]. constructor.
    + apply skeleton_of_inv_Expr in Ht as (op & tl & tr & -> & Hl & Hr).
      rewrite binary_ops_Expr2 in Hops.
      apply Forall_cons in Hops as [(o & -> & Ho & Hn) Hops].
      apply Forall_app in Hops as [Hopl Hopr].
      constructor; [|done].
      apply Forall_cons. split; [by apply IHl|].
      apply Forall_cons. split; [by apply IHr|apply Forall_nil_2].
Qed.

(** The operations [setops] selects are operations of the list. *)
Lemma selected_ops (binary : list Operation.t) m i :
  binary <> [] ->
  Forall (fun op => exists o, op = Some o /\ o ∈ binary)
         ((fun d => binary !! Z.to_nat d)
            <$> digits (Z.of_nat (length binary)) m i).
Proof.
  intros Hne. pose proof (radix_pos binary Hne) as Hr.
  apply Forall_fmap.
  eapply Forall_impl; [apply (digits_range _ m i Hr)|].
  intros d Hd. simpl in Hd |- *.
  destruct (lookup_lt_is_Some_2 binary (Z.to_nat d)) as [o Ho]; [lia|].
  exists o. split; [done|]. by eapply list_elem_of_lookup_2.
Qed.

(** One iteration on a tree that earlier iterations have used gives the
    tree it gives on a fresh clone of the shape. *)
Lemma assign_overwrites binary nums i t :
  skeleton (skeleton_of t) ->
  (leafcount t <= length nums)%nat ->
  binary <> [] -> 0 <= i <= INT_MAX ->
  exists t1 g1 s1 t2 g2,
    setvalues t (iter nums) = Ok (t1, g1) /\
    setops t1 (mk_OpsGenerator binary i) = Ok (t2, g2) /\
    setvalues (skeleton_of t) (iter nums) = Ok (s1, g1) /\
    setops s1 (mk_OpsGenerator binary i) = Ok (t2, g2) /\
    skeleton_of t2 = skeleton_of t /\
    Forall (fun op => exists o, op = Some o /\ o ∈ binary) (binary_ops t2).
Proof.
  intros Hsk Hlen Hne Hi.
  destruct (counts_of_shape _ Hsk t eq_refl) as [Hc1 Hc2].
  destruct (setvalues_iter t nums) as [(_ & t1 & E1 & Hl1)|(Hlt & _)]; [|lia].
  destruct (setvalues_iter (skeleton_of t) nums)
    as [(_ & s1 & Es1 & Hls1)|(Hlt & _)]; [|lia].
  pose proof (setvalues_frame _ _ _ _ E1) as Hf1.
  pose proof (setvalues_frame _ _ _ _ Es1) as Hfs1.
  destruct (setops_digits binary t1 Hne i Hi) as (t2 & E2 & Hb2).
  destruct (setops_digits binary s1 Hne i Hi) as (s2 & Es2 & Hbs2).
  pose proof (setops_frame _ _ _ _ E2) as Hf2.
  pose proof (setops_frame _ _ _ _ Es2) as Hfs2.
  assert (Hk1 : skeleton_of t1 = skeleton_of t)
    by by apply same_but_values_skeleton.
  assert (Hks1 : skeleton_of s1 = skeleton_of t).
  { rewrite (same_but_values_skeleton _ _ Hfs1).
    by apply skeleton_skeleton_of. }
  assert (Hk2 : skeleton_of t2 = skeleton_of t).
  { by rewrite (same_but_binops_skeleton _ _ Hf2). }
  assert (Hks2 : skeleton_of s2 = skeleton_of t).
  { by rewrite (same_but_binops_skeleton _ _ Hfs2). }
  destruct (counts_of_shape _ Hsk t1 Hk1) as [Hc3 Hc4].
  destruct (counts_of_shape _ Hsk s1 Hks1) as [Hc5 Hc6].
  assert (s2 = t2) as ->.
  { apply (tree_determined _ Hsk); try done.
    - rewrite (same_but_binops_leaves _ _ Hfs2), (same_but_binops_leaves _ _ Hf2).
      rewrite Hl1, Hls1. congruence.
    - rewrite Hb2, Hbs2. congruence. }
  exists t1, (iter (drop (leafcount t) nums)), s1, t2.
  eexists. split; [done|]. split; [done|]. split; [|split; [|split; [done|]]].
  - rewrite Es1. do 3 f_equal. congruence.
  - rewrite Es2. do 5 f_equal. congruence.
  - rewrite Hb2. by apply selected_ops.
Qed.

(** ** One shape of the search *)

Lemma for_each_invariant {A S} (body : A -> S -> result S)
    (J : list A -> S -> Prop) (l : list A) :
  forall p s,
    J p s ->
    (forall p x s, J p s -> x ∈ l ->
       exists s', body x s = Ok s' /\ J (p ++ [x]) s') ->
    exists s', for_each l body s = Ok s' /\ J (p ++ l) s'.
Proof.
  induction l as [|x l IH]; intros p s HJ Hstep.
  - exists s. by rewrite app_nil_r.
  - destruct (Hstep p x s HJ) as (s1 & E1 & HJ1); [apply list_elem_of_here|].
    destruct (IH (p ++ [x]) s1 HJ1) as (s' & E & HJ').
    { intros p' y s0 HJ0 Hy. apply Hstep; [done|]. by apply list_elem_of_further. }
    exists s'. simpl. rewrite E1. simpl. split; [done|].
    by rewrite <- app_assoc in HJ'.
Qed.

(** A tree without sharing has no more nodes than the heap has objects:
    the heap's length is fuel enough. *)
Lemma footprint_fits h a t :
  stored h a t -> NoDup (footprint a) -> (length (footprint a) <= length h)%nat.
Proof.
  intros Hs Hnd. apply stored_in_heap in Hs.
  assert (Hsub : footprint a ⊆+ seq 0 (length h)).
  { apply NoDup_submseteq; [done|]. intros l Hl.
    rewrite Forall_forall in Hs. apply elem_of_seq. specialize (Hs l Hl). lia. }
  apply submseteq_length in Hsub. by rewrite length_seq in Hsub.
Qed.

Lemma to_int_range z : - 2 ^ 31 <= to_int z <= INT_MAX.
Proof.
  unfold to_int, INT_MAX.
  pose proof (Z.mod_pos_bound (z + 2 ^ 31) (2 ^ 32) ltac:(lia)). lia.
Qed.

Lemma to_int_le z : 0 <= z -> to_int z <= z.
Proof.
  intros Hz. unfold to_int.
  pose proof (Z.mod_le (z + 2 ^ 31) (2 ^ 32) ltac:(lia) ltac:(lia)). lia.
Qed.

Lemma to_size_t_le z : 0 <= z -> to_size_t z <= z.
Proof. intros Hz. unfold to_size_t. apply Z.mod_le; lia. Qed.

Lemma intpow_loop_range fuel :
  forall a b r, r <= INT_MAX -> intpow_loop fuel a b r <= INT_MAX.
Proof.
  induction fuel as [|fuel IH]; intros a b r Hr; simpl; [done|].
  destruct (0 <? b); [|done]. apply IH.
  destruct (Z.odd b); [apply to_int_range|done].
Qed.

Lemma index_bound_range binary nums : index_bound binary nums <= INT_MAX.
Proof. apply intpow_loop_range. unfold INT_MAX. lia. Qed.

Lemma reports_app o1 o2 : reports (o1 ++ o2) = reports o1 ++ reports o2.
Proof. apply bind_app. Qed.

Section SearchProofs.
Variable show : T -> string.
Variable pow : T -> T -> T.
Variable binary : list Operation.t.
Variable nums : list Z.
Variable target : option Z.
Hypothesis binary_nonempty : binary <> [].
Hypothesis binary_registry :
  Forall (fun o => o ∈ oplist pow /\ Operation.n o = 2) binary.

(** One iteration on the tree at [a]: it returns, having allocated nothing;
    the tree at [a] is now the tree a fresh clone of the shape would have
    become; and what is reported is what the fresh clone would have
    reported. *)
Lemma iteration_step a t i w :
  stored (mem w) a t -> NoDup (footprint a) ->
  skeleton (skeleton_of t) -> (leafcount t <= length nums)%nat ->
  0 <= i <= INT_MAX ->
  exists w' t',
    iteration show binary nums target (root a) i w = Ok w' /\
    length (mem w') = length (mem w) /\
    stored (mem w') a t' /\
    fresh_assignment binary nums (skeleton_of t) i = Ok t' /\
    skeleton_of t' = skeleton_of t /\
    heap_le (mem w) (mem w') /\
    reports (out w')
    = reports (out w)
      ++ fresh_iteration show binary nums target (skeleton_of t) i.
Proof.
  intros Hs Hnd Hsk Hlen Hi.
  pose proof (footprint_fits _ _ _ Hs Hnd) as Hfuel.
  destruct (assign_overwrites binary nums i t Hsk Hlen binary_nonempty Hi)
    as (t1 & g1 & s1 & t2 & g2 & E1 & E2 & Es1 & Es2 & Hk2 & Hops).
  destruct (setvalues_h_refines t (length (mem w)) a (iter nums) (mem w) t1 g1)
    as (h1 & Eh1 & Hs1 & Hf1 & Hle1); try done.
  destruct (setops_h_refines t1 (length (mem w)) a
              (mk_OpsGenerator binary i) h1 t2 g2)
    as (h2 & Eh2 & Hs2 & Hf2 & Hle2); try done.
  destruct (eval_binary_tree pow (skeleton_of t) Hsk t2 Hk2) as [r Er].
  { eapply Forall_impl; [exact Hops|]. intros op (o & -> & Ho).
    rewrite Forall_forall in binary_registry.
    destruct (binary_registry o Ho). by exists o. }
  assert (Hlen2 : length h2 = length (mem w)).
  { pose proof (stored_in_heap _ _ _ Hs) as Hin. rewrite Forall_forall in Hin.
    assert (Hout : length (mem w) ∉ footprint a).
    { intros Hl. specialize (Hin _ Hl). lia. }
    pose proof (heap_le_length _ _ Hle1). pose proof (heap_le_length _ _ Hle2).
    assert (h2 !! length (mem w) = None) as Hnone.
    { rewrite Hf2, Hf1 by done. by apply lookup_ge_None. }
    apply lookup_ge_None in Hnone. lia. }
  assert (Hfresh : fresh_assignment binary nums (skeleton_of t) i = Ok t2).
  { unfold fresh_assignment. rewrite Es1. simpl. rewrite Es2. done. }
  unfold iteration. rewrite Eh1. simpl. rewrite Eh2. simpl.
  rewrite (eval_h_refines h2 t2 a) by done. rewrite Er. simpl.
  unfold fresh_iteration. rewrite Es1, Es2, Er.
  destruct (near_target target r).
  - rewrite (output_h_refines show h2 t2 a) by done. simpl.
    eexists _, t2. split; [done|]. simpl. repeat (split; [done|]).
    split; [by eapply heap_le_trans|]. by rewrite reports_app.
  - eexists _, t2. split; [done|]. simpl. repeat (split; [done|]).
    split; [by eapply heap_le_trans|]. by rewrite app_nil_r.
Qed.

(** The callback of [main] is a callback [enumtrees_h] can work with; its
    invariant: the reports so far are those of the shapes so far. *)
Lemma per_shape_ok h0 :
  callback_ok
    (fun done o => reports o = reports_of show binary nums target done)
    (to_int (to_size_t (Z.of_nat (length nums)))) h0
    (per_shape show binary nums target).
Proof.
  intros done a t w HI _ Hs Hnd _ Hin.
  apply elem_of_enumtrees in Hin as [Hsk Hcount].
  destruct (counts_of_shape _ Hsk t eq_refl) as [Hc _].
  assert (Hlen : (leafcount t <= length nums)%nat).
  { pose proof (to_size_t_le (Z.of_nat (length nums)) ltac:(lia)).
    pose proof (Z.mod_pos_bound (Z.of_nat (length nums)) (2 ^ 64) ltac:(lia)).
    pose proof (to_int_le (to_size_t (Z.of_nat (length nums)))
                  ltac:(unfold to_size_t; lia)). lia. }
  pose proof (footprint_fits _ _ _ Hs Hnd) as Hfuel.
  unfold per_shape. rewrite (output_h_refines show (mem w) t a) by done. simpl.
  destruct (for_each_invariant
              (iteration show binary nums target (root a))
              (fun p w' => exists t',
                 stored (mem w') a t' /\ skeleton_of t' = skeleton_of t /\
                 heap_le (mem w) (mem w') /\
                 reports (out w')
                 = reports (out w)
                   ++ (i ← p; fresh_iteration show binary nums target
                                (skeleton_of t) i))
              (seqZ 0 (index_bound binary nums)) []
              (mk_world (mem w) (out w ++ [Progress (output show t "")])))
    as (w' & E & t' & Hs' & Hk' & Hle' & Hr').
  - exists t. simpl. split; [done|]. split; [done|].
    split; [apply heap_le_refl|]. by rewrite reports_app, !app_nil_r.
  - intros p i w1 (t1 & Hs1 & Hk1 & Hle1 & Hr1) Hi.
    apply elem_of_seqZ in Hi. pose proof (index_bound_range binary nums).
    destruct (iteration_step a t1 i w1)
      as (w2 & t2 & E2 & _ & Hs2 & _ & Hk2 & Hle2 & Hr2); try done.
    + by rewrite Hk1.
    + destruct (counts_of_shape _ Hsk t1 Hk1). lia.
    + lia.
    + exists w2. split; [done|]. exists t2. split; [done|].
      split; [congruence|]. split; [by eapply heap_le_trans|].
      rewrite Hr2, Hr1, bind_app, bind_singleton, Hk1, <- app_assoc. done.
  - exists w'. split; [done|]. split; [|done].
    rewrite app_nil_l in Hr'. rewrite Hr', HI. unfold reports_of.
    rewrite bind_app, bind_singleton. done.
Qed.

End SearchProofs.

(** ** Enumeration on the heap *)

Lemma stored_alloc h c a t : stored h a t -> stored (h ++ [c]) a t.
Proof.
  intros Hs. eapply stored_frame; [done|]. intros l Hl.
  apply stored_in_heap in Hs. rewrite Forall_forall in Hs.
  apply lookup_app_l. by apply Hs.
Qed.

Lemma enumtrees_h_unfold fuel nleaves cb w :
  1 <= nleaves ->
  enumtrees_h (S fuel) nleaves cb w =
  if nleaves =? 1 then
    let '(v, w) := Value_make_h w in cb v w
  else
    for_each (seqZ 1 (nleaves - 1))
      (fun i =>
         enumtrees_h fuel (nleaves - i) (fun t =>
           enumtrees_h fuel i (fun s w =>
             let '(e, w) := Expr_make_h t s w in cb e w)))
      w.
Proof. intros Hn. simpl. destruct (Z.ltb_spec nleaves 1); [lia|done]. Qed.

(** The innermost callback: given the left subtree at [at_l], it receives a
    right subtree, allocates the node that combines them and hands it on. *)
Lemma combine_callback_ok (I : list Node -> list event -> Prop) n i h
    cb before al tl w2 :
  callback_ok I n h cb ->
  1 <= i <= n - 1 ->
  heap_le h (mem w2) ->
  stored (mem w2) al tl -> NoDup (footprint al) ->
  Forall (fun l => (length h <= l)%nat) (footprint al) ->
  skeleton_of tl ∈ enumtrees (n - i) ->
  callback_ok
    (fun d o => I (before ++ (s ← d; [Expr_make (skeleton_of tl) s])) o)
    i (mem w2)
    (fun s w => let '(e, w) := Expr_make_h (root al) s w in cb e w).
Proof.
  intros Hcb Hi Hle02 Hsl Hndl Hfl Hinl d ar tr w3 HI Hle23 Hsr Hndr Hfr Hinr.
  destruct (stored_heap_le _ _ _ _ Hsl Hle23) as (tl' & Hsl' & Hkl).
  pose proof (stored_in_heap _ _ _ Hsl) as Hbl.
  pose proof (stored_in_heap _ _ _ Hsl') as Hbl'.
  pose proof (stored_in_heap _ _ _ Hsr) as Hbr.
  pose proof (heap_le_length _ _ Hle02) as Hlen02.
  pose proof (heap_le_length _ _ Hle23) as Hlen23.
  rewrite Forall_forall in Hbl, Hbl', Hbr, Hfl, Hfr.
  set (e := length (mem w3)).
  set (w3' := mk_world (mem w3 ++ [ECell None [root al; root ar]]) (out w3)).
  destruct (Hcb (before ++ (s ← d; [Expr_make (skeleton_of tl) s]))
              (ANode e [al; ar]) (Expr None [tl'; tr]) w3')
    as (w4 & E4 & HI4 & Hle4).
  - done.
  - simpl. eapply heap_le_trans; [exact Hle02|].
    eapply heap_le_trans; [exact Hle23|]. apply heap_le_alloc.
  - constructor.
    + simpl. by rewrite lookup_app_r, Nat.sub_diag by done.
    + constructor; [by apply stored_alloc|].
      constructor; [by apply stored_alloc|constructor].
  - simpl. rewrite app_nil_r. apply NoDup_cons. split.
    + intros Hin. apply elem_of_app in Hin as [Hin|Hin].
      * specialize (Hbl' _ Hin). unfold e in Hbl'. lia.
      * specialize (Hbr _ Hin). unfold e in Hbr. lia.
    + apply NoDup_app. split; [done|]. split; [|done].
      intros l Hl1 Hl2. specialize (Hbl _ Hl1). specialize (Hfr _ Hl2). lia.
  - simpl. rewrite app_nil_r. apply Forall_cons. split; [unfold e; lia|].
    apply Forall_app. split; apply Forall_forall; intros l Hl.
    + by apply Hfl.
    + specialize (Hfr _ Hl). lia.
  - simpl. rewrite Hkl. apply elem_of_enumtrees_split; [lia|].
    exists i, (skeleton_of tl), (skeleton_of tr). done.
  - exists w4. split; [done|]. split.
    + rewrite bind_app, bind_singleton, app_assoc.
      simpl in HI4. by rewrite Hkl in HI4.
    + eapply heap_le_trans; [|exact Hle4]. apply heap_le_alloc.
Qed.

(** [enumtrees_h] returns, having called [cb] once for every shape of
    [enumtrees], each as a tree without sharing, in that order. *)
Theorem enumtrees_h_spec fuel :
  forall n (I : list Node -> list event -> Prop) cb w done,
    n <= Z.of_nat fuel ->
    callback_ok I n (mem w) cb ->
    I done (out w) ->
    exists w', enumtrees_h fuel n cb w = Ok w' /\
               I (done ++ enumtrees n) (out w') /\
               heap_le (mem w) (mem w').
Proof.
  induction fuel as [|fuel IH]; intros n I cb w done Hfuel Hcb HI.
  { exists w. simpl. destruct (Z.ltb_spec n 1); [|lia].
    rewrite enumtrees_lt_1, app_nil_r by lia. split; [done|].
    split; [done|apply heap_le_refl]. }
  destruct (Z.lt_ge_cases n 1) as [Hlt|Hge].
  { exists w. simpl. destruct (Z.ltb_spec n 1); [|lia].
    rewrite enumtrees_lt_1, app_nil_r by lia. split; [done|].
    split; [done|apply heap_le_refl]. }
  rewrite enumtrees_h_unfold by done.
  destruct (Z.eqb_spec n 1) as [->|Hne].
  - (* one leaf *)
    simpl.
    destruct (Hcb done (ANode (length (mem w)) []) Value_make
                (mk_world (mem w ++ [VCell 0%float]) (out w)))
      as (w' & E & HI' & Hle); try done.
    + apply heap_le_alloc.
    + constructor. simpl. by rewrite lookup_app_r, Nat.sub_diag by done.
    + simpl. apply NoDup_singleton.
    + simpl. by apply Forall_singleton.
    + rewrite enumtrees_1. apply list_elem_of_here.
    + exists w'. split; [done|]. split; [done|].
      eapply heap_le_trans; [|exact Hle]. apply heap_le_alloc.
  - (* two leaves or more: all splits *)
    destruct (for_each_invariant
      (fun i => enumtrees_h fuel (n - i) (fun t =>
                  enumtrees_h fuel i (fun s w =>
                    let '(e, w) := Expr_make_h t s w in cb e w)))
      (fun p w' =>
         I (done ++ (i ← p; split_shapes i (enumtrees (n - i)))) (out w') /\
         heap_le (mem w) (mem w'))
      (seqZ 1 (n - 1)) [] w) as (w' & E & HI' & Hle').
    + simpl. rewrite app_nil_r. split; [done|apply heap_le_refl].
    + intros p i w1 [HI1 Hle1] Hi. apply elem_of_seqZ in Hi.
      set (before := done ++ (i0 ← p; split_shapes i0 (enumtrees (n - i0)))).
      destruct (IH (n - i) (fun d o => I (before ++ split_shapes i d) o)
                  (fun t => enumtrees_h fuel i (fun s w =>
                     let '(e, w) := Expr_make_h t s w in cb e w))
                  w1 []) as (w2 & E2 & HI2 & Hle2).
      * lia.
      * (* the callback that receives the left subtree *)
        intros d al tl w2 HIl Hle12 Hsl Hndl Hfl Hinl.
        pose proof (heap_le_length _ _ Hle1) as Hlen1.
        assert (Hfl' : Forall (fun l => (length (mem w) <= l)%nat) (footprint al)).
        { eapply Forall_impl; [exact Hfl|]. simpl. intros; lia. }
        destruct (IH i
          (fun d2 o => I ((before ++ split_shapes i d)
                          ++ (s ← d2; [Expr_make (skeleton_of tl) s])) o)
          (fun s w => let '(e, w) := Expr_make_h (root al) s w in cb e w)
          w2 []) as (w3 & E3 & HI3 & Hle3).
        -- lia.
        -- apply (combine_callback_ok I n i (mem w) cb); try done; try lia.
           eapply heap_le_trans; [exact Hle1|exact Hle12].
        -- simpl. by rewrite app_nil_r.
        -- exists w3. split; [done|]. split; [|done].
           unfold split_shapes in *.
           rewrite bind_app, bind_singleton, app_assoc. done.
      * simpl. change (split_shapes i []) with (@nil Node).
        by rewrite app_nil_r.
      * exists w2. split; [done|]. split; [|by eapply heap_le_trans].
        rewrite bind_app, bind_singleton, app_assoc. done.
    + exists w'. split; [done|]. split; [|done].
      rewrite enumtrees_split by lia. done.
Qed.

(** ** The search *)

Lemma registry_binops pow :
  binops (oplist pow) = [op_add; op_sub; op_mul; op_div; op_pow pow; op_cat].
Proof. reflexivity. Qed.

(** The search of [main] over any non-empty list of binary operations of
    the registry reports what the search with a fresh tree per iteration
    reports. *)
Lemma search_refines show pow binary nums target :
  binary <> [] ->
  Forall (fun o => o ∈ oplist pow /\ Operation.n o = 2) binary ->
  exists w, search show binary nums target = Ok w /\
            reports (out w) = fresh_search show binary nums target.
Proof.
  intros Hne Hreg. unfold search.
  destruct (enumtrees_h_spec
              (Z.to_nat (to_int (to_size_t (Z.of_nat (length nums)))))
              (to_int (to_size_t (Z.of_nat (length nums))))
              (fun done o => reports o = reports_of show binary nums target done)
              (per_shape show binary nums target) (mk_world [] []) [])
    as (w & E & HI & _).
  - lia.
  - by apply (per_shape_ok show pow).
  - done.
  - exists w. split; [done|]. by rewrite HI.
Qed.

(** C5, as the claim states it, fails: no tree is cloned.  With the
    operands [1,2] the six iterations of the only shape work on the three
    objects that [enumtrees] allocated, and what the last one assigned is
    still there at the end; with [1,2,3,4] the fifth shape shares its left
    leaf with the fourth, and is announced with the operand 1 that the
    iterations of the fourth shape have written into that leaf. *)
Lemma search_shares_tree_counterexample :
  (exists w, main show_integral pow_stub [1; 2] None = Ok w /\
     length (reports (out w)) = 6%nat /\
     mem w = [VCell 1%float; VCell 2%float; ECell (Some op_cat) [0; 1]%nat]) /\
  (exists w, main show_integral pow_stub [1; 2; 3; 4] None = Ok w /\
     progress (out w)
     = ["(((0#0)#0)#0)"; "((0#(0#0))#0)"; "((0#0)#(0#0))";
        "(0#((0#0)#0))"; "(1#(0#(0#0)))"]).
Proof. split; eexists; vm_compute; repeat split. Qed.

Lemma registry_binops_ok pow :
  binops (oplist pow) <> [] /\
  Forall (fun o => o ∈ oplist pow /\ Operation.n o = 2) (binops (oplist pow)).
Proof.
  rewrite registry_binops. split; [done|]. unfold oplist.
  repeat (apply Forall_cons; split; [rewrite !elem_of_cons; tauto|]).
  apply Forall_nil_2.
Qed.

(** C5, amended: [main] clones nothing.  An iteration of the loop over the
    operator indices assigns in place: it allocates no object, and the tree
    it was given holds its operands and operators when the next iteration
    starts.  Yet it overwrites every leaf and every operation before it
    evaluates, so that what it leaves and what it reports are what
    [fresh_assignment] and [fresh_iteration] give on a fresh clone of the
    shape, whatever the tree held before; the search returns, and the
    results and renderings it reports are, shape by shape and index by
    index, those of the fresh clones: they do not depend on the iterations
    that ran before. *)
Theorem main_reports_as_fresh show pow nums target :
  let binary := binops (oplist pow) in
  (exists w,
     main show pow nums target = Ok w /\
     reports (out w)
     = (shape ← enumtrees (to_int (to_size_t (Z.of_nat (length nums))));
        i ← seqZ 0 (index_bound binary nums);
        fresh_iteration show binary nums target shape i)) /\
  (forall a t i w,
     stored (mem w) a t -> NoDup (footprint a) ->
     skeleton (skeleton_of t) -> (leafcount t <= length nums)%nat ->
     0 <= i <= INT_MAX ->
     exists w' t',
       iteration show binary nums target (root a) i w = Ok w' /\
       length (mem w') = length (mem w) /\
       stored (mem w') a t' /\
       fresh_assignment binary nums (skeleton_of t) i = Ok t' /\
       reports (out w')
       = reports (out w)
         ++ fresh_iteration show binary nums target (skeleton_of t) i).
Proof.
  intros binary. destruct (registry_binops_ok pow) as [Hne Hreg]. split.
  - by apply (search_refines show pow).
  - intros a t i w Hs Hnd Hsk Hlen Hi.
    destruct (iteration_step show pow binary nums target Hne Hreg a t i w)
      as (w' & t' & E & Hl & Hs' & Hf & _ & _ & Hr); try done.
    by exists w', t'.
Qed.

Lemma main_reports_as_fresh_witness :
  let w := mk_world [VCell 5%float; VCell 6%float;
                     ECell (Some op_mul) [0; 1]%nat] [] in
  let a := ANode 2 [ANode 0 []; ANode 1 []] in
  exists w' t',
    iteration show_integral (binops (oplist pow_stub)) [1; 2] None 2%nat 1 w
    = Ok w' /\
    length (mem w') = 3%nat /\
    stored (mem w') a t' /\
    fresh_assignment (binops (oplist pow_stub)) [1; 2]
      (Expr_make Value_make Value_make) 1 = Ok t' /\
    reports (out w') = [((-1)%float, "1-2")].
Proof.
  intros w a.
  destruct (main_reports_as_fresh show_integral pow_stub [1; 2] None)
    as [_ H].
  apply (H a (Expr (Some op_mul) [Value 5%float; Value 6%float]) 1 w).
  - apply stored_Expr; [reflexivity|].
    repeat constructor.
  - simpl. apply NoDup_cons. split; [rewrite !elem_of_cons, elem_of_nil; lia|].
    apply NoDup_cons. split; [rewrite !elem_of_cons, elem_of_nil; lia|].
    apply NoDup_singleton.
  - apply (skeleton_Expr Value_make Value_make); constructor.
  - vm_compute. lia.
  - unfold INT_MAX. lia.
Defined.

(** ** The shapes: the claim *)

(** C1: for [N >= 1], [enumtrees N] hands out as many skeletons as the
    Catalan number of index [N - 1] says, [(2n)! / ((n+1)! n!)] at
    [n = N - 1], the division being exact (1, 1, 2, 5, 14, ... for
    N = 1, 2, 3, 4, 5, ...), all different, and every skeleton with [N]
    leaves is among them; for [N >= 2] the list is, split after split
    [k = 1 .. N-1], every left shape with [N - k] leaves combined with every
    right shape with [k] leaves, and each tree handed out comes from exactly
    one split; for [N < 1] nothing is handed out.  The list [enumtrees N] is
    what the callback of the program receives: [enumtrees_h] calls it on
    these shapes, in this order, each time on a tree in which no object
    occurs twice. *)
Theorem enumtrees_catalan :
  (forall N, N < 1 -> enumtrees N = []) /\
  (forall N, 1 <= N -> length (enumtrees N) = catalan (Z.to_nat (N - 1))) /\
  (forall N, 1 <= N ->
     let n := Z.to_nat (N - 1) in
     (length (enumtrees N) * (fact (n + 1) * fact n) = fact (2 * n))%nat) /\
  (fun N => length (enumtrees N)) <$> [1; 2; 3; 4; 5] = [1; 1; 2; 5; 14]%nat /\
  (forall N, NoDup (enumtrees N)) /\
  (forall N t, t ∈ enumtrees N <-> skeleton t /\ Z.of_nat (leafcount t) = N) /\
  (forall N, 2 <= N ->
     enumtrees N =
       k ← seqZ 1 (N - 1);
       l ← enumtrees (N - k);
       r ← enumtrees k;
       [Expr_make l r]) /\
  (forall N t, 2 <= N -> t ∈ enumtrees N ->
     exists k l r,
       1 <= k <= N - 1 /\ l ∈ enumtrees (N - k) /\ r ∈ enumtrees k /\
       t = Expr_make l r /\
       forall k' l' r',
         l' ∈ enumtrees (N - k') -> r' ∈ enumtrees k' -> t = Expr_make l' r' ->
         k' = k /\ l' = l /\ r' = r) /\
  (forall N, hands_out N (enumtrees N)).
Proof.
  split; [apply enumtrees_lt_1|]. split; [apply length_enumtrees|].
  split; [apply length_enumtrees_fact|]. split; [reflexivity|].
  split; [apply NoDup_enumtrees|].
  split; [apply elem_of_enumtrees|]. split; [apply enumtrees_split|].
  split; [|intros N I cb w seen Hcb HI;
           apply (enumtrees_h_spec (Z.to_nat N)); [lia|exact Hcb|exact HI]].
  intros N t HN Ht.
  apply elem_of_enumtrees_split in Ht as (k & l & r & Hk & Hl & Hr & ->); [|done].
  exists k, l, r. split; [done|]. split; [done|]. split; [done|].
  split; [done|]. intros k' l' r' _ Hr' E. injection E as <- <-.
  split; [|done]. apply elem_of_enumtrees in Hr' as [_ <-].
  by apply elem_of_enumtrees in Hr as [_ <-].
Qed.

Lemma enumtrees_catalan_witness :
  length (enumtrees 4) = catalan 3 /\ catalan 3 = 5%nat /\
  enumtrees 0 = [] /\
  (Expr_make (Expr_make Value_make Value_make) Value_make ∈ enumtrees 3).
Proof.
  destruct enumtrees_catalan as (H0 & Hlen & _ & _ & _ & Hin & _).
  split; [apply (Hlen 4); lia|]. split; [reflexivity|].
  split; [apply H0; lia|].
  apply Hin. split; [|reflexivity].
  repeat constructor.
Defined.

(** * Integer exponentiation *)

Lemma to_int_mod z : to_int z mod 2 ^ 32 = z mod 2 ^ 32.
Proof.
  unfold to_int. rewrite Zminus_mod, Zmod_mod, <- Zminus_mod.
  f_equal. lia.
Qed.

Lemma to_int_congr x y : x mod 2 ^ 32 = y mod 2 ^ 32 -> to_int x = to_int y.
Proof.
  intros E. unfold to_int.
  rewrite (Zplus_mod x), (Zplus_mod y), E. done.
Qed.

Lemma to_int_id z : - 2 ^ 31 <= z <= INT_MAX -> to_int z = z.
Proof. unfold to_int, INT_MAX. intros. rewrite Z.mod_small; lia. Qed.


Lemma to_int_mul_l x y : to_int (to_int x * y) = to_int (x * y).
Proof.
  apply to_int_congr. by rewrite Zmult_mod, to_int_mod, <- Zmult_mod.
Qed.


(** Squaring the base and halving the exponent. *)
Lemma pow_halve a b :
  0 <= b -> a ^ b = (if Z.odd b then a else 1) * (a * a) ^ (b / 2).
Proof.
  intros Hb. rewrite (Zdiv2_odd_eqn b) at 1. rewrite Z.div2_div.
  assert (0 <= b / 2) by (apply Z.div_pos; lia).
  rewrite Z.pow_add_r, Z.pow_mul_r, Z.pow_2_r by (try destruct (Z.odd b); lia).
  destruct (Z.odd b); simpl; lia.
Qed.


Lemma intpow_loop_nonpositive fuel a b r : b <= 0 -> intpow_loop fuel a b r = r.
Proof.
  intros Hb. destruct fuel; [done|]. simpl.
  by destruct (Z.ltb_spec 0 b); [lia|].
Qed.



(** ** Checked products *)

Lemma mul_int_Ok x y v :
  mul_int x y = Ok v -> v = x * y /\ - 2 ^ 31 <= v <= INT_MAX.
Proof.
  unfold mul_int.
  destruct (Z.leb_spec (- 2 ^ 31) (x * y)), (Z.leb_spec (x * y) INT_MAX);
    simpl; try done. intros [= <-]. lia.
Qed.


Lemma mul_int_outcome x y : mul_int x y = UB \/ mul_int x y = Ok (x * y).
Proof.
  unfold mul_int.
  destruct ((- 2 ^ 31 <=? x * y) && (x * y <=? INT_MAX)); eauto.
Qed.

(** The checked loop returns the power or is undefined, and what it
    returns is what the loop with wrap-around returns. *)
Lemma intpow_checked_loop_outcome fuel :
  forall a b r, 0 <= b < 2 ^ Z.of_nat fuel ->
    intpow_checked_loop fuel a b r = UB \/
    intpow_checked_loop fuel a b r = Ok (r * a ^ b).
Proof.
  induction fuel as [|fuel IH]; intros a b r Hb.
  - simpl in *. assert (b = 0) as -> by lia. right. simpl. f_equal. lia.
  - cbn [intpow_checked_loop]. destruct (Z.ltb_spec 0 b) as [Hpos|Hle].
    + rewrite Z.shiftr_div_pow2, Z.pow_1_r, Z.bit0_odd by lia.
      assert (Hhalf : 0 <= b / 2 < 2 ^ Z.of_nat fuel).
      { rewrite Nat2Z.inj_succ, Z.pow_succ_r in Hb by lia.
        split; [apply Z.div_pos; lia|]. apply Z.div_lt_upper_bound; lia. }
      rewrite (pow_halve a b) by lia.
      destruct (Z.odd b).
      * destruct (mul_int_outcome r a) as [-> | ->]; [by left|]. simpl.
        destruct (mul_int_outcome a a) as [-> | ->]; [by left|]. simpl.
        destruct (IH (a * a) (b / 2) (r * a) Hhalf) as [-> | ->]; [by left|].
        right. f_equal. lia.
      * simpl. destruct (mul_int_outcome a a) as [-> | ->]; [by left|]. simpl.
        destruct (IH (a * a) (b / 2) r Hhalf) as [-> | ->]; [by left|].
        right. f_equal. lia.
    + assert (b = 0) as -> by lia. right. f_equal. simpl. lia.
Qed.

Lemma intpow_checked_loop_wraps fuel :
  forall a b r v, - 2 ^ 31 <= r <= INT_MAX ->
    intpow_checked_loop fuel a b r = Ok v ->
    - 2 ^ 31 <= v <= INT_MAX /\ intpow_loop fuel a b r = v.
Proof.
  induction fuel as [|fuel IH]; intros a b r v Hr E.
  - simpl in *. destruct (0 <? b); [done|]. by injection E as <-.
  - cbn [intpow_checked_loop intpow_loop] in *.
    destruct (0 <? b); [|by injection E as <-].
    apply bind_Ok in E as (r' & Er & E). apply bind_Ok in E as (a' & Ea & E).
    apply mul_int_Ok in Ea as [-> Ha].
    rewrite (to_int_id (a * a)) by done.
    destruct (Z.testbit b 0).
    + apply mul_int_Ok in Er as [-> Hr'].
      rewrite (to_int_id (r * a)) by done. by apply IH.
    + injection Er as <-. by apply IH.
Qed.





Lemma intpow_checked_outcome a b :
  0 <= b <= INT_MAX ->
  intpow_checked a b = UB \/ intpow_checked a b = Ok (a ^ b).
Proof.
  intros Hb. unfold intpow_checked.
  destruct (intpow_checked_loop_outcome 32 a b 1) as [E|E]; [|by left|].
  - unfold INT_MAX in Hb. simpl Z.of_nat. lia.
  - right. rewrite E. f_equal. lia.
Qed.

Lemma intpow_checked_wraps a b v :
  intpow_checked a b = Ok v -> - 2 ^ 31 <= v <= INT_MAX /\ intpow a b = v.
Proof.
  intros E. apply (intpow_checked_loop_wraps 32 a b 1 v); [by vm_compute|done].
Qed.

Lemma intpow_checked_overflow a b :
  0 <= b <= INT_MAX -> INT_MAX < a ^ b -> intpow_checked a b = UB.
Proof.
  intros Hb Hbig. destruct (intpow_checked_outcome a b Hb) as [E|E]; [done|].
  destruct (intpow_checked_wraps _ _ _ E) as [Hr _]. lia.
Qed.



(** * The timer *)

Lemma sub_long_Ok a b :
  LONG_MIN <= a - b <= LONG_MAX -> sub_long a b = Ok (a - b).
Proof.
  intros H. unfold sub_long.
  destruct (Z.leb_spec LONG_MIN (a - b)); [|lia].
  destruct (Z.leb_spec (a - b) LONG_MAX); [done|lia].
Qed.

Lemma tdiff_mod lhs rhs :
  LONG_MIN <= tv_sec lhs - tv_sec rhs <= LONG_MAX ->
  LONG_MIN <= tv_usec lhs - tv_usec rhs <= LONG_MAX ->
  timer.tdiff lhs rhs = Ok ((usec_of lhs - usec_of rhs) mod 2 ^ 64).
Proof.
  intros Hs Hu. unfold timer.tdiff.
  rewrite (sub_long_Ok _ _ Hs), (sub_long_Ok _ _ Hu). simpl.
  f_equal. unfold to_uint64_t, usec_of.
  rewrite Zmult_mod_idemp_l, <- Zplus_mod. f_equal. lia.
Qed.

(** X2: [tdiff] returns the microseconds from [rhs] to [lhs] as a 64-bit
    unsigned number whenever the two subtractions on [long] stay in range:
    the exact count when [lhs] is not before [rhs], also when its
    [tv_usec] is the smaller one (the two wrap-arounds cancel), and
    [2^64] minus the distance when [lhs] is before [rhs].  A subtraction
    that leaves the range of [long] is undefined. *)
Theorem tdiff_elapsed lhs rhs :
  (LONG_MIN <= tv_sec lhs - tv_sec rhs <= LONG_MAX ->
   LONG_MIN <= tv_usec lhs - tv_usec rhs <= LONG_MAX ->
   timer.tdiff lhs rhs = Ok ((usec_of lhs - usec_of rhs) mod 2 ^ 64) /\
   (0 <= usec_of lhs - usec_of rhs < 2 ^ 64 ->
    timer.tdiff lhs rhs = Ok (usec_of lhs - usec_of rhs)) /\
   (- 2 ^ 64 <= usec_of lhs - usec_of rhs < 0 ->
    timer.tdiff lhs rhs = Ok (2 ^ 64 + (usec_of lhs - usec_of rhs)))) /\
  (~ LONG_MIN <= tv_sec lhs - tv_sec rhs <= LONG_MAX ->
   timer.tdiff lhs rhs = UB).
Proof.
  split.
  - intros Hs Hu. rewrite (tdiff_mod lhs rhs Hs Hu).
    split; [done|]. split; intros H; f_equal.
    + by apply Z.mod_small.
    + rewrite <- (Z.mod_small (2 ^ 64 + _) (2 ^ 64)) by lia.
      rewrite Zplus_mod, Z.mod_same, Z.add_0_l, Zmod_mod by lia. done.
  - intros Hs. unfold timer.tdiff, sub_long.
    destruct (Z.leb_spec LONG_MIN (tv_sec lhs - tv_sec rhs)); [|done].
    destruct (Z.leb_spec (tv_sec lhs - tv_sec rhs) LONG_MAX); [lia|done].
Qed.

Lemma tdiff_elapsed_witness :
  timer.tdiff (mk_timeval 10 5) (mk_timeval 9 999999) = Ok 6 /\
  timer.tdiff (mk_timeval 9 999999) (mk_timeval 10 5) = Ok (2 ^ 64 - 6) /\
  timer.tdiff (mk_timeval LONG_MAX 0) (mk_timeval (-1) 0) = UB.
Proof.
  destruct (tdiff_elapsed (mk_timeval 10 5) (mk_timeval 9 999999))
    as [H1 _].
  destruct (tdiff_elapsed (mk_timeval 9 999999) (mk_timeval 10 5))
    as [H2 _].
  destruct (tdiff_elapsed (mk_timeval LONG_MAX 0) (mk_timeval (-1) 0))
    as [_ H3].
  split; [|split].
  - destruct H1 as (_ & H & _); [by vm_compute..|]. apply H. by vm_compute.
  - destruct H2 as (_ & _ & H); [by vm_compute..|]. apply H. by vm_compute.
  - apply H3. intros [_ H]. vm_compute in H. by apply H.
Defined.

Lemma normal_differences prev now :
  normal prev -> normal now ->
  LONG_MIN <= tv_sec now - tv_sec prev <= LONG_MAX /\
  LONG_MIN <= tv_usec now - tv_usec prev <= LONG_MAX.
Proof.
  unfold normal, usec_of, LONG_MIN, LONG_MAX. lia.
Qed.

Lemma lap_elapsed prev now :
  normal prev -> normal now -> usec_of prev <= usec_of now ->
  timer.lap now (timer.make prev)
  = Ok (usec_of now - usec_of prev, timer.make now).
Proof.
  intros Hp Hn Hle. unfold timer.lap. simpl.
  destruct (normal_differences prev now Hp Hn) as [Hs Hu].
  rewrite (tdiff_mod now prev Hs Hu). simpl. do 2 f_equal.
  apply Z.mod_small. unfold normal, usec_of, LONG_MAX in *. lia.
Qed.

Lemma sum_elapsed clock :
  forall prev, foldr Z.add 0 (elapsed prev clock)
               = usec_of (List.last clock prev) - usec_of prev.
Proof.
  induction clock as [|now rest IH]; intros prev; [simpl; lia|].
  cbn [elapsed foldr]. rewrite IH.
  change (List.last (now :: rest) prev)
    with (match rest with [] => now | _ => List.last rest prev end).
  destruct rest; [simpl; lia|].
  assert (forall d d', List.last (t :: rest) d = List.last (t :: rest) d') as E.
  { clear. revert t. induction rest as [|x rest IH]; intros t d d'; [done|].
    change (List.last (x :: rest) d = List.last (x :: rest) d'). apply IH. }
  rewrite (E now prev). lia.
Qed.

(** X3: with a clock that never goes back, every [lap()] returns the
    microseconds since the call before it (since the construction of the
    timer, for the first) and leaves the timer at the reading it took; the
    laps add up to the time from the construction to the last reading. *)
Theorem laps_elapsed clock :
  forall start,
    normal start -> Forall normal clock -> chronological start clock ->
    laps clock (timer.make start)
    = Ok (elapsed start clock, timer.make (List.last clock start)) /\
    Forall (fun d => 0 <= d) (elapsed start clock) /\
    foldr Z.add 0 (elapsed start clock)
    = usec_of (List.last clock start) - usec_of start.
Proof.
  intros start Hs Hc Hchr. split; [|split; [|apply sum_elapsed]].
  - revert start Hs Hchr.
    induction Hc as [|now rest Hn _ IH]; intros start Hs Hchr; [done|].
    destruct Hchr as [Hle Hchr]. cbn [laps elapsed].
    rewrite (lap_elapsed start now Hs Hn Hle). simpl.
    rewrite (IH now Hn Hchr). simpl. do 3 f_equal.
    destruct rest; [done|]. clear. revert t.
    induction rest as [|x rest IH]; intros t; [done|].
    change (List.last (x :: rest) now = List.last (x :: rest) start). apply IH.
  - clear Hs. revert start Hchr.
    induction Hc as [|now rest _ _ IH]; intros start Hchr; [constructor|].
    destruct Hchr as [Hle Hchr]. constructor; [lia|by apply IH].
Qed.

Lemma laps_elapsed_witness :
  laps [mk_timeval 3 999990; mk_timeval 4 10; mk_timeval 4 10]
       (timer.make (mk_timeval 3 0))
  = Ok ([999990; 20; 0], timer.make (mk_timeval 4 10)).
Proof.
  apply (laps_elapsed [mk_timeval 3 999990; mk_timeval 4 10; mk_timeval 4 10]
           (mk_timeval 3 0)).
  - repeat split; by vm_compute.
  - repeat constructor; by vm_compute.
  - repeat split; by vm_compute.
Defined.

(** * Generators *)

(** X4: the generator [iter v] gives the elements of [v] in their order,
    one per call of [next()], and the call after the last one throws
    "end of iteration". *)
Theorem generator_draw {A} (v : list A) (k : nat) :
  ((k <= length v)%nat ->
   draw k (iter v) = Ok (take k v, iter (drop k v))) /\
  ((length v < k)%nat -> draw k (iter v) = Throw "end of iteration").
Proof.
  revert v. induction k as [|k IH]; intros v.
  - split; [intros _; by rewrite drop_0|simpl; lia].
  - destruct v as [|x v]; [split; [simpl; lia|done]|].
    destruct (IH v) as [IH1 IH2]. split; intros Hk; simpl in Hk.
    + cbn [draw]. change (next (iter (x :: v))) with (Ok (x, iter v)).
      simpl. rewrite IH1 by lia. done.
    + cbn [draw]. change (next (iter (x :: v))) with (Ok (x, iter v)).
      simpl. rewrite IH2 by lia. done.
Qed.

Lemma generator_draw_witness :
  draw 3 (iter [7; 8; 9]) = Ok ([7; 8; 9], iter []) /\
  draw 4 (iter [7; 8; 9]) = Throw "end of iteration".
Proof.
  destruct (generator_draw [7; 8; 9] 3) as [H3 _].
  destruct (generator_draw [7; 8; 9] 4) as [_ H4].
  split; [apply H3; simpl; lia|apply H4; simpl; lia].
Defined.

Lemma OpsGenerator_next_any ops i :
  ops <> [] ->
  exists o,
    ops !! Z.to_nat (to_size_t i mod Z.of_nat (length ops)) = Some o /\
    next (mk_OpsGenerator ops i)
    = Ok (o, mk_OpsGenerator ops
               (to_int (to_size_t i / Z.of_nat (length ops)))).
Proof.
  intros Hops. pose proof (radix_pos ops Hops) as Hr.
  pose proof (Z.mod_pos_bound (to_size_t i) _ Hr) as Hm.
  destruct (lookup_lt_is_Some_2 ops
              (Z.to_nat (to_size_t i mod Z.of_nat (length ops))))
    as [o Ho]; [lia|].
  exists o. split; [done|].
  unfold next, OpsGenerator_next. simpl.
  destruct (Z.eqb_spec (Z.of_nat (length ops)) 0) as [E|_]; [lia|].
  by rewrite Ho.
Qed.

Lemma setops_any_index ops t :
  ops <> [] ->
  forall i, exists t' i',
    setops t (mk_OpsGenerator ops i) = Ok (t', mk_OpsGenerator ops i') /\
    Forall (fun op => exists o, op = Some o /\ o ∈ ops) (binary_ops t').
Proof.
  intros Hops.
  induction t as [value|op args IH] using Node_induction; intros i.
  - exists (Value value), i. split; [done|constructor].
  - rewrite setops_Expr.
    assert (Hargs : forall i, exists args' i',
      length args' = length args /\
      setops_args args (mk_OpsGenerator ops i)
      = Ok (args', mk_OpsGenerator ops i') /\
      Forall (fun op => exists o, op = Some o /\ o ∈ ops)
             (args' ≫= binary_ops)).
    { clear i op. induction IH as [|a args Ha _ IHargs]; intros i.
      - exists [], i. split; [done|]. split; [done|constructor].
      - rewrite setops_args_cons.
        destruct (Ha i) as (a' & i1 & -> & Hb). simpl.
        destruct (IHargs i1) as (args' & i2 & Hlen & -> & Hbs). simpl.
        exists (a' :: args'), i2. split; [simpl; lia|]. split; [done|].
        rewrite bind_cons. by apply Forall_app. }
    destruct (length args =? 2)%nat eqn:E2.
    + destruct (OpsGenerator_next_any ops i Hops) as (o & Ho & ->). simpl.
      destruct (Hargs (to_int (to_size_t i / Z.of_nat (length ops))))
        as (args' & i' & Hlen & -> & Hbs). simpl.
      exists (Expr (Some o) args'), i'. split; [done|].
      simpl binary_ops. rewrite Hlen, E2. simpl. constructor; [|done].
      exists o. split; [done|]. by eapply list_elem_of_lookup_2.
    + simpl. destruct (Hargs i) as (args' & i' & Hlen & -> & Hbs). simpl.
      exists (Expr op args'), i'. split; [done|].
      simpl binary_ops. by rewrite Hlen, E2.
Qed.

Lemma setops_no_operations t :
  forall i,
    setops t (mk_OpsGenerator [] i)
    = if decide (binary_count t = 0%nat)
      then Ok (t, mk_OpsGenerator [] i) else UB.
Proof.
  unfold binary_count.
  induction t as [value|op args IH] using Node_induction; intros i; [done|].
  rewrite setops_Expr. simpl binary_ops.
  assert (Hargs :
    setops_args args (mk_OpsGenerator [] i)
    = if decide (length (args ≫= binary_ops) = 0%nat)
      then Ok (args, mk_OpsGenerator [] i) else UB).
  { clear op. induction IH as [|a args Ha _ IHargs]; [done|].
    rewrite setops_args_cons, bind_cons, length_app, Ha.
    destruct (decide (length (binary_ops a) = 0%nat)) as [E|E]; simpl.
    - rewrite IHargs.
      destruct (decide (length (args ≫= binary_ops) = 0%nat)) as [E'|E'];
        simpl.
      + by rewrite decide_True by lia.
      + by rewrite decide_False by lia.
    - by rewrite decide_False by lia. }
  destruct (length args =? 2)%nat eqn:E2.
  - done.
  - simpl. rewrite Hargs.
    by destruct (decide (length (args ≫= binary_ops) = 0%nat)).
Qed.

(** X5: over a non-empty list, [OpsGenerator::next] returns an entry of the
    list for every index, the negative ones included (the index is converted
    to [size_t] before the division), and the generator never ends: [setops]
    returns for every tree, every binary node pointing into the list.  Over
    an empty list [next] divides by zero, and so does [setops] on a tree
    with a binary node. *)
Theorem OpsGenerator_never_ends ops t i :
  (ops <> [] ->
   (exists o, o ∈ ops /\
      next (mk_OpsGenerator ops i)
      = Ok (o, mk_OpsGenerator ops
                 (to_int (to_size_t i / Z.of_nat (length ops))))) /\
   (exists t' i',
      setops t (mk_OpsGenerator ops i) = Ok (t', mk_OpsGenerator ops i') /\
      Forall (fun op => exists o, op = Some o /\ o ∈ ops) (binary_ops t'))) /\
  next (mk_OpsGenerator [] i) = UB /\
  setops t (mk_OpsGenerator [] i)
  = if decide (binary_count t = 0%nat)
    then Ok (t, mk_OpsGenerator [] i) else UB.
Proof.
  split; [|split; [done|apply setops_no_operations]].
  intros Hops. split; [|by apply setops_any_index].
  destruct (OpsGenerator_next_any ops i Hops) as (o & Ho & E).
  exists o. split; [by eapply list_elem_of_lookup_2|done].
Qed.

Lemma OpsGenerator_never_ends_witness :
  (exists o, o ∈ [op_add; op_sub] /\
     next (mk_OpsGenerator [op_add; op_sub] (-1))
     = Ok (o, mk_OpsGenerator [op_add; op_sub] (-1))) /\
  (exists t' i',
     setops (Expr_make Value_make Value_make)
            (mk_OpsGenerator [op_add; op_sub] (-1))
     = Ok (t', mk_OpsGenerator [op_add; op_sub] i') /\
     Forall (fun op => exists o, op = Some o /\ o ∈ [op_add; op_sub])
            (binary_ops t')).
Proof.
  destruct (OpsGenerator_never_ends [op_add; op_sub]
              (Expr_make Value_make Value_make) (-1)) as [H _].
  apply H. done.
Defined.

(** *** Only the low digits of the index count *)

Lemma digits_mod r m i :
  0 < r -> digits r m (i mod r ^ Z.of_nat m) = digits r m i.
Proof.
  intros Hr. revert i. induction m as [|m IH]; intros i; [done|].
  assert (0 < r ^ Z.of_nat m) by (apply Z.pow_pos_nonneg; lia).
  rewrite Nat2Z.inj_succ, Z.pow_succ_r by lia.
  rewrite Z.rem_mul_r by lia. cbn [digits].
  pose proof (Z.mod_pos_bound i r Hr).
  f_equal.
  - rewrite (Z.mul_comm r), Z.mod_add by lia. apply Z.mod_mod. lia.
  - rewrite (Z.mul_comm r), Z.div_add by lia.
    rewrite (Z.div_small (i mod r)) by lia. apply IH.
Qed.

Lemma digits_app_inv r (a b : nat) i j :
  0 <= i -> 0 <= j -> 0 < r ->
  digits r (a + b) i = digits r (a + b) j ->
  digits r a i = digits r a j /\
  digits r b (i / r ^ Z.of_nat a) = digits r b (j / r ^ Z.of_nat a).
Proof.
  intros Hi Hj Hr E. rewrite !digits_app in E by done.
  apply app_inj_1 in E; [done|]. by rewrite !length_digits.
Qed.

Lemma setops_same_digits ops t :
  ops <> [] ->
  forall i j, 0 <= i <= INT_MAX -> 0 <= j <= INT_MAX ->
    digits (Z.of_nat (length ops)) (binary_count t) i
    = digits (Z.of_nat (length ops)) (binary_count t) j ->
    exists t' gi gj,
      setops t (mk_OpsGenerator ops i) = Ok (t', gi) /\
      setops t (mk_OpsGenerator ops j) = Ok (t', gj).
Proof.
  intros Hops. pose proof (radix_pos ops Hops) as Hr.
  unfold binary_count.
  assert (Hgen : forall i j, 0 <= i <= INT_MAX -> 0 <= j <= INT_MAX ->
    digits (Z.of_nat (length ops)) (length (binary_ops t)) i
    = digits (Z.of_nat (length ops)) (length (binary_ops t)) j ->
    exists t',
      setops t (mk_OpsGenerator ops i)
      = Ok (t', mk_OpsGenerator ops
                  (i / Z.of_nat (length ops) ^ Z.of_nat (length (binary_ops t)))) /\
      setops t (mk_OpsGenerator ops j)
      = Ok (t', mk_OpsGenerator ops
                  (j / Z.of_nat (length ops) ^ Z.of_nat (length (binary_ops t))))).
  2: { intros i j Hi Hj E. destruct (Hgen i j Hi Hj E) as (t' & E1 & E2).
       by eexists _, _, _. }
  induction t as [value|op args IH] using Node_induction; intros i j Hi Hj E.
  - exists (Value value). simpl. by rewrite !Z.div_1_r.
  - rewrite !setops_Expr. simpl binary_ops in *.
    assert (Hargs : forall i j, 0 <= i <= INT_MAX -> 0 <= j <= INT_MAX ->
      digits (Z.of_nat (length ops)) (length (args ≫= binary_ops)) i
      = digits (Z.of_nat (length ops)) (length (args ≫= binary_ops)) j ->
      exists args',
        setops_args args (mk_OpsGenerator ops i)
        = Ok (args', mk_OpsGenerator ops
               (i / Z.of_nat (length ops) ^ Z.of_nat (length (args ≫= binary_ops)))) /\
        setops_args args (mk_OpsGenerator ops j)
        = Ok (args', mk_OpsGenerator ops
               (j / Z.of_nat (length ops) ^ Z.of_nat (length (args ≫= binary_ops))))).
    { clear i j Hi Hj E op.
      induction IH as [|a args Ha _ IHargs]; intros i j Hi Hj E.
      - exists []. simpl. by rewrite !Z.div_1_r.
      - rewrite !setops_args_cons. rewrite bind_cons, length_app in *.
        apply digits_app_inv in E as [Ea Eargs]; [|lia..].
        destruct (Ha i j Hi Hj Ea) as (a' & -> & ->). simpl.
        destruct (IHargs _ _ (div_pow_bounds i _ (length (binary_ops a)) Hi Hr)
                    (div_pow_bounds j _ (length (binary_ops a)) Hj Hr) Eargs)
          as (args' & -> & ->). simpl.
        exists (a' :: args'). by rewrite !div_pow_add by lia. }
    destruct (length args =? 2)%nat eqn:E2.
    + simpl in E. injection E as Ed E.
      destruct (OpsGenerator_next_digit ops i Hops Hi) as (o & Ho & ->).
      destruct (OpsGenerator_next_digit ops j Hops Hj) as (o' & Ho' & ->).
      rewrite Ed, Ho' in Ho. injection Ho as ->. simpl.
      pose proof (div_pow_bounds i _ 1 Hi Hr) as Hbi.
      pose proof (div_pow_bounds j _ 1 Hj Hr) as Hbj.
      rewrite Z.pow_1_r in Hbi, Hbj.
      destruct (Hargs _ _ Hbi Hbj E) as (args' & -> & ->). simpl.
      exists (Expr (Some o) args'). by rewrite !div_pow_S by lia.
    + simpl in *. destruct (Hargs i j Hi Hj E) as (args' & -> & ->). simpl.
      by exists (Expr op args').
Qed.

(** X6: the operator index counts modulo [r ^ m], [r] the number of
    operations and [m] the number of binary nodes: two indices with the same
    [m] lowest digits in base [r] leave the same tree, so an index from
    [r ^ m] on repeats the assignment of an index below it. *)
Theorem operator_index_periodic ops t i j :
  ops <> [] -> 0 <= i <= INT_MAX -> 0 <= j <= INT_MAX ->
  i mod Z.of_nat (length ops) ^ Z.of_nat (binary_count t)
  = j mod Z.of_nat (length ops) ^ Z.of_nat (binary_count t) ->
  assign_ops ops t i = assign_ops ops t j /\
  exists t', assign_ops ops t i = Some t'.
Proof.
  intros Hops Hi Hj E. pose proof (radix_pos ops Hops) as Hr.
  destruct (setops_same_digits ops t Hops i j Hi Hj) as (t' & gi & gj & Ei & Ej).
  - by rewrite <- (digits_mod _ _ i), <- (digits_mod _ _ j), E.
  - unfold assign_ops. rewrite Ei, Ej. split; [done|by exists t'].
Qed.

Lemma operator_index_periodic_witness :
  assign_ops [op_add; op_sub; op_mul]
    (Expr_make Value_make (Expr_make Value_make Value_make)) 5
  = assign_ops [op_add; op_sub; op_mul]
      (Expr_make Value_make (Expr_make Value_make Value_make)) 14.
Proof.
  apply (operator_index_periodic [op_add; op_sub; op_mul]
           (Expr_make Value_make (Expr_make Value_make Value_make)) 5 14);
    [done|split; by vm_compute..|reflexivity].
Defined.

(** * What a rendering does not show *)

Lemma binds_looser_equal o1 o2 args :
  Operation.precedence o1 = Operation.precedence o2 ->
  binds_looser (Expr (Some o1) args) o2 = false.
Proof. intros E. unfold binds_looser. simpl. apply Z.ltb_ge. lia. Qed.

Lemma binds_looser_congr c o1 o2 :
  Operation.precedence o1 = Operation.precedence o2 ->
  binds_looser c o1 = binds_looser c o2.
Proof. intros E. unfold binds_looser. by rewrite E. Qed.

(** X7: the rendering does not show how operations of equal precedence are
    grouped: [x o1 (y o2 z)] and [(x o1 y) o2 z] are written with the same
    text when [o1] and [o2] have the same precedence, whatever the values
    are; so a report line such as [1-2-3] stands for [1-(2-3)], worth 2, as
    well as for [(1-2)-3], worth -4. *)
Theorem output_regrouping show o1 o2 x y z os :
  (Operation.infix o1 <> "" -> Operation.infix o2 <> "" ->
   Operation.precedence o1 = Operation.precedence o2 ->
   output show (Expr (Some o1) [x; Expr (Some o2) [y; z]]) os
   = output show (Expr (Some o2) [Expr (Some o1) [x; y]; z]) os) /\
  eval (Expr (Some op_sub)
          [Value 1%float; Expr (Some op_sub) [Value 2%float; Value 3%float]])
  = Ok 2%float /\
  eval (Expr (Some op_sub)
          [Expr (Some op_sub) [Value 1%float; Value 2%float]; Value 3%float])
  = Ok (-4)%float.
Proof.
  split; [|split; reflexivity].
  intros H1 H2 E. rewrite !output_render. f_equal.
  apply String.eqb_neq in H1, H2. cbn [render]. rewrite H1, H2.
  rewrite (binds_looser_equal o2 o1) by done.
  rewrite (binds_looser_equal o1 o2) by done.
  rewrite (binds_looser_congr y o1 o2) by done.
  unfold parenthesized at 2 5. by rewrite !string_app_assoc.
Qed.

Lemma output_regrouping_witness :
  output show_integral
    (Expr (Some op_sub)
       [Value 1%float; Expr (Some op_sub) [Value 2%float; Value 3%float]]) ""
  = output show_integral
      (Expr (Some op_sub)
         [Expr (Some op_sub) [Value 1%float; Value 2%float]; Value 3%float]) "".
Proof.
  apply (output_regrouping show_integral op_sub op_sub); done.
Defined.

(** * What the search reports *)




Lemma progress_app o1 o2 : progress (o1 ++ o2) = progress o1 ++ progress o2.
Proof. unfold progress. by rewrite bind_app. Qed.



Section Reports.
Variable show : T -> string.
Variable pow : T -> T -> T.
Variable binary : list Operation.t.
Variable nums : list Z.
Variable target : option Z.
Hypothesis binary_nonempty : binary <> [].
Hypothesis binary_registry :
  Forall (fun o => o ∈ oplist pow /\ Operation.n o = 2) binary.


Hypothesis nums_nonempty : (1 <= length nums)%nat.
Hypothesis nums_int : Z.of_nat (length nums) <= INT_MAX.
Hypothesis bound_int :
  Z.of_nat (length binary) ^ (Z.of_nat (length nums) - 1) <= INT_MAX.
Hypothesis binary_int : Z.of_nat (length binary) <= INT_MAX.

End Reports.




(** * How many lines the search prints *)



Section Lines.
Variable show : T -> string.
Variable pow : T -> T -> T.
Variable binary : list Operation.t.
Variable nums : list Z.
Variable target : option Z.
Hypothesis binary_nonempty : binary <> [].
Hypothesis binary_registry :
  Forall (fun o => o ∈ oplist pow /\ Operation.n o = 2) binary.



Hypothesis nums_nonempty : (1 <= length nums)%nat.
Hypothesis nums_int : Z.of_nat (length nums) <= INT_MAX.
Hypothesis bound_int :
  Z.of_nat (length binary) ^ (Z.of_nat (length nums) - 1) <= INT_MAX.
Hypothesis binary_int : Z.of_nat (length binary) <= INT_MAX.

End Lines.

(** ** The output, shape by shape *)


Lemma progress_report_line l : progress (report_line <$> l) = [].
Proof.
  induction l as [|[r text] l IH]; [done|].
  rewrite fmap_cons. change (report_line (r, text) :: (report_line <$> l))
    with ([Report r text] ++ (report_line <$> l)).
  rewrite progress_app, IH. done.
Qed.


Section Blocks.
Variable show : T -> string.
Variable pow : T -> T -> T.
Variable binary : list Operation.t.
Variable nums : list Z.
Variable target : option Z.
Hypothesis binary_nonempty : binary <> [].
Hypothesis binary_registry :
  Forall (fun o => o ∈ oplist pow /\ Operation.n o = 2) binary.



End Blocks.



(** * Results near the target *)

Lemma SFcompare_finite_refl s m e :
  SFcompare (S754_finite s m e) (S754_finite s m e) = Some Eq.
Proof.
  simpl. destruct s; rewrite Z.compare_refl, ?Pos.compare_cont_refl,
    ?Pos.compare_refl; done.
Qed.

Lemma finite_not_nan x :
  (exists s, Prim2SF x = S754_zero s) \/
  (exists s m e, Prim2SF x = S754_finite s m e) ->
  PrimFloat.is_nan x = false /\ PrimFloat.is_infinity x = false.
Proof.
  unfold PrimFloat.is_nan, PrimFloat.is_infinity.
  rewrite !FloatAxioms.eqb_spec, FloatAxioms.abs_spec.
  intros [[s E]|(s & m & e & E)]; rewrite E.
  - by destruct s.
  - unfold SFeqb. rewrite SFcompare_finite_refl. split; [done|].
    by destruct s.
Qed.

Lemma SFsub_same x :
  (exists s, x = S754_zero s) \/ (exists s m e, x = S754_finite s m e) ->
  SF64sub x x = S754_zero false.
Proof.
  intros [[s ->]|(s & m & e & ->)].
  - by destruct s.
  - unfold SF64sub, SFsub. rewrite Z.sub_diag. reflexivity.
Qed.

Lemma not_nan_not_infinity x :
  PrimFloat.is_nan x = false -> PrimFloat.is_infinity x = false ->
  (exists s, Prim2SF x = S754_zero s) \/
  (exists s m e, Prim2SF x = S754_finite s m e).
Proof.
  unfold PrimFloat.is_nan, PrimFloat.is_infinity.
  rewrite !FloatAxioms.eqb_spec, FloatAxioms.abs_spec.
  destruct (Prim2SF x) as [s|s| |s m e]; intros Hn Hi.
  - left. by exists s.
  - by destruct s.
  - done.
  - right. by exists s, m, e.
Qed.

Lemma near_target_exact tg :
  PrimFloat.is_nan (double_of_int tg) = false ->
  PrimFloat.is_infinity (double_of_int tg) = false ->
  near_target (Some tg) (double_of_int tg) = true.
Proof.
  intros Hn Hi. unfold near_target.
  rewrite FloatAxioms.leb_spec, FloatAxioms.abs_spec, FloatAxioms.sub_spec.
  rewrite SFsub_same by (by apply not_nan_not_infinity).
  reflexivity.
Qed.

(** X10: with a target, a result is reported only if it is a finite number:
    a NaN or an infinity, as a division by zero gives, is never near the
    target; a result that is the target itself is reported; without a
    target every result is reported. *)
Theorem near_target_finite (target : option Z) (r : T) :
  (target = None -> near_target target r = true) /\
  (target <> None -> near_target target r = true ->
   PrimFloat.is_nan r = false /\ PrimFloat.is_infinity r = false) /\
  (forall tg, target = Some tg -> r = double_of_int tg ->
   PrimFloat.is_nan r = false -> PrimFloat.is_infinity r = false ->
   near_target target r = true).
Proof.
  split; [by intros ->|]. split.
  - destruct target as [tg|]; [intros _|done].
    unfold near_target.
    rewrite FloatAxioms.leb_spec, FloatAxioms.abs_spec, FloatAxioms.sub_spec.
    intros H. apply finite_not_nan.
    destruct (Prim2SF r) as [s|s| |s m e] eqn:Er.
    + left. by exists s.
    + exfalso. destruct (Prim2SF (double_of_int tg)) as [s'|s'| |s' m' e'];
        try (by destruct s); try (by destruct s, s').
    + exfalso. by destruct (Prim2SF (double_of_int tg)).
    + right. by exists s, m, e.
  - intros tg -> ->. apply near_target_exact.
Qed.

Lemma near_target_finite_witness :
  near_target (Some 3) (1 / 0)%float = false /\
  near_target None (1 / 0)%float = true /\
  PrimFloat.is_nan 3.0625%float = false /\
  PrimFloat.is_infinity 3.0625%float = false /\
  near_target (Some 3) 3%float = true.
Proof.
  destruct (near_target_finite (Some 3) (1 / 0)%float) as (_ & Hinf & _).
  destruct (near_target_finite None (1 / 0)%float) as (Hnone & _).
  destruct (near_target_finite (Some 3) 3.0625%float) as (_ & Hfin & _).
  destruct (near_target_finite (Some 3) 3%float) as (_ & _ & Hhit).
  split; [|split; [by apply Hnone|]].
  - destruct (near_target (Some 3) (1 / 0)%float) eqn:E; [|done].
    destruct Hinf as [_ H]; [done|done|discriminate H].
  - destruct Hfin as [H1 H2]; [done|reflexivity|].
    split; [exact H1|]. split; [exact H2|].
    by apply (Hhit 3).
Defined.

(** * The options *)

Section OptionsProofs.
Import Stdlib.Strings.Ascii.

Lemma read_args_app args1 args2 o :
  read_args (args1 ++ args2) o
  = match read_args args1 o with
    | Some o' => read_args args2 o'
    | None => None
    end.
Proof.
  revert o. induction args1 as [|arg args1 IH]; intros o; [done|].
  simpl. destruct (read_arg arg o); [apply IH|done].
Qed.

Lemma read_arg_known arg o : known arg <-> is_Some (read_arg arg o).
Proof.
  unfold known, read_arg. rewrite !elem_of_cons, elem_of_nil.
  destruct (Ascii.eqb_spec (Arg.option arg) "r"); [split; eauto|].
  destruct (Ascii.eqb_spec (Arg.option arg) "d"); [split; eauto|].
  destruct (Ascii.eqb_spec (Arg.option arg) "n"); [split; eauto|].
  destruct (Ascii.eqb_spec (Arg.option arg) "t"); [split; eauto 6|].
  split; [intros [?|[?|[?|[?|[]]]]]; congruence|]. by intros [? ?].
Qed.

Lemma read_args_unknown args :
  forall o, ~ Forall known args -> read_args args o = None.
Proof.
  induction args as [|arg args IH]; intros o H; [by destruct H|].
  simpl. destruct (read_arg arg o) as [o'|] eqn:E; [|done].
  apply IH. intros Hall. apply H. constructor; [|done].
  apply (read_arg_known arg o). by rewrite E.
Qed.

Lemma last_getint_snoc c args arg :
  last_getint c (args ++ [arg])
  = if decide (Arg.option arg = c) then Some (Arg.getint arg)
    else last_getint c args.
Proof.
  unfold last_getint. rewrite filter_app, fmap_app.
  destruct (decide (Arg.option arg = c)) as [E|E].
  - rewrite filter_cons_True by done. simpl. apply last_snoc.
  - rewrite filter_cons_False by done. simpl. by rewrite app_nil_r.
Qed.

Lemma occurrences_snoc c args arg :
  occurrences c (args ++ [arg])
  = (occurrences c args + if decide (Arg.option arg = c) then 1 else 0)%nat.
Proof.
  unfold occurrences. rewrite filter_app, length_app.
  destruct (decide (Arg.option arg = c)) as [E|E].
  - by rewrite filter_cons_True by done.
  - by rewrite filter_cons_False by done.
Qed.

Lemma read_args_known args :
  Forall known args ->
  read_args args defaults
  = Some (Options.make
            (if Nat.even (occurrences "r" args)
             then [1; 2; 3; 4; 5; 6; 7; 8; 9] else [9; 8; 7; 6; 5; 4; 3; 2; 1])
            (default (-1) (last_getint "d" args))
            (default (-1) (last_getint "n" args))
            (last_getint "t" args)).
Proof.
  induction args as [|arg args IH] using rev_ind; intros Hall; [done|].
  apply Forall_app in Hall as [Hargs Harg]. rewrite Forall_singleton in Harg.
  rewrite read_args_app, (IH Hargs). simpl.
  rewrite !last_getint_snoc, occurrences_snoc. unfold read_arg. simpl.
  unfold known in Harg. rewrite !elem_of_cons, elem_of_nil in Harg.
  destruct Harg as [E|[E|[E|[E|[]]]]]; rewrite E; simpl.
  - rewrite Nat.add_1_r, Nat.even_succ, <- Nat.negb_even.
    by destruct (Nat.even (occurrences "r" args)).
  - by rewrite Nat.add_0_r.
  - by rewrite Nat.add_0_r.
  - by rewrite Nat.add_0_r.
Qed.

(** X11: the options of [main].  An argument with any other letter than
    [r], [d], [n], [t] ends [main] with the usage, wherever it stands, and
    nothing is searched.  Otherwise the search runs with the target of the
    last [t] (none without [t]) on [count] times [digit], taken from the
    last [n] and the last [d], when both are positive; if one of them is
    missing, zero or negative, both are ignored and the operands are 1 to 9,
    in descending order when the number of [r] is odd. *)
Theorem main_options show pow args :
  (~ Forall known args -> main_args show pow args = Ok Usage) /\
  (Forall known args ->
   let digit := default (-1) (last_getint "d" args) in
   let count := default (-1) (last_getint "n" args) in
   main_args show pow args
   = w ← main show pow
           (if (0 <? count) && (0 <? digit)
            then replicate (Z.to_nat count) digit
            else if Nat.even (occurrences "r" args)
                 then [1; 2; 3; 4; 5; 6; 7; 8; 9]
                 else [9; 8; 7; 6; 5; 4; 3; 2; 1])
           (last_getint "t" args);
     Ok (Searched w)).
Proof.
  unfold main_args. split; intros H.
  - by rewrite read_args_unknown.
  - by rewrite read_args_known.
Qed.

Lemma main_options_witness :
  main_args show_integral pow_stub
    [Arg.make "d" 7; Arg.make "x" 0; Arg.make "n" 2] = Ok Usage /\
  main_args show_integral pow_stub
    [Arg.make "r" 0; Arg.make "d" 7; Arg.make "n" 5; Arg.make "t" 1;
     Arg.make "n" 2; Arg.make "t" 14]
  = (w ← main show_integral pow_stub [7; 7] (Some 14); Ok (Searched w)) /\
  main_args show_integral pow_stub [Arg.make "d" 0; Arg.make "n" 1]
  = (w ← main show_integral pow_stub [1; 2; 3; 4; 5; 6; 7; 8; 9] None;
     Ok (Searched w)).
Proof.
  split; [|split].
  - apply (main_options show_integral pow_stub). intros H.
    apply Forall_cons in H as [_ H]. apply Forall_cons in H as [H _].
    unfold known in H. simpl in H.
    rewrite !elem_of_cons, elem_of_nil in H.
    by destruct H as [H|[H|[H|[H|[]]]]].
  - apply (main_options show_integral pow_stub).
    repeat constructor.
  - apply (main_options show_integral pow_stub).
    repeat constructor.
Defined.
End OptionsProofs.

(** * The two assigners, in either order *)

(** X12: on a binary tree, as [enumtrees] builds them, [setvalues] and
    [setops] can be called in either order: the tree they leave is the
    same, and so are the generators. *)
Theorem assigners_commute t (vs : list Z) ops i :
  skeleton (skeleton_of t) -> (leafcount t <= length vs)%nat ->
  ops <> [] -> 0 <= i <= INT_MAX ->
  exists t1 t1' t2 gv go,
    setvalues t (iter vs) = Ok (t1, gv) /\
    setops t1 (mk_OpsGenerator ops i) = Ok (t2, go) /\
    setops t (mk_OpsGenerator ops i) = Ok (t1', go) /\
    setvalues t1' (iter vs) = Ok (t2, gv).
Proof.
  intros Hsk Hlen Hops Hi.
  destruct (setvalues_iter t vs) as [(_ & t1 & E1 & Hl1)|[Hlt _]]; [|lia].
  destruct (setops_digits ops t1 Hops i Hi) as (t2 & E2 & Hb2).
  destruct (setops_digits ops t Hops i Hi) as (t1' & E1' & Hb1').
  pose proof (setvalues_frame _ _ _ _ E1) as F1.
  pose proof (setops_frame _ _ _ _ E2) as F2.
  pose proof (setops_frame _ _ _ _ E1') as F1'.
  assert (Hc : leafcount t1' = leafcount t)
    by (unfold leafcount; by rewrite (same_but_binops_leaves _ _ F1')).
  destruct (setvalues_iter t1' vs) as [(_ & t2' & E2' & Hl2')|[Hlt _]]; [|lia].
  pose proof (setvalues_frame _ _ _ _ E2') as F2'.
  assert (Hbc : binary_count t1 = binary_count t)
    by (unfold binary_count; by rewrite (same_but_values_binary_ops _ _ F1)).
  assert (t2' = t2) as ->.
  { apply (tree_determined (skeleton_of t) Hsk).
    - by rewrite (same_but_values_skeleton _ _ F2'),
                 (same_but_binops_skeleton _ _ F1').
    - by rewrite (same_but_binops_skeleton _ _ F2),
                 (same_but_values_skeleton _ _ F1).
    - by rewrite Hl2', Hc, (same_but_binops_leaves _ _ F2), Hl1.
    - by rewrite (same_but_values_binary_ops _ _ F2'), Hb1', Hb2, Hbc. }
  exists t1, t1', t2, (iter (drop (leafcount t) vs)),
    (mk_OpsGenerator ops
       (i / Z.of_nat (length ops) ^ Z.of_nat (binary_count t))).
  rewrite E1, E1', E2, E2', Hbc, Hc. done.
Qed.

Lemma assigners_commute_witness :
  exists t1 t1' t2 gv go,
    setvalues scenario_shape (iter [1; 2; 3]) = Ok (t1, gv) /\
    setops t1 (mk_OpsGenerator [op_add; op_mul] 2) = Ok (t2, go) /\
    setops scenario_shape (mk_OpsGenerator [op_add; op_mul] 2) = Ok (t1', go) /\
    setvalues t1' (iter [1; 2; 3]) = Ok (t2, gv).
Proof.
  apply (assigners_commute scenario_shape [1; 2; 3] [op_add; op_mul] 2).
  - repeat constructor.
  - vm_compute. lia.
  - done.
  - split; by vm_compute.
Defined.

(** * The order of the shapes *)

Lemma head_bind_cons {A B} (f : A -> list B) x l y ys :
  f x = y :: ys -> head ((x :: l) ≫= f) = Some y.
Proof. intros E. by rewrite bind_cons, E. Qed.

Lemma last_bind_snoc {A B} (f : A -> list B) x l y ys :
  f x = ys ++ [y] -> last ((l ++ [x]) ≫= f) = Some y.
Proof.
  intros E. rewrite bind_app, bind_singleton, E, app_assoc. apply last_snoc.
Qed.

Lemma head_Some_cons {A} (l : list A) x :
  head l = Some x -> exists l', l = x :: l'.
Proof. destruct l; [done|]. intros [= ->]. by eexists. Qed.

Lemma last_Some_snoc {A} (l : list A) x :
  last l = Some x -> exists l', l = l' ++ [x].
Proof.
  destruct l as [|y l] using rev_ind; [done|].
  rewrite last_snoc. intros [= ->]. by eexists.
Qed.

(** X13: the order of the shapes: for [k + 1] leaves, [enumtrees] hands out
    the shape that leans to the left first, and the shape that leans to the
    right last. *)
Theorem enumtrees_first_last (k : nat) :
  head (enumtrees (Z.of_nat k + 1)) = Some (left_comb k) /\
  last (enumtrees (Z.of_nat k + 1)) = Some (right_comb k).
Proof.
  induction k as [|k [IHh IHl]]; [split; reflexivity|].
  rewrite enumtrees_split by lia.
  replace (Z.of_nat (S k) + 1 - 1) with (Z.of_nat (S k)) by lia.
  split.
  - rewrite seqZ_cons by lia.
    apply head_Some_cons in IHh as [l' El].
    eapply head_bind_cons.
    replace (Z.of_nat (S k) + 1 - 1) with (Z.of_nat k + 1) by lia.
    rewrite El, bind_cons, enumtrees_1. simpl. reflexivity.
  - replace (Z.of_nat (S k)) with (Z.of_nat k + 1) at 1 by lia.
    rewrite (seqZ_app 1 (Z.of_nat k) 1) by lia.
    apply last_Some_snoc in IHl as [l' El].
    change (seqZ (1 + Z.of_nat k) 1) with [1 + Z.of_nat k].
    eapply last_bind_snoc.
    replace (Z.of_nat (S k) + 1 - (1 + Z.of_nat k)) with 1 by lia.
    rewrite enumtrees_1, bind_singleton.
    replace (1 + Z.of_nat k) with (Z.of_nat k + 1) by lia.
    rewrite El, bind_app, bind_singleton. simpl. reflexivity.
Qed.

(** * The digits [cat] appends *)

(** X14: for a number [b] with [k + 1] digits before the point,
    [10^k <= b < 10^(k+1)] with [k < 20], [tenfactor b] is [10^(k+1)], so
    that [cat] shifts [a] by exactly the digits of [b]:
    [cat(a, b) = a * 10^(k+1) + b]. *)
Theorem tenfactor_digit_count (a b : T) (k : nat) :
  (k < 20)%nat ->
  PrimFloat.leb (pow10 k) b = true ->
  PrimFloat.ltb b (pow10 (S k)) = true ->
  tenfactor b = pow10 (S k) /\
  float_is_Z (pow10 (S k)) (10 ^ (Z.of_nat k + 1)) /\
  Operation.fn op_cat [a; b] = Ok (a * pow10 (S k) + b)%float.
Proof.
  intros Hk Hlo Hhi.
  assert (E : tenfactor b = pow10 (S k)).
  { destruct (tenfactor_loop_spec 20 b 0) as (k' & Hk' & Hf & Hbelow & Habove).
    unfold tenfactor. change 1%float with (pow10 0). rewrite Hf. f_equal.
    destruct (Nat.lt_trichotomy k' (S k)) as [Hlt|[->|Hgt]]; [|done|].
    - (* the loop cannot stop at a power that is at most [b] *)
      rewrite (pow10_leb_trans k' k b) in Habove; [|lia|done].
      discriminate Habove. lia.
    - (* nor go on beyond a power above [b] *)
      specialize (Hbelow (S k) ltac:(lia)).
      destruct (pow10_finite (S k) ltac:(lia)) as (m & e & Em).
      rewrite FloatAxioms.ltb_spec, Em in Hhi.
      rewrite FloatAxioms.leb_spec, Em in Hbelow.
      by rewrite (SFltb_leb_false m e _ Hhi) in Hbelow. }
  split; [done|]. split.
  - replace (Z.of_nat k + 1) with (Z.of_nat (S k)) by lia.
    apply pow10_exact. lia.
  - simpl. by rewrite E.
Qed.

Lemma tenfactor_digit_count_witness :
  tenfactor 345%float = 1000%float /\
  float_is_Z 1000%float (10 ^ 3) /\
  Operation.fn op_cat [12%float; 345%float] = Ok (12 * 1000 + 345)%float.
Proof.
  apply (tenfactor_digit_count 12%float 345%float 2); [lia|reflexivity..].
Defined.

(** * The bound of the loop over the operator indices *)

Lemma bound_small (n : nat) :
  (1 <= n <= 8)%nat ->
  intpow_checked 6 (to_int (to_size_t (Z.of_nat n - 1)))
  = Ok (6 ^ (Z.of_nat n - 1)).
Proof.
  intros Hn. do 9 (destruct n as [|n]; [first [lia|reflexivity]|]). lia.
Qed.

Lemma bound_unread (n : nat) :
  (9 <= n <= 12)%nat ->
  intpow_checked 6 (to_int (to_size_t (Z.of_nat n - 1))) = UB /\
  forall overflow,
    intpow_with overflow 6 (Z.of_nat n - 1) = 6 ^ (Z.of_nat n - 1).
Proof.
  intros Hn.
  do 13 (destruct n as [|n];
    [first [lia|split; [reflexivity|intros; reflexivity]]|]).
  lia.
Qed.

(** X15: the bound [intpow(6, n-1)] of the loop of [main], with signed
    products outside the range of [int] undefined as the language has
    them.  For 1 to 8 operands every product is an [int] and the bound is
    [6 ^ (n-1)].  From 9 operands on a product leaves the range, which is
    undefined: for 9 to 12 operands it is the last [a *= a] only, which
    nothing reads, so that the bound is [6 ^ (n-1)] whatever that product
    yields; from 13 operands on [6 ^ (n-1)] itself is no [int]. *)
Theorem loop_bound_overflow pow (nums : list Z) :
  let binary := binops (oplist pow) in
  let n := Z.of_nat (length nums) in
  ((1 <= length nums <= 8)%nat ->
   index_bound_checked binary nums = Ok (6 ^ (n - 1))) /\
  ((9 <= length nums <= 12)%nat ->
   index_bound_checked binary nums = UB /\
   forall overflow, intpow_with overflow 6 (n - 1) = 6 ^ (n - 1)) /\
  ((13 <= length nums)%nat -> n <= INT_MAX ->
   INT_MAX < 6 ^ (n - 1) /\ index_bound_checked binary nums = UB).
Proof.
  intros binary n. unfold index_bound_checked, binary.
  rewrite registry_binops. change (to_int (Z.of_nat (length _))) with 6.
  split; [apply bound_small|]. split; [apply bound_unread|].
  intros Hn Hint. unfold INT_MAX in Hint.
  assert (Hbig : INT_MAX < 6 ^ (n - 1)).
  { apply Z.lt_le_trans with (6 ^ 12); [by vm_compute|].
    apply Z.pow_le_mono_r; lia. }
  split; [done|]. unfold to_size_t. fold n.
  rewrite (Z.mod_small (n - 1)) by lia.
  rewrite to_int_id by (unfold INT_MAX; lia).
  apply intpow_checked_overflow; [unfold INT_MAX; lia|done].
Qed.

Lemma loop_bound_overflow_witness :
  index_bound_checked (binops (oplist pow_stub)) [1; 2; 3; 4; 5; 6; 7; 8]
  = Ok (6 ^ 7) /\
  index_bound_checked (binops (oplist pow_stub)) [1; 2; 3; 4; 5; 6; 7; 8; 9]
  = UB /\
  (forall overflow, intpow_with overflow 6 8 = 6 ^ 8) /\
  index_bound_checked (binops (oplist pow_stub)) (replicate 13 1) = UB.
Proof.
  destruct (loop_bound_overflow pow_stub [1; 2; 3; 4; 5; 6; 7; 8])
    as (H8 & _).
  destruct (loop_bound_overflow pow_stub [1; 2; 3; 4; 5; 6; 7; 8; 9])
    as (_ & H9 & _).
  destruct (loop_bound_overflow pow_stub (replicate 13 1)) as (_ & _ & H13).
  split; [apply H8; simpl; lia|].
  destruct H9 as [E9 Hover]; [simpl; lia|].
  split; [exact E9|]. split; [exact Hover|].
  apply H13; [simpl; lia|by vm_compute].
Defined.

(** * Nodes that [setops] passes by *)

Lemma has_open_node_kept t :
  has_open_node t -> forall t', same_but_binops t t' -> has_open_node t'.
Proof.
  induction 1 as [args Hlen|op args a Ha _ IH]; intros t' Hr;
    inversion Hr as [|? op' ? args' Hargs Hop]; subst.
  - rewrite (Hop Hlen). apply open_here.
    by rewrite <- (Forall2_length _ _ _ Hargs).
  - apply list_elem_of_lookup in Ha as [k Hk].
    destruct (Forall2_lookup_l _ _ _ _ _ Hargs Hk) as (a' & Hk' & Hr').
    apply (open_below op' args' a'); [by eapply list_elem_of_lookup_2|].
    by apply IH.
Qed.

Lemma has_open_node_unassigned t : has_open_node t -> None ∈ all_ops t.
Proof.
  induction 1 as [args Hlen|op args a Ha _ IH]; simpl.
  - apply list_elem_of_here.
  - apply list_elem_of_further, list_elem_of_bind. by exists a.
Qed.

(** After [setops], an operation in the tree was there before or has been
    put on a binary node. *)
Lemma same_but_binops_all_ops t :
  forall t', same_but_binops t t' ->
    forall op, op ∈ all_ops t' -> op ∈ all_ops t \/ op ∈ binary_ops t'.
Proof.
  induction t as [value|op args IH] using Node_induction; intros t' Hr x Hx;
    inversion Hr as [|? op' ? args' Hargs Hop]; subst; [by left|].
  simpl in Hx. apply elem_of_cons in Hx as [->|Hx].
  - destruct (decide (length args = 2%nat)) as [E|E].
    + right. simpl. rewrite <- (Forall2_length _ _ _ Hargs), E. simpl.
      apply list_elem_of_here.
    + left. rewrite (Hop E). simpl. apply list_elem_of_here.
  - apply list_elem_of_bind in Hx as (a' & Hx & Ha').
    apply list_elem_of_lookup in Ha' as [k Hk'].
    destruct (Forall2_lookup_r _ _ _ _ _ Hargs Hk') as (a & Hk & Hr').
    rewrite Forall_forall in IH.
    destruct (IH a (list_elem_of_lookup_2 _ _ _ Hk) a' Hr' x Hx) as [Hl|Hb].
    + left. simpl. apply list_elem_of_further, list_elem_of_bind.
      exists a. split; [done|by eapply list_elem_of_lookup_2].
    + right. simpl. apply elem_of_app. right. apply list_elem_of_bind.
      exists a'. split; [done|by eapply list_elem_of_lookup_2].
Qed.

(** X16: [setops] gives an operation to the nodes with exactly two children
    only, so a node built by [Expr::make(l)], or any node without operation
    whose number of children is not two, is still without operation after
    [setvalues] and [setops], and [eval] of the tree dereferences its null
    pointer: trees with such a node cannot be evaluated after the two
    assigners have run, whatever the operands and the index are. *)
Theorem open_node_stays_open pow ops t (vs : list Z) i :
  has_open_node t -> from_registry (oplist pow) t ->
  Forall (fun o => o ∈ oplist pow) ops -> ops <> [] ->
  (leafcount t <= length vs)%nat ->
  exists t1 gv t2 go,
    setvalues t (iter vs) = Ok (t1, gv) /\
    setops t1 (mk_OpsGenerator ops i) = Ok (t2, go) /\
    has_open_node t2 /\
    eval t2 = UB.
Proof.
  intros Hopen Hreg Hops Hne Hlen.
  destruct (setvalues_iter t vs) as [(_ & t1 & E1 & _)|[Hlt _]]; [|lia].
  destruct (setops_any_index ops t1 Hne i) as (t2 & i' & E2 & Hb).
  pose proof (setvalues_frame _ _ _ _ E1) as F1.
  pose proof (setops_frame _ _ _ _ E2) as F2.
  assert (Hopen1 : has_open_node t1).
  { clear -Hopen F1. revert t1 F1.
    induction Hopen as [args Hlen|op args a Ha _ IH]; intros t1 Hr;
      inversion Hr as [|? ? args' Hargs]; subst.
    - apply open_here. by rewrite <- (Forall2_length _ _ _ Hargs).
    - apply list_elem_of_lookup in Ha as [k Hk].
      destruct (Forall2_lookup_l _ _ _ _ _ Hargs Hk) as (a' & Hk' & Hr').
      apply (open_below op args' a'); [by eapply list_elem_of_lookup_2|].
      by apply IH. }
  assert (Hopen2 : has_open_node t2) by (by apply (has_open_node_kept t1)).
  assert (Hall1 : all_ops t1 = all_ops t).
  { clear -F1. revert t1 F1.
    induction t as [value|op args IH] using Node_induction; intros t1 Hr;
      inversion Hr as [|? ? args' Hargs]; subst; [done|].
    simpl. f_equal. clear Hr.
    induction Hargs as [|a a' l l' Ha Hl IHl]; [done|].
    apply Forall_cons in IH as [IHa IHl']. rewrite !bind_cons.
    f_equal; eauto. }
  assert (Hreg2 : from_registry (oplist pow) t2).
  { unfold from_registry in *. apply Forall_forall. intros op Hop o ->.
    destruct (same_but_binops_all_ops t1 t2 F2 _ Hop) as [H1|H2].
    - rewrite Hall1 in H1. rewrite Forall_forall in Hreg. by apply (Hreg _ H1).
    - rewrite Forall_forall in Hb. destruct (Hb _ H2) as (o' & [= ->] & Ho').
      rewrite Forall_forall in Hops. by apply Hops. }
  exists t1, (iter (drop (leafcount t) vs)), t2, (mk_OpsGenerator ops i').
  split; [done|]. split; [done|]. split; [done|].
  destruct (eval_registry_outcome pow t2 Hreg2) as [E|[v E]]; [done|].
  exfalso. apply (eval_Ok_all_assigned t2 v E).
  by apply has_open_node_unassigned.
Qed.

Lemma open_node_stays_open_witness :
  exists t1 gv t2 go,
    setvalues (Expr_make (Expr_make1 Value_make) Value_make) (iter [4; 5])
    = Ok (t1, gv) /\
    setops t1 (mk_OpsGenerator [op_add; op_neg] 1) = Ok (t2, go) /\
    has_open_node t2 /\
    eval t2 = UB.
Proof.
  apply (open_node_stays_open pow_stub [op_add; op_neg]
           (Expr_make (Expr_make1 Value_make) Value_make) [4; 5] 1).
  - apply (open_below None _ (Expr_make1 Value_make)).
    + apply list_elem_of_here.
    + apply open_here. simpl. lia.
  - unfold from_registry. simpl. repeat constructor; done.
  - repeat constructor; unfold oplist; rewrite !elem_of_cons; tauto.
  - done.
  - vm_compute. lia.
Defined.

(** * The arity of the operations *)

(** X17: the field [n] of every entry of the registry is the number of
    arguments its lambda reads: given at least [n] results the lambda
    returns a number that depends on the first [n] only, never throws, and
    given fewer it reads outside the vector. *)
Theorem registry_arity pow o (results : list T) :
  o ∈ oplist pow ->
  0 <= Operation.n o /\
  (Operation.n o <= Z.of_nat (length results) ->
   (exists v, Operation.fn o results = Ok v) /\
   Operation.fn o results
   = Operation.fn o (take (Z.to_nat (Operation.n o)) results)) /\
  (Z.of_nat (length results) < Operation.n o ->
   Operation.fn o results = UB).
Proof.
  unfold oplist. rewrite !elem_of_cons, elem_of_nil.
  intros H; repeat destruct H as [H|H]; subst; try done;
    (split; [done|]);
    destruct results as [|a [|b [|c results]]]; simpl;
    (split; [intros; try lia; eauto|intros; try lia; eauto]).
Qed.

Lemma registry_arity_witness :
  Operation.fn op_sub [5%float; 3%float; 1%float] = Ok 2%float /\
  Operation.fn op_sub [5%float] = UB /\
  Operation.fn op_neg [5%float; 3%float] = Ok (-5)%float /\
  Operation.fn op_neg [] = UB.
Proof.
  destruct (registry_arity pow_stub op_sub [5%float; 3%float; 1%float])
    as (_ & [[v Hv] E] & _);
    [unfold oplist; rewrite !elem_of_cons; tauto|simpl; lia|].
  destruct (registry_arity pow_stub op_sub [5%float])
    as (_ & _ & Hs); [unfold oplist; rewrite !elem_of_cons; tauto|].
  destruct (registry_arity pow_stub op_neg [5%float; 3%float])
    as (_ & [_ En] & _);
    [unfold oplist; rewrite !elem_of_cons; tauto|simpl; lia|].
  destruct (registry_arity pow_stub op_neg [])
    as (_ & _ & Hn); [unfold oplist; rewrite !elem_of_cons; tauto|].
  split; [rewrite E; reflexivity|]. split; [apply Hs; simpl; lia|].
  split; [rewrite En; reflexivity|apply Hn; simpl; lia].
Defined.
